(** * Calendar extraction and consolidation: a shallow embedding

    This development embeds the hand-written parser of
    [python/fetch/calendar/03_extract_from_document.py] (the literal locator,
    the four normaliser passes, the flattener of [main] and the consolidator
    [merge_events] / [sort_events_desc]) and states the properties of the
    specification over that embedding.

    Python text is modelled as a list of characters whose code points are
    below 256; the character classes are those of [str.isspace],
    [str.isalpha], [str.isalnum] and [str.lower] on that range. *)

From Stdlib Require Import Ascii String.
From Stdlib Require Import List ZArith Lia Bool Arith PeanoNat.
From Stdlib Require Import Sorting.Sorted Sorting.Permutation.
Import ListNotations.

Set Warnings "-register-all".

Local Open Scope char_scope.
Local Open Scope nat_scope.
Local Open Scope list_scope.

(* ------------------------------------------------------------------ *)
(** ** Python strings *)

Module Py.

Definition text := list ascii.

(** A literal of the source, as text. *)
Definition str (s : string) : text := list_ascii_of_string s.
Arguments str s%_string : simpl never.

(** The double quote, character 34. *)
Definition DQ : ascii := Ascii false true false false false true false false.

Definition code (c : ascii) : nat := nat_of_ascii c.

Definition in_range (lo hi n : nat) : bool := (lo <=? n) && (n <=? hi).

(** [ch.isspace()] *)
Definition isspace (c : ascii) : bool :=
  let n := code c in
  in_range 9 13 n || in_range 28 32 n || (n =? 133) || (n =? 160).

(** [ch.isalpha()] *)
Definition isalpha (c : ascii) : bool :=
  let n := code c in
  in_range 65 90 n || in_range 97 122 n
  || (n =? 170) || (n =? 181) || (n =? 186)
  || in_range 192 214 n || in_range 216 246 n || in_range 248 255 n.

(** [ch.isalnum()] *)
Definition isalnum (c : ascii) : bool :=
  let n := code c in
  isalpha c || in_range 48 57 n
  || (n =? 178) || (n =? 179) || (n =? 185) || in_range 188 190 n.

(** [ch.lower()] *)
Definition lower_char (c : ascii) : ascii :=
  let n := code c in
  if in_range 65 90 n || in_range 192 214 n || in_range 216 222 n
  then ascii_of_nat (n + 32) else c.

(** [s.lower()] *)
Definition lower (s : text) : text := map lower_char s.

Fixpoint dropwhile {A} (p : A -> bool) (l : list A) : list A :=
  match l with
  | [] => []
  | x :: l' => if p x then dropwhile p l' else l
  end.

Fixpoint takewhile {A} (p : A -> bool) (l : list A) : list A :=
  match l with
  | [] => []
  | x :: l' => if p x then x :: takewhile p l' else []
  end.

(** [s.strip()] *)
Definition strip (s : text) : text :=
  rev (dropwhile isspace (rev (dropwhile isspace s))).

(** [s.isspace()] on a string: non-empty and all characters are spaces. *)
Definition str_isspace (s : text) : bool :=
  match s with [] => false | _ => forallb isspace s end.

Definition eqc (a b : ascii) : bool := Ascii.eqb a b.
Arguments eqc a b : simpl nomatch.

(** A text with double quotes in it, written with a backquote for each. *)
Definition qstr (s : string) : text :=
  map (fun c => if eqc c "`" then DQ else c) (str s).
Arguments qstr s%_string.

Fixpoint eqt (a b : text) : bool :=
  match a, b with
  | [], [] => true
  | x :: a', y :: b' => eqc x y && eqt a' b'
  | _, _ => false
  end.

(** [s.startswith(p)] *)
Fixpoint startswith (s p : text) {struct p} : bool :=
  match p with
  | [] => true
  | x :: p' =>
    match s with
    | y :: s' => eqc x y && startswith s' p'
    | [] => false
    end
  end.

Fixpoint find_at (sub s : text) (pos : nat) : option nat :=
  if startswith s sub then Some pos
  else match s with
       | [] => None
       | _ :: s' => find_at sub s' (S pos)
       end.

(** [s.find(sub, start)]: the lowest index at or after [start] where [sub]
    occurs, [None] for Python's [-1]. *)
Definition find (s sub : text) (start : nat) : option nat :=
  if start <=? length s then find_at sub (skipn start s) start else None.

(** [s[a:b]] for [0 <= a]. *)
Definition slice (s : text) (a b : nat) : text := firstn (b - a) (skipn a s).

(** The raised exceptions that the embedded code can end with. *)
Inductive exn : Type :=
| MarkerNotFound        (* RuntimeError("Marker not found: ...") *)
| ObjectStartNotFound   (* RuntimeError("Object start '{' not found after marker") *)
| UnbalancedBraces      (* RuntimeError("Unbalanced braces while extracting object") *)
| JSONDecodeError
| FileNotFoundError
| AttributeError
| TypeError
| DatetimeError.

Inductive result (A : Type) : Type :=
| Ok (a : A)
| Raise (e : exn).
Arguments Ok {A} a.
Arguments Raise {A} e.

Definition bind {A B} (r : result A) (k : A -> result B) : result B :=
  match r with
  | Ok a => k a
  | Raise e => Raise e
  end.

End Py.

Import Py.

Notation "x <- r ;; k" := (bind r (fun x => k))
  (at level 61, r at next level, right associativity).

(* ------------------------------------------------------------------ *)
(** ** The literal locator and the four normaliser passes *)

Module Extract.

Definition MARKER : text := str "window.calendarComponentStates[1] =".

Definition is_quote (ch : ascii) : bool := eqc ch "'" || eqc ch DQ.

(** [ch == quote], where [quote] is the empty string ([None]) before any string opened. *)
Definition is_q (quote : option ascii) (ch : ascii) : bool :=
  match quote with
  | Some q => eqc ch q
  | None => false
  end.

(** The [for k in range(j, len(html))] loop of [extract_object_literal];
    [s] is [html[k:]].  Returns the index [k] of the closing brace. *)
Fixpoint scan_braces (in_str esc : bool) (quote : option ascii) (depth : Z)
         (k : nat) (s : text) {struct s} : option nat :=
  match s with
  | [] => None
  | ch :: s' =>
    if in_str then
      if esc then scan_braces true false quote depth (S k) s'
      else if eqc ch "\" then scan_braces true true quote depth (S k) s'
      else if is_q quote ch then scan_braces false esc quote depth (S k) s'
      else scan_braces true esc quote depth (S k) s'
    else if is_quote ch then scan_braces true esc (Some ch) depth (S k) s'
    else if eqc ch "{" then scan_braces false esc quote (depth + 1) (S k) s'
    else if eqc ch "}" then
      if (depth - 1 =? 0)%Z then Some k
      else scan_braces false esc quote (depth - 1) (S k) s'
    else scan_braces false esc quote depth (S k) s'
  end.

Definition extract_object_literal (html marker : text) : result text :=
  match find html marker 0 with
  | None => Raise MarkerNotFound
  | Some i =>
    match find html (str "{") i with
    | None => Raise ObjectStartNotFound
    | Some j =>
      match scan_braces false false None 0 j (skipn j html) with
      | Some k => Ok (slice html j (k + 1))
      | None => Raise UnbalancedBraces
      end
    end
  end.

(** The element of [out] found by
    [j = len(out) - 1; while j >= 0 and out[j].isspace(): j -= 1], or the empty string. *)
Definition prev_nonspace (out : list text) : text :=
  match dropwhile str_isspace (rev out) with
  | [] => []
  | p :: _ => p
  end.

Definition ident_char (c : ascii) : bool := isalnum c || eqc c "_".

(** The [while i < len(js)] loop of [quote_unquoted_keys]; [js] is the text
    from index [i] on.  Every iteration consumes at least one character, so
    [fuel = len(js)] iterations are enough. *)
Fixpoint quk_loop (fuel : nat) (in_str esc : bool) (quote : option ascii)
         (out : list text) (js : text) {struct fuel} : list text :=
  match fuel with
  | O => out
  | S fuel =>
    match js with
    | [] => out
    | ch :: rest =>
      if in_str then
        let out := out ++ [[ch]] in
        if esc then quk_loop fuel true false quote out rest
        else if eqc ch "\" then quk_loop fuel true true quote out rest
        else if is_q quote ch then quk_loop fuel false esc quote out rest
        else quk_loop fuel true esc quote out rest
      else if is_quote ch then
        quk_loop fuel true esc (Some ch) (out ++ [[ch]]) rest
      else
        let copy := quk_loop fuel false esc quote (out ++ [[ch]]) rest in
        if isalpha ch || eqc ch "_" then
          let prev := prev_nonspace out in
          if eqt prev (str "{") || eqt prev (str ",") then
            let ident := ch :: takewhile ident_char rest in
            match dropwhile isspace (dropwhile ident_char rest) with
            | c :: rest' =>
              if eqc c ":" then
                quk_loop fuel false esc quote
                         (out ++ [[DQ] ++ ident ++ [DQ; ":"]]) rest'
              else copy
            | [] => copy
            end
          else copy
        else copy
    end
  end.

Definition quote_unquoted_keys (js : text) : text :=
  concat (quk_loop (length js) false false None [] js).

(** The loop of [single_quotes_to_double]. *)
Fixpoint sqd_loop (in_d in_s esc : bool) (out : list text) (js : text)
         {struct js} : list text :=
  match js with
  | [] => out
  | ch :: rest =>
    if in_d then
      let out := out ++ [[ch]] in
      if esc then sqd_loop true in_s false out rest
      else if eqc ch "\" then sqd_loop true in_s true out rest
      else if eqc ch DQ then sqd_loop false in_s esc out rest
      else sqd_loop true in_s esc out rest
    else if in_s then
      if esc then sqd_loop in_d true false (out ++ [[ch]]) rest
      else if eqc ch "\" then sqd_loop in_d true true (out ++ [[ch]]) rest
      else if eqc ch "'" then sqd_loop in_d false esc (out ++ [[DQ]]) rest
      else if eqc ch DQ then sqd_loop in_d true esc (out ++ [["\"; DQ]]) rest
      else sqd_loop in_d true esc (out ++ [[ch]]) rest
    else if eqc ch DQ then sqd_loop true in_s esc (out ++ [[ch]]) rest
    else if eqc ch "'" then sqd_loop in_d true esc (out ++ [[DQ]]) rest
    else sqd_loop in_d in_s esc (out ++ [[ch]]) rest
  end.

Definition single_quotes_to_double (js : text) : text :=
  concat (sqd_loop false false false [] js).

(** The innermost loop of [strip_object_freeze], copying a string that
    opened inside the call; returns [out] and the text after the string. *)
Fixpoint sof_string (q : ascii) (esc2 : bool) (out : list text) (js : text)
         {struct js} : list text * text :=
  match js with
  | [] => (out, [])
  | cc :: rest =>
    let out := out ++ [[cc]] in
    if esc2 then sof_string q false out rest
    else if eqc cc "\" then sof_string q true out rest
    else if eqc cc q then (out, rest)
    else sof_string q esc2 out rest
  end.

(** The loop [while i < len(js) and par > 0] of [strip_object_freeze]. *)
Fixpoint sof_call (fuel : nat) (par : Z) (out : list text) (js : text)
         {struct fuel} : list text * text :=
  match fuel with
  | O => (out, js)
  | S fuel =>
    if (par >? 0)%Z then
      match js with
      | [] => (out, [])
      | c :: rest =>
        if is_quote c then
          let '(out, rest) := sof_string c false (out ++ [[c]]) rest in
          sof_call fuel par out rest
        else if eqc c "(" then sof_call fuel (par + 1) (out ++ [[c]]) rest
        else if eqc c ")" then
          if (par - 1 =? 0)%Z then (out, rest)
          else sof_call fuel (par - 1) (out ++ [[c]]) rest
        else sof_call fuel par (out ++ [[c]]) rest
      end
    else (out, js)
  end.

(** The outer loop of [strip_object_freeze]. *)
Fixpoint sof_loop (fuel : nat) (in_str esc : bool) (quote : option ascii)
         (out : list text) (js : text) {struct fuel} : list text :=
  match fuel with
  | O => out
  | S fuel =>
    match js with
    | [] => out
    | ch :: rest =>
      if in_str then
        let out := out ++ [[ch]] in
        if esc then sof_loop fuel true false quote out rest
        else if eqc ch "\" then sof_loop fuel true true quote out rest
        else if is_q quote ch then sof_loop fuel false esc quote out rest
        else sof_loop fuel true esc quote out rest
      else if is_quote ch then
        sof_loop fuel true esc (Some ch) (out ++ [[ch]]) rest
      else if startswith js (str "Object.freeze(") then
        let js1 := skipn (length (str "Object.freeze(")) js in
        let '(out, js2) := sof_call (S (length js1)) 1 out js1 in
        sof_loop fuel false esc quote out js2
      else sof_loop fuel false esc quote (out ++ [[ch]]) rest
    end
  end.

Definition strip_object_freeze (js : text) : text :=
  concat (sof_loop (length js) false false None [] js).

(** The [j]-lookahead of [remove_trailing_commas]: after the spaces that
    follow the comma comes [}] or []]. *)
Definition closes_next (rest : text) : bool :=
  match dropwhile isspace rest with
  | c :: _ => eqc c "}" || eqc c "]"
  | [] => false
  end.

(** The loop of [remove_trailing_commas]. *)
Fixpoint rtc_loop (in_str esc : bool) (quote : option ascii)
         (out : list text) (js : text) {struct js} : list text :=
  match js with
  | [] => out
  | ch :: rest =>
    if in_str then
      let out := out ++ [[ch]] in
      if esc then rtc_loop true false quote out rest
      else if eqc ch "\" then rtc_loop true true quote out rest
      else if is_q quote ch then rtc_loop false esc quote out rest
      else rtc_loop true esc quote out rest
    else if is_quote ch then rtc_loop true esc (Some ch) (out ++ [[ch]]) rest
    else if eqc ch "," && closes_next rest then rtc_loop false esc quote out rest
    else rtc_loop false esc quote (out ++ [[ch]]) rest
  end.

Definition remove_trailing_commas (js : text) : text :=
  concat (rtc_loop false false None [] js).

Definition js_object_to_json_text (js_obj : text) : text :=
  let s := quote_unquoted_keys js_obj in
  let s := single_quotes_to_double s in
  let s := strip_object_freeze s in
  let s := remove_trailing_commas s in
  s.

End Extract.

Import Extract.

(* ------------------------------------------------------------------ *)
(** ** Decoded values and Python dictionaries *)

Module Data.

(** A Python [float] as the decoder reads it: the decimal [mant * 10 ^ exp]
    with its sign, or one of the three literals the decoder also accepts. *)
Inductive pyfloat : Type :=
| FDec (neg : bool) (mant : N) (exp : Z)
| FInf (neg : bool)
| FNaN.

(** The decoded tree.  A [dict] keeps its insertion order, so it is a list
    of pairs whose keys are pairwise different. *)
Inductive value : Type :=
| VNull
| VBool (b : bool)
| VInt (z : Z)
| VFloat (f : pyfloat)
| VStr (s : text)
| VList (l : list value)
| VDict (d : list (text * value)).

Definition row := list (text * value).

Section Dict.
Context {K V : Type} (eqk : K -> K -> bool).

(** [d[k]], when [k in d]. *)
Fixpoint dict_find (d : list (K * V)) (k : K) : option V :=
  match d with
  | [] => None
  | (k', v) :: d' => if eqk k k' then Some v else dict_find d' k
  end.

(** [d[k] = v]: a present key keeps its place, a new key goes last. *)
Fixpoint dict_set (d : list (K * V)) (k : K) (v : V) : list (K * V) :=
  match d with
  | [] => [(k, v)]
  | (k', v') :: d' =>
    if eqk k k' then (k', v) :: d' else (k', v') :: dict_set d' k v
  end.

(** [k in d] *)
Definition dict_mem (d : list (K * V)) (k : K) : bool :=
  match dict_find d k with Some _ => true | None => false end.
End Dict.

(** [d.get(k)] *)
Definition get (d : row) (k : text) : value :=
  match dict_find eqt d k with
  | Some v => v
  | None => VNull
  end.

(** [d.get(k, default)] *)
Definition get_default (d : row) (k : text) (default : value) : value :=
  match dict_find eqt d k with
  | Some v => v
  | None => default
  end.

(** [isinstance(v, int)], with the integer it stands for: [bool] is a
    subclass of [int] in Python, [True] being [1] and [False] being [0]. *)
Definition as_int (v : value) : option Z :=
  match v with
  | VInt z => Some z
  | VBool b => Some (if b then 1%Z else 0%Z)
  | _ => None
  end.

Definition isinstance_int (v : value) : bool :=
  match as_int v with Some _ => true | None => false end.

(** The float is [0.0] or [-0.0]: the mantissa is zero, or the decimal is
    at most half of the least positive double, [2 ^ -1075]. *)
Definition float_is_zero (f : pyfloat) : bool :=
  match f with
  | FDec _ m e =>
    (m =? 0)%N ||
    ((e <? 0)%Z && (Z.of_N m * 2 ^ 1075 <=? 10 ^ (- e))%Z)
  | _ => false
  end.

(** Python truthiness, [bool(v)]. *)
Definition truthy (v : value) : bool :=
  match v with
  | VNull => false
  | VBool b => b
  | VInt z => negb (z =? 0)%Z
  | VFloat f => negb (float_is_zero f)
  | VStr s => match s with [] => false | _ => true end
  | VList l => match l with [] => false | _ => true end
  | VDict d => match d with [] => false | _ => true end
  end.

End Data.

Import Data.

(* ------------------------------------------------------------------ *)
(** ** The strict decoder, [json.loads] *)

Module Json.

(** The decoder's whitespace: space, tab, line feed, carriage return. *)
Definition is_ws (c : ascii) : bool :=
  eqc c " " || (code c =? 9) || (code c =? 10) || (code c =? 13).

Definition skip_ws (s : text) : text := dropwhile is_ws s.

Definition is_digit (c : ascii) : bool := in_range 48 57 (code c).

Definition digit_val (c : ascii) : N := N.of_nat (code c - 48).

(** The number that a run of decimal digits writes. *)
Definition digits_val (ds : text) : N :=
  fold_left (fun acc c => (10 * acc + digit_val c)%N) ds 0%N.

Definition hex_val (c : ascii) : option nat :=
  let n := code c in
  if in_range 48 57 n then Some (n - 48)
  else if in_range 97 102 n then Some (n - 87)
  else if in_range 65 70 n then Some (n - 55)
  else None.

(** The one-letter escapes of a string. *)
Definition unescape (e : ascii) : option ascii :=
  if eqc e DQ then Some DQ
  else if eqc e "\" then Some "\"%char
  else if eqc e "/" then Some "/"%char
  else if eqc e "b" then Some (ascii_of_nat 8)
  else if eqc e "f" then Some (ascii_of_nat 12)
  else if eqc e "n" then Some (ascii_of_nat 10)
  else if eqc e "r" then Some (ascii_of_nat 13)
  else if eqc e "t" then Some (ascii_of_nat 9)
  else None.

(** The body of a string, after its opening quote, up to and including the
    closing one.  A control character, an unknown escape and an end of text
    are errors.  A [\uXXXX] escape is decoded when it names a character of
    the modelled alphabet (a code point below 256); the others name
    characters this model has no value for, and are not decoded. *)
Fixpoint scanstring (acc : text) (s : text) {struct s} : option (text * text) :=
  match s with
  | [] => None
  | c :: s1 =>
    if eqc c DQ then Some (acc, s1)
    else if eqc c "\" then
      match s1 with
      | [] => None
      | e :: s2 =>
        if eqc e "u" then
          match s2 with
          | h1 :: h2 :: h3 :: h4 :: s3 =>
            match hex_val h1, hex_val h2, hex_val h3, hex_val h4 with
            | Some a, Some b, Some c', Some d =>
              let n := ((a * 16 + b) * 16 + c') * 16 + d in
              if n <? 256 then scanstring (acc ++ [ascii_of_nat n]) s3
              else None
            | _, _, _, _ => None
            end
          | _ => None
          end
        else
          match unescape e with
          | Some ch => scanstring (acc ++ [ch]) s2
          | None => None
          end
      end
    else if code c <? 32 then None
    else scanstring (acc ++ [c]) s1
  end.

(** The integer part of a number: [0], or a non-zero digit and more digits. *)
Definition int_part (s : text) : option (text * text) :=
  match s with
  | c :: s1 =>
    if eqc c "0" then Some ([c], s1)
    else if is_digit c then Some (c :: takewhile is_digit s1, dropwhile is_digit s1)
    else None
  | [] => None
  end.

(** The optional fraction, [.] and one digit or more. *)
Definition frac_part (s : text) : option (text * text) :=
  match s with
  | dot :: d :: s1 =>
    if eqc dot "." && is_digit d
    then Some (d :: takewhile is_digit s1, dropwhile is_digit s1)
    else None
  | _ => None
  end.

(** The optional exponent, [e] or [E], a sign or none, one digit or more. *)
Definition exp_part (s : text) : option (Z * text) :=
  match s with
  | e :: s1 =>
    if eqc e "e" || eqc e "E" then
      let '(neg, s2) :=
        match s1 with
        | sg :: s2 =>
          if eqc sg "-" then (true, s2)
          else if eqc sg "+" then (false, s2) else (false, s1)
        | [] => (false, s1)
        end in
      match s2 with
      | d :: _ =>
        if is_digit d then
          let n := Z.of_N (digits_val (takewhile is_digit s2)) in
          Some (if neg then (- n)%Z else n, dropwhile is_digit s2)
        else None
      | [] => None
      end
    else None
  | [] => None
  end.

(** A number after its sign: an [int] when it has neither fraction nor
    exponent, else a [float]. *)
Definition number_body (neg : bool) (s0 : text) : option (value * text) :=
  match int_part s0 with
  | None => None
  | Some (ds, s1) =>
    let '(fr, s2) :=
      match frac_part s1 with
      | Some (fs, s2) => (Some fs, s2)
      | None => (None, s1)
      end in
    let '(ex, s3) :=
      match exp_part s2 with
      | Some (e, s3) => (Some e, s3)
      | None => (None, s2)
      end in
    match fr, ex with
    | None, None =>
      let n := Z.of_N (digits_val ds) in
      Some (VInt (if neg then (- n)%Z else n), s3)
    | _, _ =>
      let fs := match fr with Some fs => fs | None => [] end in
      let e := match ex with Some e => e | None => 0%Z end in
      Some (VFloat (FDec neg (digits_val (ds ++ fs))
                         (e - Z.of_nat (length fs))%Z), s3)
    end
  end.

(** A number: an optional minus sign, then the digits. *)
Definition parse_number (s : text) : option (value * text) :=
  match s with
  | c :: s' => if eqc c "-" then number_body true s' else number_body false s
  | [] => number_body false s
  end.

(** [s] starts with the literal [lit]: what follows it. *)
Definition literal (lit : string) (s : text) : option text :=
  if startswith s (str lit) then Some (skipn (length (str lit)) s) else None.

(** One value at the start of [s] ([scan_once]), the items of an array
    after its [[] and the members of an object after its [{].  [fuel]
    bounds the calls; every call but the first follows a consumed
    character, so [S (length s)] is enough. *)
Fixpoint scan_once (fuel : nat) (s : text) {struct fuel}
  : option (value * text) :=
  match fuel with
  | O => None
  | S fuel =>
    match s with
    | [] => None
    | c :: s1 =>
      if eqc c DQ then
        match scanstring [] s1 with
        | Some (t, s2) => Some (VStr t, s2)
        | None => None
        end
      else if eqc c "{" then
        match skip_ws s1 with
        | c2 :: s2 =>
          if eqc c2 "}" then Some (VDict [], s2)
          else
            match scan_members fuel [] (c2 :: s2) with
            | Some (d, s3) => Some (VDict d, s3)
            | None => None
            end
        | [] => None
        end
      else if eqc c "[" then
        match skip_ws s1 with
        | c2 :: s2 =>
          if eqc c2 "]" then Some (VList [], s2)
          else
            match scan_items fuel [] (c2 :: s2) with
            | Some (l, s3) => Some (VList l, s3)
            | None => None
            end
        | [] => None
        end
      else
        match literal "null" s, literal "true" s, literal "false" s with
        | Some s2, _, _ => Some (VNull, s2)
        | _, Some s2, _ => Some (VBool true, s2)
        | _, _, Some s2 => Some (VBool false, s2)
        | None, None, None =>
          match parse_number s with
          | Some r => Some r
          | None =>
            match literal "NaN" s, literal "Infinity" s,
                  literal "-Infinity" s with
            | Some s2, _, _ => Some (VFloat FNaN, s2)
            | _, Some s2, _ => Some (VFloat (FInf false), s2)
            | _, _, Some s2 => Some (VFloat (FInf true), s2)
            | None, None, None => None
            end
          end
        end
    end
  end

with scan_items (fuel : nat) (acc : list value) (s : text) {struct fuel}
  : option (list value * text) :=
  match fuel with
  | O => None
  | S fuel =>
    match scan_once fuel s with
    | None => None
    | Some (v, s1) =>
      match skip_ws s1 with
      | c :: s2 =>
        if eqc c "]" then Some (acc ++ [v], s2)
        else if eqc c "," then scan_items fuel (acc ++ [v]) (skip_ws s2)
        else None
      | [] => None
      end
    end
  end

with scan_members (fuel : nat) (acc : list (text * value)) (s : text)
       {struct fuel} : option (list (text * value) * text) :=
  match fuel with
  | O => None
  | S fuel =>
    match s with
    | q :: s0 =>
      if eqc q DQ then
        match scanstring [] s0 with
        | None => None
        | Some (key, s1) =>
          match skip_ws s1 with
          | colon :: s2 =>
            if eqc colon ":" then
              match scan_once fuel (skip_ws s2) with
              | None => None
              | Some (v, s3) =>
                match skip_ws s3 with
                | c :: s4 =>
                  if eqc c "}" then Some (dict_set eqt acc key v, s4)
                  else if eqc c "," then
                    scan_members fuel (dict_set eqt acc key v) (skip_ws s4)
                  else None
                | [] => None
                end
              end
            else None
          | [] => None
          end
        end
      else None
    | [] => None
    end
  end.

(** [json.loads(s)]; [None] stands for [JSONDecodeError]. *)
Definition loads (s : text) : option value :=
  match scan_once (S (length s)) (skip_ws s) with
  | Some (v, s1) =>
    match skip_ws s1 with
    | [] => Some v
    | _ :: _ => None
    end
  | None => None
  end.

End Json.

(* ------------------------------------------------------------------ *)
(** ** The consolidator: [load_existing_events], [merge_events],
       [sort_events_desc] *)

Module Store.

Definition path := text.

(** The files of the run: the text of each file that exists. *)
Definition filesystem := path -> option text.

(** [p.write_text(content)] *)
Definition write_text (fs : filesystem) (p : path) (content : text)
  : filesystem :=
  fun q => if eqt q p then Some content else fs q.

Definition is_dict (v : value) : bool :=
  match v with VDict _ => true | _ => false end.

Definition dict_of (v : value) : row :=
  match v with VDict d => d | _ => [] end.

Definition load_existing_events (fs : filesystem) (p : path) : list row :=
  match fs p with
  | None => []
  | Some content =>
    match Json.loads content with
    | None => []
    | Some payload =>
      match payload with
      | VList l => map dict_of (filter is_dict l)
      | _ => []
      end
    end
  end.

Definition key := (Z * Z)%type.

Definition eqkey (a b : key) : bool :=
  (fst a =? fst b)%Z && (snd a =? snd b)%Z.

Definition key_of (r : row) : option key :=
  let event_id := get r (str "event_id") in
  let epoch := get r (str "dateline_epoch") in
  match as_int event_id, as_int epoch with
  | Some i, Some e => Some (i, e)
  | _, _ => None
  end.

(** [value not in (None, '')] *)
Definition provided (v : value) : bool :=
  match v with
  | VNull => false
  | VStr [] => false
  | _ => true
  end.

(** The body of [for field, value in row.items()]. *)
Definition merge_field (merged_row : row) (item : text * value) : row :=
  let '(field, value) := item in
  if eqt field (str "actual") then merged_row
  else if provided value then dict_set eqt merged_row field value
  else merged_row.

(** The matched case of the second loop of [merge_events]. *)
Definition merge_row (old r : row) : row :=
  let merged_row := old in
  let new_actual := get r (str "actual") in
  let merged_row :=
    if provided new_actual
    then dict_set eqt merged_row (str "actual") new_actual
    else merged_row in
  fold_left merge_field r merged_row.

Definition add_existing (merged : list (key * row)) (r : row)
  : list (key * row) :=
  match key_of r with
  | Some k => dict_set eqkey merged k r
  | None => merged
  end.

Definition add_incoming (merged : list (key * row)) (r : row)
  : list (key * row) :=
  match key_of r with
  | None => merged
  | Some k =>
    match dict_find eqkey merged k with
    | None => dict_set eqkey merged k r
    | Some old => dict_set eqkey merged k (merge_row old r)
    end
  end.

Definition merge_events (existing incoming : list row) : list row :=
  let merged := fold_left add_existing existing [] in
  let merged := fold_left add_incoming incoming merged in
  map snd merged.

(** The key of [sort_events_desc]. *)
Definition sort_key (r : row) : Z * Z :=
  let epoch := get r (str "dateline_epoch") in
  let event_id := get r (str "event_id") in
  let epoch_val := match as_int epoch with Some z => z | None => (-1)%Z end in
  let event_val := match as_int event_id with Some z => z | None => (-1)%Z end in
  ((- epoch_val)%Z, (- event_val)%Z).

(** Order of Python tuples of two integers. *)
Definition pair_leb (a b : Z * Z) : bool :=
  (fst a <? fst b)%Z || ((fst a =? fst b)%Z && (snd a <=? snd b)%Z).

Section Sorted.
Context {A : Type} (keyf : A -> Z * Z).

Fixpoint insert_by (x : A) (l : list A) : list A :=
  match l with
  | [] => [x]
  | y :: l' =>
    if pair_leb (keyf x) (keyf y) then x :: l else y :: insert_by x l'
  end.

(** [sorted(l, key=keyf)].  Python's sort is stable, and a stable sort has
    one result: the one this insertion sort computes, where an element
    goes before the elements after it that have the same key. *)
Definition sorted (l : list A) : list A := fold_right insert_by [] l.

(** [a] may come before [b] in a list sorted by [keyf]. *)
Definition key_le (a b : A) : Prop := pair_leb (keyf a) (keyf b) = true.
End Sorted.

Definition sort_events_desc (rows : list row) : list row :=
  sorted sort_key rows.

End Store.

Import Store.

(* ------------------------------------------------------------------ *)
(** ** The flattener and the run, [main] *)

Module Main.

Definition IN_HTML : path :=
  str "python/Data/raw_data/calendar/calendar_document.html".
Definition OUT_EVENTS_JSON : path :=
  str "python/Data/raw_data/calendar/calendar_all_event.json".
Definition OUT_EVENTS_CSV : path :=
  str "python/Data/raw_data/calendar/calendar_all_event.csv".
Definition OUT_META : path :=
  str "python/Data/raw_data/calendar/events.meta.json".
Definition OUT_ERR : path :=
  str "python/Data/raw_data/calendar/extract_error.txt".

Definition IMPACT_SCORE : list (text * Z) :=
  [(str "high", 3%Z); (str "medium", 2%Z); (str "low", 1%Z)].

(** After a [<]: the text after the first [>], when no line feed comes
    before it (the lazy [.*?] of the pattern does not cross one). *)
Fixpoint tag_end (s : text) : option text :=
  match s with
  | [] => None
  | c :: s' =>
    if eqc c ">" then Some s'
    else if code c =? 10 then None
    else tag_end s'
  end.

(** [re.sub(r'<.*?>', '', s)] *)
Fixpoint sub_tags (fuel : nat) (s : text) : text :=
  match fuel with
  | O => []
  | S fuel =>
    match s with
    | [] => []
    | c :: s' =>
      if eqc c "<" then
        match tag_end s' with
        | Some s'' => sub_tags fuel s''
        | None => c :: sub_tags fuel s'
        end
      else c :: sub_tags fuel s'
    end
  end.

(** [strip_html_tags(v)], that is [re.sub(r'<.*?>', '', v or '')]. *)
Definition strip_html_tags (v : value) : result text :=
  match (if truthy v then v else VStr []) with
  | VStr s => Ok (sub_tags (length s) s)
  | _ => Raise TypeError
  end.

(** [(v or '').lower().strip()] *)
Definition impact_label (v : value) : result text :=
  match (if truthy v then v else VStr []) with
  | VStr s => Ok (strip (lower s))
  | _ => Raise AttributeError
  end.

(** [IMPACT_SCORE.get(impact, 0)] *)
Definition impact_score_of (impact : text) : Z :=
  match dict_find eqt IMPACT_SCORE impact with
  | Some n => n
  | None => 0%Z
  end.

(** [for x in v]: a list gives its elements, a string its characters, a
    dict its keys; the other values are not iterable. *)
Definition iterate (v : value) : result (list value) :=
  match v with
  | VList l => Ok l
  | VStr s => Ok (map (fun c => VStr [c]) s)
  | VDict d => Ok (map (fun kv => VStr (fst kv)) d)
  | _ => Raise TypeError
  end.

(** [v.get]: only a dict has the method. *)
Definition as_dict (v : value) : result row :=
  match v with
  | VDict d => Ok d
  | _ => Raise AttributeError
  end.

Section Run.

(** [parse_epoch_to_bkk_iso] on an integer: the ISO text that [datetime]
    and the time zone database give for the epoch, [None] when
    [datetime.fromtimestamp] raises (an epoch outside its range). *)
Variable bkk_iso : Z -> option text.

(** What the run writes for a record list: [json.dumps(rows,
    ensure_ascii=False, indent=2)], the text of [write_csv], the run
    metadata (it holds the clock), and the traceback of an exception. *)
Variable json_dumps : list row -> text.
Variable csv_text : list row -> text.
Variable meta_text : list row -> text.
Variable traceback : exn -> text.

Definition parse_epoch_to_bkk_iso (epoch : Z) : result text :=
  match bkk_iso epoch with
  | Some t => Ok t
  | None => Raise DatetimeError
  end.

(** The record that [rows.append] receives. *)
Definition event_row (day_label : text) (ev : row) (event_id epoch : value)
           (datetime_bkk impact : text) (impact_score : Z) : row :=
  [ (str "day_label", VStr day_label);
    (str "event_id", event_id);
    (str "dateline_epoch", epoch);
    (str "datetime_bkk", VStr datetime_bkk);
    (str "currency", get ev (str "currency"));
    (str "country", get ev (str "country"));
    (str "impact", VStr impact);
    (str "impact_score", VInt impact_score);
    (str "timeLabel", get ev (str "timeLabel"));
    (str "name", get ev (str "name"));
    (str "prefixedName", get ev (str "prefixedName"));
    (str "actual", get ev (str "actual"));
    (str "forecast", get ev (str "forecast"));
    (str "previous", get ev (str "previous"));
    (str "revision", get ev (str "revision"));
    (str "url", get ev (str "url"));
    (str "soloUrl", get ev (str "soloUrl")) ].

(** The state of the two loops: [rows] and [seen]. *)
Definition acc := (list row * list key)%type.

(** The body of [for ev in day.get("events", [])]. *)
Definition flatten_event (day_label : text) (st : acc) (evv : value)
  : result acc :=
  let '(rows, seen) := st in
  ev <- as_dict evv ;;
  let event_id := get ev (str "id") in
  let epoch := get ev (str "dateline") in
  match as_int event_id, as_int epoch with
  | Some i, Some e =>
    let pk := (i, e) in
    if existsb (eqkey pk) seen then Ok st
    else
      let seen := seen ++ [pk] in
      impact <- impact_label (get ev (str "impactName")) ;;
      let impact_score := impact_score_of impact in
      datetime_bkk <- parse_epoch_to_bkk_iso e ;;
      Ok (rows ++ [event_row day_label ev event_id epoch datetime_bkk
                             impact impact_score],
          seen)
  | _, _ => Ok st
  end.

(** A [for] loop whose body can raise. *)
Fixpoint for_each {A S} (body : S -> A -> result S) (st : S) (l : list A)
  : result S :=
  match l with
  | [] => Ok st
  | x :: l' => st' <- body st x ;; for_each body st' l'
  end.

(** The body of [for day in data.get("days", [])]. *)
Definition flatten_day (st : acc) (dayv : value) : result acc :=
  day <- as_dict dayv ;;
  day_label <- strip_html_tags (get_default day (str "date") (VStr [])) ;;
  events <- iterate (get_default day (str "events") (VList [])) ;;
  for_each (flatten_event day_label) st events.

(** The "Normalize + dedupe" part of [main]: the rows of a decoded tree. *)
Definition flatten (datav : value) : result (list row) :=
  data <- as_dict datav ;;
  days <- iterate (get_default data (str "days") (VList [])) ;;
  st <- for_each flatten_day ([], []) days ;;
  Ok (fst st).

(** [main()]: the files after the run, and how it ended.  The writes come
    after every step that can raise. *)
Definition main (fs : filesystem) : filesystem * result unit :=
  match fs IN_HTML with
  | None => (fs, Raise FileNotFoundError)
  | Some html =>
    match extract_object_literal html MARKER with
    | Raise e => (fs, Raise e)
    | Ok js_obj =>
      let json_text := js_object_to_json_text js_obj in
      match Json.loads json_text with
      | None => (fs, Raise JSONDecodeError)
      | Some data =>
        match flatten data with
        | Raise e => (fs, Raise e)
        | Ok rows =>
          let existing_rows := load_existing_events fs OUT_EVENTS_JSON in
          let rows := merge_events existing_rows rows in
          let rows := sort_events_desc rows in
          let fs := write_text fs OUT_EVENTS_JSON (json_dumps rows) in
          let fs := write_text fs OUT_EVENTS_CSV (csv_text rows) in
          let fs := write_text fs OUT_META (meta_text rows) in
          (fs, Ok tt)
        end
      end
    end
  end.

(** The script: [main()], and on an exception the traceback is written
    to [OUT_ERR]. *)
Definition script (fs : filesystem) : filesystem * result unit :=
  match main fs with
  | (fs', Ok tt) => (fs', Ok tt)
  | (fs', Raise e) => (write_text fs' OUT_ERR (traceback e), Raise e)
  end.

End Run.

End Main.

Import Main.

(** [impact_score] of [god_project/fetch/calendar/main.py], the sibling
    scoring by containment. *)
Module GodProject.

Fixpoint contains (s sub : text) : bool :=
  startswith s sub ||
  match s with
  | [] => false
  | _ :: s' => contains s' sub
  end.

(** [impact_score(impact)]: [None] is Python's [None]. *)
Definition impact_score (impact : option text) : option Z :=
  match impact with
  | None => None
  | Some [] => None
  | Some s =>
    let v := lower (strip s) in
    if contains v (str "high") then Some 3%Z
    else if contains v (str "medium") || contains v (str "med") then Some 2%Z
    else if contains v (str "low") then Some 1%Z
    else None
  end.

End GodProject.

(* ------------------------------------------------------------------ *)
(** ** The tabular mirror, [write_csv] *)

Module Csv.

(** The line feed, character 10. *)
Definition LF : ascii := ascii_of_nat 10.

(** [sep.join(items)] *)
Fixpoint join_with (sep : text) (items : list text) : text :=
  match items with
  | [] => []
  | x :: rest =>
    match rest with
    | [] => x
    | _ :: _ => x ++ sep ++ join_with sep rest
    end
  end.

(** [s.replace(q, q + q)], where [q] is the double quote. *)
Definition double_quotes (s : text) : text :=
  flat_map (fun c => if eqc c DQ then [DQ; DQ] else [c]) s.

(** The second half of [esc_csv]: the text is put in double quotes, with
    its own double quotes doubled, when a comma, a double quote or a line
    feed occurs in it. *)
Definition quote_csv (s : text) : text :=
  if existsb (fun c => existsb (eqc c) s) [","%char; DQ; LF]
  then [DQ] ++ double_quotes s ++ [DQ]
  else s.

Section WriteCsv.

(** [str(x)] for a value that is neither [None] nor a string: the text of
    a number, of a boolean, of a list or of a dict. *)
Variable py_str : value -> text.

(** The first half of [esc_csv]: the empty text if [x is None], else
    [str(x)]; the text of a string is the string. *)
Definition cell (x : value) : text :=
  match x with
  | VNull => []
  | VStr s => s
  | _ => py_str x
  end.

Definition esc_csv (x : value) : text := quote_csv (cell x).

(** The line of a record: the join, with commas, of
    [esc_csv(r.get(h)) for h in headers]. *)
Definition csv_line (headers : list text) (r : row) : text :=
  join_with [","%char] (map (fun h => esc_csv (get r h)) headers).

(** The text that [write_csv(rows, path)] writes to [path]. *)
Definition write_csv (rows : list row) : text :=
  match rows with
  | [] => []
  | r0 :: _ =>
    let headers := map fst r0 in
    (join_with [","%char] headers ++ [LF])
    ++ flat_map (fun r => csv_line headers r ++ [LF]) rows
  end.

End WriteCsv.

End Csv.

Import Csv.

(* ------------------------------------------------------------------ *)
(** * Notions of the specification *)

(** A Python dict has each key once. *)
Definition wf_row (r : row) : Prop := NoDup (map fst r).

(** What the merge leaves in field [f]: the incoming value when the field
    is present in the incoming record and the code takes it as provided,
    else the value the stored record had. *)
Definition taken (old r : row) (f : text) : option value :=
  match dict_find eqt r f with
  | Some v => if provided v then Some v else dict_find eqt old f
  | None => dict_find eqt old f
  end.

(** Its keys are pairwise different, and each record is filed under its
    own identity pair. *)
Definition keyed (m : list (key * row)) : Prop :=
  NoDup (map fst m) /\ Forall (fun kr => key_of (snd kr) = Some (fst kr)) m.

(** [is_blank] of [30_refresh_actuals.py]: [None], or a string that is
    empty once stripped. *)
Definition is_blank (v : value) : bool :=
  match v with
  | VNull => true
  | VStr s => eqt (strip s) []
  | _ => false
  end.

Definition stored_5_10 : row :=
  [(str "event_id", VInt 5); (str "dateline_epoch", VInt 10);
   (str "actual", VStr (str "1.2"))].

Definition incoming_5_10 : row :=
  [(str "event_id", VInt 5); (str "dateline_epoch", VInt 10);
   (str "actual", VStr (str " "))].

(** The value that orders a record: its integer, or [-1] when the field is
    missing or not an integer. *)
Definition epoch_val (r : row) : Z :=
  match as_int (get r (str "dateline_epoch")) with Some z => z | None => (-1)%Z end.

Definition event_val (r : row) : Z :=
  match as_int (get r (str "event_id")) with Some z => z | None => (-1)%Z end.

(** [a] may come before [b]: epoch descending, then event_id descending. *)
Definition desc (a b : row) : Prop :=
  (epoch_val b < epoch_val a)%Z \/
  (epoch_val a = epoch_val b /\ (event_val b <= event_val a)%Z).

Definition row_epoch_m5 : row :=
  [(str "event_id", VInt 1); (str "dateline_epoch", VInt (-5))].

Definition row_no_epoch : row := [(str "event_id", VInt 2)].


(** The score [n] is the exact table entry of [label]: 3, 2 and 1 for
    "high", "medium" and "low", and 0 for every other label. *)
Definition exact_score (label : text) (n : Z) : Prop :=
  (label = str "high" /\ n = 3%Z) \/
  (label = str "medium" /\ n = 2%Z) \/
  (label = str "low" /\ n = 1%Z) \/
  (label <> str "high" /\ label <> str "medium" /\ label <> str "low" /\
   n = 0%Z).

(** *** The flattener, in the words of the specification *)

Fixpoint mapM {A B} (f : A -> result B) (l : list A) : result (list B) :=
  match l with
  | [] => Ok []
  | x :: l' => y <- f x ;; ys <- mapM f l' ;; Ok (y :: ys)
  end.

(** The events of one day, in order, each with the label of the day. *)
Definition day_events (dayv : value) : result (list (text * row)) :=
  day <- as_dict dayv ;;
  day_label <- strip_html_tags (get_default day (str "date") (VStr [])) ;;
  events <- iterate (get_default day (str "events") (VList [])) ;;
  evs <- mapM as_dict events ;;
  Ok (map (pair day_label) evs).

(** The events of a decoded tree in traversal order: the days in order,
    and the events in order within each day. *)
Definition traversal (datav : value) : result (list (text * row)) :=
  data <- as_dict datav ;;
  days <- iterate (get_default data (str "days") (VList [])) ;;
  dss <- mapM day_events days ;;
  Ok (concat dss).

(** The identity pair of an event: an integer id and an integer epoch. *)
Definition event_key (ev : row) : option key :=
  match as_int (get ev (str "id")), as_int (get ev (str "dateline")) with
  | Some i, Some e => Some (i, e)
  | _, _ => None
  end.

Definition has_key (k : key) (ev : row) : bool :=
  match event_key ev with
  | Some k' => eqkey k k'
  | None => false
  end.

(** The events that are emitted, [before] being the events that come
    earlier in the traversal: an event is kept when it has an identity pair
    that no earlier event has. *)
Fixpoint firsts (before : list row) (evs : list (text * row))
  : list (text * row) :=
  match evs with
  | [] => []
  | (l, ev) :: evs' =>
    match event_key ev with
    | Some k =>
      if existsb (has_key k) before then firsts (before ++ [ev]) evs'
      else (l, ev) :: firsts (before ++ [ev]) evs'
    | None => firsts (before ++ [ev]) evs'
    end
  end.

(** The record of an emitted event. *)
Definition record_of (bkk_iso : Z -> option text) (lev : text * row)
  : result row :=
  let '(day_label, ev) := lev in
  match as_int (get ev (str "dateline")) with
  | Some e =>
    impact <- impact_label (get ev (str "impactName")) ;;
    datetime_bkk <- parse_epoch_to_bkk_iso bkk_iso e ;;
    Ok (event_row day_label ev (get ev (str "id")) (get ev (str "dateline"))
                  datetime_bkk impact (impact_score_of impact))
  | None => Raise TypeError
  end.

(** The same events, told by the identity pairs [seen] so far. *)
Fixpoint firsts_k (seen : list key) (evs : list (text * row))
  : list (text * row) :=
  match evs with
  | [] => []
  | (l, ev) :: evs' =>
    match event_key ev with
    | Some k =>
      if existsb (eqkey k) seen then firsts_k seen evs'
      else (l, ev) :: firsts_k (seen ++ [k]) evs'
    | None => firsts_k seen evs'
    end
  end.

(** The identity pairs of a list of events. *)
Definition picked_keys (p : list (text * row)) : list key :=
  flat_map (fun lev => match event_key (snd lev) with
                       | Some k => [k]
                       | None => []
                       end) p.

Definition event_high : row :=
  [(str "id", VInt 101); (str "dateline", VInt 1700000000);
   (str "impactName", VStr (str "High"))].

(** The keys of a row are pairwise different, as a test. *)
Fixpoint nodupb (l : list text) : bool :=
  match l with
  | [] => true
  | x :: l' => negb (existsb (eqt x) l') && nodupb l'
  end.

(** *** The serializer of the round trip *)

(** How a value is written: keys quoted or bare, strings in double or in
    single quotes, a comma after the last item or none. *)
Record style : Type := Style { kq : bool; dq : bool; tc : bool }.

(** The JavaScript literal of the round trip: bare keys, single-quoted
    strings, trailing commas. *)
Definition JS : style := Style false false true.

(** What the normaliser makes of it. *)
Definition NORM : style := Style true true false.

Definition hex_digit (n : nat) : ascii :=
  if n <? 10 then ascii_of_nat (48 + n) else ascii_of_nat (87 + n).

(** A character of a single-quoted JavaScript string: the backslash and
    the quote are escaped with a backslash, a control character is written
    [\u00XX], and any other character stands for itself. *)
Definition esc_js (c : ascii) : text :=
  if eqc c "\" then ["\"; "\"]
  else if eqc c "'" then ["\"; "'"]
  else if code c <? 32 then
    ["\"; "u"; "0"; "0"; hex_digit (code c / 16); hex_digit (code c mod 16)]
  else [c].

(** The same character once the string is double-quoted: a double quote
    gets a backslash, the rest is as it was. *)
Definition esc_dq (c : ascii) : text :=
  if eqc c DQ then ["\"; DQ] else esc_js c.

Definition quote_of (d : bool) : ascii := if d then DQ else "'".

Definition print_string (d : bool) (s : text) : text :=
  quote_of d :: flat_map (if d then esc_dq else esc_js) s ++ [quote_of d].

Definition print_key (sty : style) (k : text) : text :=
  if kq sty then DQ :: k ++ [DQ] else k.

Definition digit_char (n : N) : ascii := ascii_of_N (48 + n).

Fixpoint digits_of (fuel : nat) (n : N) (acc : text) : text :=
  match fuel with
  | O => acc
  | S fuel =>
    let acc := digit_char (n mod 10) :: acc in
    if (n <? 10)%N then acc else digits_of fuel (n / 10) acc
  end.

(** The decimal digits of [n]; it has no more digits than bits. *)
Definition decimal (n : N) : text := digits_of (S (N.to_nat (N.log2 n))) n [].

Definition print_int (z : Z) : text :=
  if (z <? 0)%Z then "-" :: decimal (Z.abs_N z) else decimal (Z.abs_N z).

(** The items with a comma between them, and one after the last item when
    [last] is set. *)
Fixpoint join (last : bool) (items : list text) : text :=
  match items with
  | [] => []
  | x :: rest =>
    x ++ match rest with
         | [] => if last then [","] else []
         | _ :: _ => "," :: join last rest
         end
  end.

(** The text of a value.  A float has none: the values of the round trip
    are maps, sequences, strings, integers, booleans and null. *)
Fixpoint print (sty : style) (v : value) : text :=
  match v with
  | VNull => str "null"
  | VBool b => if b then str "true" else str "false"
  | VInt z => print_int z
  | VFloat _ => []
  | VStr s => print_string (dq sty) s
  | VList l => "[" :: join (tc sty) (map (print sty) l) ++ ["]"]
  | VDict d =>
    "{" :: join (tc sty)
                (map (fun kv => print_key sty (fst kv) ++ ":" :: print sty (snd kv)) d)
        ++ ["}"]
  end.

(** A key that can be written bare: a letter or an underscore, then
    letters, digits and underscores. *)
Definition is_ident (k : text) : bool :=
  match k with
  | c :: r => (isalpha c || eqc c "_") && forallb ident_char r
  | [] => false
  end.

(** A well-formed data value: no float, and in every map the keys are
    identifiers and pairwise different. *)
Fixpoint wf (v : value) : bool :=
  match v with
  | VFloat _ => false
  | VList l => forallb wf l
  | VDict d =>
    forallb (fun kv => is_ident (fst kv) && wf (snd kv)) d && nodupb (map fst d)
  | _ => true
  end.

(** No string of the value holds a single quote. *)
Fixpoint no_apostrophe (v : value) : bool :=
  match v with
  | VStr s => forallb (fun c => negb (eqc c "'")) s
  | VList l => forallb no_apostrophe l
  | VDict d => forallb (fun kv => no_apostrophe (snd kv)) d
  | _ => true
  end.

(** The document of the round trip: the marker, then the literal inside
    its call wrapper, then whatever follows. *)
Definition document (marker : text) (v : value) (tail : text) : text :=
  marker ++ str " Object.freeze(" ++ print JS v ++ str ")" ++ tail.

Definition no_brace (t : text) : bool := forallb (fun c => negb (eqc c "{")) t.

Definition its : value :=
  VDict [(str "a", VStr (str "it's"))].

Definition demo_dict : list (text * value) :=
  [(str "days", VList [VDict
    [(str "date", VStr (str "Mon"));
     (str "events", VList
        [VDict [(str "id", VInt 101); (str "dateline", VInt 1700000000);
                (str "impactName", VStr (str "High"));
                (str "name", VStr (qstr "C`P\I{"));
                (str "flags", VList [VBool true; VNull; VInt (-3); VList []; VDict []])]])]])].

Definition demo_value : value := VDict demo_dict.

(** Inside a string whose quote is [q], with the escape flag [e]: the
    escape flag after the text [t], or [None] when the string ends in it. *)
Fixpoint instr (q : ascii) (e : bool) (t : text) : option bool :=
  match t with
  | [] => Some e
  | c :: t' =>
    if e then instr q false t'
    else if eqc c "\" then instr q true t'
    else if eqc c q then None
    else instr q false t'
  end.

(** The text is followed by nothing, or by what ends an item. *)
Definition term_start (rest : text) : bool :=
  match rest with
  | [] => true
  | c :: _ => eqc c "," || eqc c "]" || eqc c "}"
  end.

Definition fresh_5_10 : row :=
  [(str "event_id", VInt 5); (str "dateline_epoch", VInt 10);
   (str "actual", VStr (str "1.3")); (str "forecast", VNull)].

Definition stored_5_10_f : row :=
  [(str "event_id", VInt 5); (str "dateline_epoch", VInt 10);
   (str "actual", VNull); (str "forecast", VStr (str "1.0"))].

(** A tree with a day of four events: two share the pair (101, 1700000000)
    and one has no integer id. *)
Definition demo_tree : value :=
  VDict [(str "days", VList [VDict
    [(str "date", VStr (str "<b>Mon</b>"));
     (str "events", VList
        [VDict [(str "id", VInt 101); (str "dateline", VInt 1700000000);
                (str "impactName", VStr (str "High")); (str "name", VStr (str "CPI"))];
         VDict [(str "id", VStr (str "x")); (str "dateline", VInt 1700000000);
                (str "impactName", VInt 7)];
         VDict [(str "id", VInt 101); (str "dateline", VInt 1700000000);
                (str "name", VStr (str "later"))];
         VDict [(str "id", VInt 102); (str "dateline", VInt 1700000000)]])]])].

Definition demo_bkk (z : Z) : option text := Some (str "T").

(** A document whose marker holds a brace, and one where nothing follows
    such a marker. *)
Definition brace_marker : text := str "m{} =".
Definition brace_doc : text := qstr "m{} = {`a`: 1}".
Definition open_marker : text := str "m{".
Definition open_doc : text := str "m{".

(** The locator passes over the text [t] without ending the literal: at
    any depth above zero it goes on after [t] at the same depth. *)
Definition scan_skips (t : text) : Prop :=
  forall (d : Z) (k : nat) (rest : text) (q : option ascii),
    (0 < d)%Z ->
    scan_braces false false q d k (t ++ rest) =
    scan_braces false false None d (k + length t) rest.

(** A character of a written integer. *)
Definition int_char (c : ascii) : bool := Json.is_digit c || eqc c "-".

(** A character that the locator steps over outside a string. *)
Definition scan_inert (c : ascii) : bool :=
  negb (is_quote c) && negb (eqc c "{") && negb (eqc c "}").

(** *** The passes as functions on the text that is left to read *)

(** The text that [single_quotes_to_double] writes for [js], read in the
    state [in_d], [in_s], [esc]. *)
Definition sqd_text (in_d in_s esc : bool) (js : text) : text :=
  concat (sqd_loop in_d in_s esc [] js).

(** The same for [strip_object_freeze] and [remove_trailing_commas]. *)
Definition sof_text (in_str esc : bool) (quote : option ascii) (js : text)
  : text :=
  concat (sof_loop (length js) in_str esc quote [] js).

Definition rtc_text (in_str esc : bool) (quote : option ascii) (js : text)
  : text :=
  concat (rtc_loop in_str esc quote [] js).

(** A pass [T] writes [x'] for [x], whatever follows. *)
Definition maps (T : text -> text) (x x' : text) : Prop :=
  forall s, T (x ++ s) = x' ++ T s.

(** The first character of a written value or of a quoted key. *)
Definition istart (c : ascii) : bool :=
  int_char c || is_quote c || eqc c "n" || eqc c "t" || eqc c "f"
  || eqc c "[" || eqc c "{".

Definition item_start (t : text) : bool :=
  match t with
  | c :: _ => istart c
  | [] => false
  end.

(** The text starts with the end of a sequence or of a map. *)
Definition closer_start (t : text) : bool :=
  match t with
  | c :: _ => eqc c "]" || eqc c "}"
  | [] => false
  end.

(** The characters of [null], [true], [false] and of the integers. *)
Definition word_char (c : ascii) : bool :=
  int_char c || in_range 97 122 (code c).

Definition punct (c : ascii) : bool :=
  eqc c "[" || eqc c "]" || eqc c "{" || eqc c "}" || eqc c ":".

(** [quote_unquoted_keys] on the text that is left to read, with the
    output so far. *)
Definition quk_run (in_str esc : bool) (quote : option ascii)
           (out : list text) (js : text) : list text :=
  quk_loop (length js) in_str esc quote out js.

(** The previous emitted text is one after which a key can come. *)
Definition key_place (out : list text) : bool :=
  eqt (prev_nonspace out) (str "{") || eqt (prev_nonspace out) (str ",").

(** The test [js[m] == ":"] fails for the identifier that starts here. *)
Definition no_colon_ahead (s : text) : bool :=
  match dropwhile isspace (dropwhile ident_char s) with
  | c :: _ => negb (eqc c ":")
  | [] => true
  end.

(** The characters of a text, one by one, as the passes emit them. *)
Definition chars (t : text) : list text := map (fun c => [c]) t.

(** The pass emits [t'] while it reads [t], at any place; and at the place
    of a value, which a comma, a closing bracket or nothing follows. *)
Definition quk_copies (t t' : text) : Prop :=
  forall out s, exists ch,
      quk_run false false None out (t ++ s) =
      quk_run false false None (out ++ ch) s /\ concat ch = t'.

Definition quk_value (t t' : text) : Prop :=
  forall out s, term_start s = true ->
    exists ch,
      quk_run false false None out (t ++ s) =
      quk_run false false None (out ++ ch) s /\ concat ch = t'.

(** With the fuel [f] the decoder reads the normalised text of [v] back
    as [v], before anything that can follow a value. *)
Definition decodes (f : nat) (v : value) : Prop :=
  forall s, term_start s = true ->
            Json.scan_once f (print NORM v ++ s) = Some (v, s).

(** The text of a member of a map in the normalised text. *)
Definition member (kv : text * value) : text :=
  print_key NORM (fst kv) ++ ":" :: print NORM (snd kv).

(** What the induction on a value knows of each item. *)
Definition item_ok (v : value) : Prop :=
  wf v = true /\ (forall f, length (print NORM v) <= f -> decodes f v).

(** A character that the argument loop of [strip_object_freeze] copies
    and steps over: no quote and no parenthesis. *)
Definition sof_flat (c : ascii) : bool :=
  negb (is_quote c) && negb (eqc c "(") && negb (eqc c ")").

(** *** The consolidator, key by key *)

(** The identity pair of the record is [k]. *)
Definition key_is (k : key) (r : row) : bool :=
  match key_of r with
  | Some k' => eqkey k' k
  | None => false
  end.

(** The identity pairs of the records that have one, in order. *)
Definition keys_of (rows : list row) : list key :=
  flat_map (fun r => match key_of r with Some k => [k] | None => [] end) rows.

(** The pairs of a list, each at the place of its first occurrence. *)
Definition first_occurrences (ks : list key) : list key :=
  fold_left (fun acc k => if existsb (eqkey k) acc then acc else acc ++ [k])
            ks [].

(** What the first loop of [merge_events] leaves under [k]: the last
    stored record that has the pair. *)
Definition store_step (k : key) (acc : option row) (r : row) : option row :=
  if key_is k r then Some r else acc.

(** What the second loop makes of it: the first incoming record with the
    pair is taken as it is when nothing is stored, and every other one is
    merged into what is there. *)
Definition merge_step (k : key) (acc : option row) (r : row) : option row :=
  if key_is k r
  then Some (match acc with Some old => merge_row old r | None => r end)
  else acc.

Definition merged_for (k : key) (existing incoming : list row) : option row :=
  fold_left (merge_step k) incoming (fold_left (store_step k) existing None).

(** One run of the consolidation in [main]: merge, then sort. *)
Definition consolidate (existing incoming : list row) : list row :=
  sort_events_desc (merge_events existing incoming).

(** The merged record [m] has taken in the incoming record [r] already:
    every value that [r] provides is the value of [m]. *)
Definition absorbed (m r : row) : Prop :=
  forall f v, In (f, v) r -> provided v = true -> dict_find eqt m f = Some v.

(** Every incoming record that has an identity pair meets a stored record
    with the pair that has taken it in. *)
Definition absorbs (m : list (key * row)) (incoming : list row) : Prop :=
  forall r k, In r incoming -> key_of r = Some k ->
              exists old, dict_find eqkey m k = Some old /\ absorbed old r.

Definition stored_7_20 : row :=
  [(str "event_id", VInt 7); (str "dateline_epoch", VInt 20);
   (str "name", VStr (str "CPI"))].

(** *** The run *)

(** The columns of an emitted record, in the order of the dict literal of
    [main]. *)
Definition FIELDS : list text :=
  [str "day_label"; str "event_id"; str "dateline_epoch"; str "datetime_bkk";
   str "currency"; str "country"; str "impact"; str "impact_score";
   str "timeLabel"; str "name"; str "prefixedName"; str "actual";
   str "forecast"; str "previous"; str "revision"; str "url"; str "soloUrl"].

(** What the two loops of the flattener keep: the identity pairs of the
    rows are the pairs seen, each once, and every row has the columns. *)
Definition flat_inv (st : acc) : Prop :=
  map key_of (fst st) = map Some (snd st) /\ NoDup (snd st) /\
  Forall (fun r => map fst r = FIELDS) (fst st).

(** The records that a run of [main] stores, when it gets that far. *)
Definition main_rows (bkk_iso : Z -> option text) (fs : filesystem)
  : option (list row) :=
  match fs IN_HTML with
  | None => None
  | Some html =>
    match extract_object_literal html MARKER with
    | Raise _ => None
    | Ok js_obj =>
      match Json.loads (js_object_to_json_text js_obj) with
      | None => None
      | Some data =>
        match flatten bkk_iso data with
        | Raise _ => None
        | Ok rows =>
          Some (consolidate (load_existing_events fs OUT_EVENTS_JSON) rows)
        end
      end
    end
  end.

(** A snapshot with one day of two events, and nothing stored yet. *)
Definition demo_html : text :=
  str "<script>window.calendarComponentStates[1] = Object.freeze({days: [{date: '<b>Mon</b>', events: [{id: 7, dateline: 20, impactName: 'High', name: 'CPI',}, {id: 5, dateline: 10, actual: '1.3'},],},],});</script>".

Definition demo_fs : filesystem :=
  fun p => if eqt p IN_HTML then Some demo_html else None.

(** A stand-in for [json.dumps]: the compact JSON text of the list. *)
Definition demo_dumps (rows : list row) : text :=
  print NORM (VList (map VDict rows)).

Definition demo_text (rows : list row) : text := [].

(** *** The tabular mirror *)

(** What can follow a field in a line: nothing, or a comma and the rest. *)
Definition field_end (t : text) : Prop :=
  t = [] \/ exists t', t = ","%char :: t'.

(* ------------------------------------------------------------------ *)
(** ** The refresh merge, [merge_events] of [30_refresh_actuals.py] *)

Module Refresh.

(** The counters that [merge_events] returns beside the list. *)
Record stats : Type := Stats {
  matched : nat;
  added : nat;
  updated_any : nat;
  updated_actual : nat;
  newly_released : nat
}.

(** Fields worth refreshing. *)
Definition REFRESH_FIELDS : list text :=
  [str "actual"; str "forecast"; str "previous"; str "revision";
   str "impact"; str "impact_score"; str "timeLabel"; str "prefixedName";
   str "name"; str "url"; str "soloUrl"].

(** The record at index [i] is replaced by [b]: the list holds the dict
    that [before_map] refers to, so a write to the dict is a write to the
    list.  The records of the two lists are taken to be different
    objects, as they are when each list comes from a decoded file. *)
Fixpoint update_at (rows : list row) (i : nat) (b : row) : list row :=
  match rows, i with
  | [], _ => []
  | _ :: rs, O => b :: rs
  | r :: rs, S i' => r :: update_at rs i' b
  end.

Section Merge.

(** [int(x)] on a string and on a float, [None] when it raises: the
    grammar of integer literals and the rounding of doubles are those of
    the interpreter. *)
Variable int_of_str : text -> option Z.
Variable int_of_float : pyfloat -> option Z.

(** [x == y] where a float or two containers are compared: it depends on
    the double that a decimal stands for, and on the identity of the
    objects inside a container. *)
Variable float_eq : pyfloat -> pyfloat -> bool.
Variable float_eq_int : pyfloat -> Z -> bool.
Variable container_eq : value -> value -> bool.

(** [int(x)]; [None] when it raises. *)
Definition py_int (v : value) : option Z :=
  match v with
  | VInt z => Some z
  | VBool b => Some (if b then 1%Z else 0%Z)
  | VFloat f => int_of_float f
  | VStr s => int_of_str s
  | VNull => None
  | VList _ => None
  | VDict _ => None
  end.

(** [pk(e)]: every exception gives [None]. *)
Definition pk (e : row) : option key :=
  match dict_find eqt e (str "event_id") with
  | None => None
  | Some a =>
    match py_int a with
    | None => None
    | Some i =>
      match dict_find eqt e (str "dateline_epoch") with
      | None => None
      | Some b =>
        match py_int b with
        | None => None
        | Some ep => Some (i, ep)
        end
      end
    end
  end.

(** [a == b] on decoded values. *)
Definition py_eq (a b : value) : bool :=
  match a, b with
  | VNull, VNull => true
  | VStr x, VStr y => eqt x y
  | VFloat x, VFloat y => float_eq x y
  | VFloat x, VInt z => float_eq_int x z
  | VInt z, VFloat x => float_eq_int x z
  | VFloat x, VBool c => float_eq_int x (if c then 1%Z else 0%Z)
  | VBool c, VFloat x => float_eq_int x (if c then 1%Z else 0%Z)
  | VList _, VList _ => container_eq a b
  | VDict _, VDict _ => container_eq a b
  | _, _ =>
    match as_int a, as_int b with
    | Some x, Some y => (x =? y)%Z
    | _, _ => false
    end
  end.

(** The state of [for f in REFRESH_FIELDS]: the stored record [b], the flag
    [changed] and the counter [updated_actual]. *)
Definition refresh_field (a : row) (st : row * bool * nat) (f : text)
  : row * bool * nat :=
  let '(b, changed, upd) := st in
  if dict_mem eqt a f then
    let bv := get b f in
    let av := get a f in
    if negb (py_eq av bv) && negb (is_blank av && is_blank bv) then
      (dict_set eqt b f av, true,
       if eqt f (str "actual") then upd + 1 else upd)
    else st
  else st.

(** The first loop: [before_map[k] = e], the dict [e] being told by its
    index in [before]. *)
Definition index_before (st : list (key * nat) * nat) (e : row)
  : list (key * nat) * nat :=
  let '(before_map, i) := st in
  match pk e with
  | Some k => (dict_set eqkey before_map k i, S i)
  | None => (before_map, S i)
  end.

(** The body of [for a in after]. *)
Definition merge_after (st : list row * list (key * nat) * stats) (a : row)
  : list row * list (key * nat) * stats :=
  let '(before, before_map, s) := st in
  match pk a with
  | None => st
  | Some k =>
    match dict_find eqkey before_map k with
    | None =>
      (before ++ [a], dict_set eqkey before_map k (length before),
       Stats (matched s) (added s + 1) (updated_any s) (updated_actual s)
             (newly_released s))
    | Some i =>
      let b := nth i before [] in
      let b_actual_before := get b (str "actual") in
      let a_actual_after := get a (str "actual") in
      let '(b', changed, upd) :=
        fold_left (refresh_field a) REFRESH_FIELDS
                  (b, false, updated_actual s) in
      (update_at before i b', before_map,
       Stats (matched s + 1) (added s)
             (if changed then updated_any s + 1 else updated_any s)
             upd
             (if is_blank b_actual_before && negb (is_blank a_actual_after)
              then newly_released s + 1 else newly_released s))
    end
  end.

(** The key of the final sort, [None] when [int] raises. *)
Definition sort_key (r : row) : option (Z * Z) :=
  match py_int (get_default r (str "dateline_epoch") (VInt 0)) with
  | None => None
  | Some ep =>
    match py_int (get_default r (str "event_id") (VInt 0)) with
    | None => None
    | Some i => Some (ep, i)
    end
  end.

(** The keys of all the records, or [None] when one of them raises. *)
Fixpoint keyed_rows (rows : list row) : option (list (Z * Z * row)) :=
  match rows with
  | [] => Some []
  | r :: rs =>
    match sort_key r with
    | None => None
    | Some k =>
      match keyed_rows rs with
      | None => None
      | Some krs => Some ((k, r) :: krs)
      end
    end
  end.

(** [merge_events(before, after)]: the merged list and the counters, or
    [None] when the sort raises. *)
Definition merge_events (before after : list row)
  : option (list row * stats) :=
  let before_map := fst (fold_left index_before before ([], 0)) in
  let '(rows, _, s) :=
    fold_left merge_after after (before, before_map, Stats 0 0 0 0 0) in
  match keyed_rows rows with
  | None => None
  | Some krs => Some (map snd (sorted fst krs), s)
  end.

End Merge.

End Refresh.

(** *** Induction on values *)
Section ValueInd.
Variable P : value -> Prop.
Hypothesis Hnull : P VNull.
Hypothesis Hbool : forall b, P (VBool b).
Hypothesis Hint : forall z, P (VInt z).
Hypothesis Hfloat : forall f, P (VFloat f).
Hypothesis Hstr : forall s, P (VStr s).
Hypothesis Hlist : forall l, Forall P l -> P (VList l).
Hypothesis Hdict : forall d, Forall (fun kv => P (snd kv)) d -> P (VDict d).

Fixpoint value_induction (v : value) : P v :=
  match v with
  | VNull => Hnull
  | VBool b => Hbool b
  | VInt z => Hint z
  | VFloat f => Hfloat f
  | VStr s => Hstr s
  | VList l =>
    Hlist l ((fix go (l : list value) : Forall P l :=
                match l with
                | [] => Forall_nil _
                | x :: l' => Forall_cons x (value_induction x) (go l')
                end) l)
  | VDict d =>
    Hdict d ((fix go (d : list (text * value))
              : Forall (fun kv => P (snd kv)) d :=
                match d with
                | [] => Forall_nil _
                | kv :: d' => Forall_cons kv (value_induction (snd kv)) (go d')
                end) d)
  end.
End ValueInd.

(* ------------------------------------------------------------------ *)
(** * Properties *)

(** ** Equality tests *)

Lemma eqc_eq (a b : ascii) : eqc a b = true <-> a = b.
Proof. apply Ascii.eqb_eq. Qed.

Lemma eqc_refl (a : ascii) : eqc a a = true.
Proof. apply Ascii.eqb_refl. Qed.

Lemma eqt_eq (a b : text) : eqt a b = true <-> a = b.
Proof.
  revert b; induction a as [|x a IH]; destruct b as [|y b]; simpl;
    try (split; (discriminate || reflexivity)).
  rewrite andb_true_iff, eqc_eq, IH. split.
  - intros [-> ->]; reflexivity.
  - intros E; inversion E; auto.
Qed.

Lemma eqt_refl (a : text) : eqt a a = true.
Proof. apply eqt_eq; reflexivity. Qed.

Lemma eqt_neq (a b : text) : eqt a b = false <-> a <> b.
Proof.
  rewrite <- eqt_eq. destruct (eqt a b); split; congruence.
Qed.

Lemma eqkey_eq (a b : key) : eqkey a b = true <-> a = b.
Proof.
  destruct a as [a1 a2], b as [b1 b2]; unfold eqkey; simpl.
  rewrite andb_true_iff, !Z.eqb_eq. split.
  - intros [-> ->]; reflexivity.
  - intros E; inversion E; auto.
Qed.

Lemma eqkey_refl (a : key) : eqkey a a = true.
Proof. apply eqkey_eq; reflexivity. Qed.

(** ** Dictionaries *)

Section DictFacts.
Context {K V : Type} (eqk : K -> K -> bool).
Hypothesis eqk_eq : forall a b, eqk a b = true <-> a = b.

Lemma eqk_refl a : eqk a a = true.
Proof. apply eqk_eq; reflexivity. Qed.

Lemma eqk_false a b : a <> b -> eqk a b = false.
Proof.
  intros N. destruct (eqk a b) eqn:E; [|reflexivity].
  apply eqk_eq in E; contradiction.
Qed.

Lemma dict_find_set_same (d : list (K * V)) k v :
  dict_find eqk (dict_set eqk d k v) k = Some v.
Proof.
  induction d as [|[k' v'] d IH]; simpl.
  - now rewrite eqk_refl.
  - destruct (eqk k k') eqn:E; simpl; rewrite E; auto.
Qed.

Lemma dict_find_set_other (d : list (K * V)) k v k0 :
  k0 <> k -> dict_find eqk (dict_set eqk d k v) k0 = dict_find eqk d k0.
Proof.
  intros N. induction d as [|[k' v'] d IH]; simpl.
  - now rewrite (eqk_false k0 k N).
  - destruct (eqk k k') eqn:E; simpl.
    + apply eqk_eq in E; subst k'. now rewrite (eqk_false k0 k N).
    + rewrite IH; reflexivity.
Qed.

Lemma dict_find_none (d : list (K * V)) k :
  dict_find eqk d k = None <-> ~ In k (map fst d).
Proof.
  induction d as [|[k' v'] d IH]; simpl.
  - tauto.
  - destruct (eqk k k') eqn:E.
    + apply eqk_eq in E; subst. split; [discriminate | tauto].
    + rewrite IH. split.
      * intros H [H1 | H1]; [subst; rewrite eqk_refl in E; discriminate | tauto].
      * tauto.
Qed.

Lemma dict_find_in (d : list (K * V)) k v :
  dict_find eqk d k = Some v -> In (k, v) d.
Proof.
  induction d as [|[k' v'] d IH]; simpl; [discriminate|].
  destruct (eqk k k') eqn:E.
  - apply eqk_eq in E; subst. intros [= ->]; auto.
  - auto.
Qed.

Lemma dict_find_nodup (d : list (K * V)) k v :
  NoDup (map fst d) -> In (k, v) d -> dict_find eqk d k = Some v.
Proof.
  induction d as [|[k' v'] d IH]; simpl; [tauto|].
  intros ND [E | I]; inversion ND; subst.
  - inversion E; subst. now rewrite eqk_refl.
  - destruct (eqk k k') eqn:E.
    + apply eqk_eq in E; subst. exfalso. apply H1.
      change k' with (fst (k', v)). now apply in_map.
    + auto.
Qed.

(** The keys after [d[k] = v]: unchanged for a present key, and one more,
    last, for a new key. *)
Lemma dict_set_keys (d : list (K * V)) k v :
  map fst (dict_set eqk d k v) =
  if dict_mem eqk d k then map fst d else map fst d ++ [k].
Proof.
  unfold dict_mem. induction d as [|[k' v'] d IH]; simpl; [reflexivity|].
  destruct (eqk k k') eqn:E; simpl; [reflexivity|].
  rewrite IH. destruct (dict_find eqk d k); reflexivity.
Qed.

Lemma dict_set_nodup (d : list (K * V)) k v :
  NoDup (map fst d) -> NoDup (map fst (dict_set eqk d k v)).
Proof.
  intros ND. rewrite dict_set_keys. unfold dict_mem.
  destruct (dict_find eqk d k) eqn:F; [assumption|].
  apply dict_find_none in F.
  apply NoDup_app; [assumption | repeat constructor; simpl; tauto |].
  simpl. intros x I [<- | []]. contradiction.
Qed.

Lemma dict_set_in (d : list (K * V)) k v k0 v0 :
  In (k0, v0) (dict_set eqk d k v) -> (k0, v0) = (k, v) \/ In (k0, v0) d.
Proof.
  induction d as [|[k' v'] d IH]; simpl.
  - intros [E | []]; auto.
  - destruct (eqk k k') eqn:E; simpl.
    + apply eqk_eq in E; subst. intros [E' | I]; auto.
    + intros [E' | I]; auto. destruct (IH I); auto.
Qed.
End DictFacts.

(** ** The field-by-field merge *)

Lemma merge_field_other (m : row) (item : text * value) (f : text) :
  f <> fst item ->
  dict_find eqt (merge_field m item) f = dict_find eqt m f.
Proof.
  destruct item as [g v]; simpl. intros N.
  destruct (eqt g (str "actual")); [reflexivity|].
  destruct (provided v); [|reflexivity].
  now apply dict_find_set_other; [apply eqt_eq|].
Qed.

Lemma fold_merge_field_notin (items m : row) (f : text) :
  ~ In f (map fst items) ->
  dict_find eqt (fold_left merge_field items m) f = dict_find eqt m f.
Proof.
  revert m. induction items as [|it items IH]; simpl; intros m N; [reflexivity|].
  rewrite IH by tauto. apply merge_field_other. intros E; apply N; auto.
Qed.

Lemma fold_merge_field_in (items m : row) (f : text) (v : value) :
  NoDup (map fst items) -> In (f, v) items ->
  dict_find eqt (fold_left merge_field items m) f =
  if eqt f (str "actual") then dict_find eqt m f
  else if provided v then Some v else dict_find eqt m f.
Proof.
  revert m. induction items as [|[g w] items IH]; simpl; intros m ND I; [tauto|].
  inversion ND as [|? ? NI ND']; subst.
  destruct I as [E | I].
  - inversion E; subst g w. rewrite fold_merge_field_notin by assumption.
    destruct (eqt f (str "actual")); [reflexivity|].
    destruct (provided v); [|reflexivity].
    apply dict_find_set_same, eqt_eq.
  - rewrite (IH _ ND' I).
    assert (N : f <> g).
    { intros ->. apply NI. change g with (fst (g, v)). now apply in_map. }
    change (if eqt g (str "actual") then m
            else if provided w then dict_set eqt m g w else m)
      with (merge_field m (g, w)).
    rewrite (merge_field_other m (g, w) f N). reflexivity.
Qed.

Lemma merge_row_field (old r : row) (f : text) :
  wf_row r -> dict_find eqt (merge_row old r) f = taken old r f.
Proof.
  intros WF. unfold merge_row, taken, get.
  set (m := if provided _ then dict_set eqt old _ _ else old).
  assert (Hm : forall g, g <> str "actual" -> dict_find eqt m g = dict_find eqt old g).
  { intros g N. unfold m. destruct (provided _); [|reflexivity].
    now apply dict_find_set_other; [apply eqt_eq|]. }
  destruct (dict_find eqt r f) as [v|] eqn:F.
  - rewrite (fold_merge_field_in r m f v WF (dict_find_in eqt eqt_eq r f v F)).
    destruct (eqt f (str "actual")) eqn:A.
    + apply eqt_eq in A; subst f. unfold m. rewrite F.
      destruct (provided v); [|reflexivity].
      apply dict_find_set_same, eqt_eq.
    + apply eqt_neq in A. rewrite (Hm f A). reflexivity.
  - rewrite fold_merge_field_notin by (now apply (dict_find_none eqt eqt_eq)).
    destruct (eqt f (str "actual")) eqn:A.
    + apply eqt_eq in A; subst f. unfold m. rewrite F. reflexivity.
    + apply eqt_neq in A. apply Hm, A.
Qed.

Lemma as_int_provided (v : value) (z : Z) : as_int v = Some z -> provided v = true.
Proof. destruct v; simpl; try discriminate; reflexivity. Qed.

Lemma get_merge_row_int (old r : row) (f : text) (z : Z) :
  wf_row r -> as_int (get r f) = Some z -> get (merge_row old r) f = get r f.
Proof.
  intros WF H. unfold get in *. rewrite (merge_row_field old r f WF). unfold taken.
  destruct (dict_find eqt r f) as [v|]; [|discriminate].
  now rewrite (as_int_provided v z H).
Qed.

Lemma key_of_merge_row (old r : row) (k : key) :
  wf_row r -> key_of r = Some k -> key_of (merge_row old r) = Some k.
Proof.
  intros WF. unfold key_of.
  destruct (as_int (get r (str "event_id"))) as [i|] eqn:I; [|discriminate].
  destruct (as_int (get r (str "dateline_epoch"))) as [e|] eqn:E; [|discriminate].
  rewrite (get_merge_row_int old r _ i WF I), (get_merge_row_int old r _ e WF E).
  now rewrite I, E.
Qed.

(** ** The invariant of the dictionary [merged] *)
Lemma keyed_set (m : list (key * row)) (k : key) (r : row) :
  keyed m -> key_of r = Some k -> keyed (dict_set eqkey m k r).
Proof.
  intros [ND F] H. split.
  - now apply dict_set_nodup; [apply eqkey_eq|].
  - apply Forall_forall. intros [k0 r0] I.
    destruct (dict_set_in eqkey eqkey_eq m k r k0 r0 I) as [E | I'].
    + inversion E; subst; exact H.
    + exact (proj1 (Forall_forall _ _) F _ I').
Qed.

Lemma add_existing_keyed (m : list (key * row)) (r : row) :
  keyed m -> keyed (add_existing m r).
Proof.
  intros Hm. unfold add_existing. destruct (key_of r) eqn:E; [|assumption].
  now apply keyed_set.
Qed.

Lemma add_incoming_keyed (m : list (key * row)) (r : row) :
  wf_row r -> keyed m -> keyed (add_incoming m r).
Proof.
  intros WF Hm. unfold add_incoming. destruct (key_of r) eqn:E; [|assumption].
  destruct (dict_find eqkey m k); apply keyed_set; auto.
  now apply key_of_merge_row.
Qed.

Lemma fold_add_existing_keyed (l : list row) (m : list (key * row)) :
  keyed m -> keyed (fold_left add_existing l m).
Proof.
  revert m; induction l; simpl; intros; auto using add_existing_keyed.
Qed.

Lemma fold_add_incoming_keyed (l : list row) (m : list (key * row)) :
  Forall wf_row l -> keyed m -> keyed (fold_left add_incoming l m).
Proof.
  revert m; induction l; simpl; intros m F Hm; auto.
  inversion F; subst. auto using add_incoming_keyed.
Qed.

Lemma keyed_keys (m : list (key * row)) :
  keyed m -> map key_of (map snd m) = map Some (map fst m).
Proof.
  intros [_ F]. induction F as [|[k r] m H F IH]; simpl; [reflexivity|].
  simpl in H. now rewrite H, IH.
Qed.

Lemma NoDup_map_Some {A} (l : list A) : NoDup l -> NoDup (map Some l).
Proof.
  induction 1 as [|x l N ND IH]; simpl; constructor; [|assumption].
  intros I. apply in_map_iff in I. destruct I as [y [E I]].
  inversion E; subst; contradiction.
Qed.

Lemma merged_keyed (existing incoming : list row) :
  Forall wf_row incoming ->
  keyed (fold_left add_incoming incoming (fold_left add_existing existing [])).
Proof.
  intros F. apply fold_add_incoming_keyed; [assumption|].
  apply fold_add_existing_keyed. split; constructor.
Qed.

(** The identity pairs of the returned records are pairwise different. *)
Lemma merge_events_keys_nodup (existing incoming : list row) :
  Forall wf_row incoming ->
  NoDup (map key_of (merge_events existing incoming)).
Proof.
  intros WF. pose proof (merged_keyed existing incoming WF) as Hk.
  unfold merge_events. rewrite (keyed_keys _ Hk). apply NoDup_map_Some, Hk.
Qed.

(** C9. Whatever the two lists hold, every record that [merge_events]
    returns has an integer [event_id] and an integer [dateline_epoch] (in
    the sense of the code's [isinstance], which takes a [bool] for an
    [int]), and the identity pairs of the returned records are pairwise
    different; so a stored record without such a pair is not returned. *)
Theorem merge_events_store_invariant (existing incoming : list row) :
  Forall wf_row incoming ->
  Forall (fun r => isinstance_int (get r (str "event_id")) = true /\
                   isinstance_int (get r (str "dateline_epoch")) = true)
         (merge_events existing incoming) /\
  NoDup (map key_of (merge_events existing incoming)) /\
  Forall (fun r => key_of r = None -> ~ In r (merge_events existing incoming))
         existing.
Proof.
  intros WF. pose proof (merged_keyed existing incoming WF) as Hk.
  pose proof (merge_events_keys_nodup existing incoming WF) as ND.
  unfold merge_events in *.
  set (m := fold_left add_incoming incoming _) in *.
  assert (A : Forall (fun r => exists k, key_of r = Some k) (map snd m)).
  { destruct Hk as [_ F]. apply Forall_forall. intros r I.
    apply in_map_iff in I. destruct I as [[k r'] [<- I]].
    exists k. exact (proj1 (Forall_forall _ _) F _ I). }
  split; [|split].
  - apply Forall_forall. intros r I.
    destruct (proj1 (Forall_forall _ _) A r I) as [k H].
    unfold key_of, isinstance_int in *.
    destruct (as_int (get r (str "event_id"))); [|discriminate].
    destruct (as_int (get r (str "dateline_epoch"))); [|discriminate]. auto.
  - exact ND.
  - apply Forall_forall. intros r _ N I.
    destruct (proj1 (Forall_forall _ _) A r I) as [k H]. congruence.
Qed.

(** ** The stored record that an incoming record meets *)

Lemma add_existing_find_other (m : list (key * row)) (r : row) (k : key) :
  key_of r <> Some k ->
  dict_find eqkey (add_existing m r) k = dict_find eqkey m k.
Proof.
  intros N. unfold add_existing. destruct (key_of r) as [k'|]; [|reflexivity].
  apply dict_find_set_other; [apply eqkey_eq | congruence].
Qed.

Lemma fold_add_existing_find (post : list row) (m : list (key * row)) (k : key) :
  Forall (fun x => key_of x <> Some k) post ->
  dict_find eqkey (fold_left add_existing post m) k = dict_find eqkey m k.
Proof.
  revert m. induction post as [|x post IH]; simpl; intros m F; [reflexivity|].
  inversion F; subst. rewrite IH by assumption.
  now apply add_existing_find_other.
Qed.

(** The record filed under [k] after the first loop is the last record of
    [existing] that has the identity pair [k]. *)
Lemma stored_last (pre post : list row) (old : row) (k : key) :
  key_of old = Some k ->
  Forall (fun x => key_of x <> Some k) post ->
  dict_find eqkey (fold_left add_existing (pre ++ old :: post) []) k = Some old.
Proof.
  intros H F. rewrite fold_left_app. simpl.
  rewrite fold_add_existing_find by assumption.
  unfold add_existing. rewrite H. apply dict_find_set_same, eqkey_eq.
Qed.

Lemma NoDup_map_inj {A B} (g : A -> B) (l : list A) (a b : A) :
  NoDup (map g l) -> In a l -> In b l -> g a = g b -> a = b.
Proof.
  induction l as [|x l IH]; simpl; [tauto|].
  intros ND Ia Ib E. inversion ND as [|? ? NI ND']; subst.
  destruct Ia as [-> | Ia], Ib as [-> | Ib]; auto.
  - exfalso. apply NI. rewrite E. now apply in_map.
  - exfalso. apply NI. rewrite <- E. now apply in_map.
Qed.

Lemma provided_false (v : value) :
  provided v = false <-> v = VNull \/ v = VStr [].
Proof.
  destruct v as [| | | |s| |]; simpl; try (split; [discriminate | intros [H|H]; discriminate]).
  - split; auto.
  - destruct s; split; auto; try discriminate.
    intros [H|H]; discriminate.
Qed.

(** C4, as stated, fails: an incoming [actual] that is one space is blank
    (a whitespace-only string), the stored [actual] is not, and the merge
    replaces the stored value by the space. *)
Lemma merge_events_whitespace_overwrites :
  key_of stored_5_10 = key_of incoming_5_10 /\
  is_blank (get incoming_5_10 (str "actual")) = true /\
  is_blank (get stored_5_10 (str "actual")) = false /\
  merge_events [stored_5_10] [incoming_5_10] = [incoming_5_10] /\
  get incoming_5_10 (str "actual") <> get stored_5_10 (str "actual").
Proof.
  repeat split; try reflexivity. vm_compute. discriminate.
Qed.

(** C4, amended. When an incoming record [r] has the identity pair of a
    stored record [old], the store after the merge has exactly one record
    with that pair, and each of its fields is: the incoming value, when the
    field is present in [r] with a value that is neither [None] nor the
    empty string (a whitespace-only string is taken like any other value);
    and the value of [old] (or no value, if [old] has none), when the field
    is absent from [r] or is [None] or the empty string there. *)
Theorem merge_events_field_policy
        (pre post : list row) (old r : row) (k : key) :
  key_of old = Some k ->
  Forall (fun x => key_of x <> Some k) post ->
  key_of r = Some k ->
  wf_row r ->
  exists m,
    In m (merge_events (pre ++ old :: post) [r]) /\
    key_of m = Some k /\
    (forall m', In m' (merge_events (pre ++ old :: post) [r]) ->
                key_of m' = Some k -> m' = m) /\
    (forall f v, dict_find eqt r f = Some v -> v <> VNull -> v <> VStr [] ->
                 dict_find eqt m f = Some v) /\
    (forall f, dict_find eqt r f = None \/ dict_find eqt r f = Some VNull \/
               dict_find eqt r f = Some (VStr []) ->
               dict_find eqt m f = dict_find eqt old f).
Proof.
  intros Hold Hpost Hr WF.
  assert (ND : NoDup (map key_of (merge_events (pre ++ old :: post) [r])))
    by (apply merge_events_keys_nodup; repeat constructor; assumption).
  unfold merge_events in *. simpl fold_left in *.
  set (E := fold_left add_existing (pre ++ old :: post) []) in *.
  assert (S : dict_find eqkey E k = Some old) by now apply stored_last.
  unfold add_incoming in *. rewrite Hr, S in *.
  exists (merge_row old r). split; [|split; [|split; [|split]]].
  - apply in_map_iff. exists (k, merge_row old r). split; [reflexivity|].
    apply (dict_find_in eqkey eqkey_eq), dict_find_set_same, eqkey_eq.
  - now apply key_of_merge_row.
  - intros m' I Hm'. apply (NoDup_map_inj key_of _ _ _ ND I).
    + apply in_map_iff. exists (k, merge_row old r). split; [reflexivity|].
      apply (dict_find_in eqkey eqkey_eq), dict_find_set_same, eqkey_eq.
    + rewrite Hm'. symmetry. now apply key_of_merge_row.
  - intros f v F N1 N2. rewrite merge_row_field by assumption.
    unfold taken. rewrite F.
    destruct (provided v) eqn:P; [reflexivity|].
    apply provided_false in P. tauto.
  - intros f H. rewrite merge_row_field by assumption. unfold taken.
    destruct H as [-> | [-> | ->]]; reflexivity.
Qed.

(** ** Sorting *)

Section SortFacts.
Context {A : Type} (keyf : A -> Z * Z).

Lemma pair_leb_total (x y : Z * Z) : pair_leb x y = false -> pair_leb y x = true.
Proof.
  unfold pair_leb. destruct x as [x1 x2], y as [y1 y2]; simpl.
  rewrite orb_false_iff, andb_false_iff, orb_true_iff, andb_true_iff.
  rewrite !Z.ltb_lt, !Z.ltb_ge, !Z.eqb_eq, Z.eqb_neq, Z.leb_le, Z.leb_gt. lia.
Qed.

Lemma pair_leb_trans (x y z : Z * Z) :
  pair_leb x y = true -> pair_leb y z = true -> pair_leb x z = true.
Proof.
  unfold pair_leb. destruct x as [x1 x2], y as [y1 y2], z as [z1 z2]; simpl.
  rewrite !orb_true_iff, !andb_true_iff, !Z.ltb_lt, !Z.eqb_eq, !Z.leb_le. lia.
Qed.

Lemma insert_by_perm (x : A) (l : list A) :
  Permutation (x :: l) (insert_by keyf x l).
Proof.
  induction l as [|y l IH]; simpl; [reflexivity|].
  destruct (pair_leb (keyf x) (keyf y)); [reflexivity|].
  rewrite perm_swap. now constructor.
Qed.

Lemma sorted_perm (l : list A) : Permutation l (sorted keyf l).
Proof.
  induction l as [|x l IH]; simpl; [constructor|].
  rewrite <- insert_by_perm. now constructor.
Qed.

Lemma insert_by_sorted (x : A) (l : list A) :
  StronglySorted (key_le keyf) l -> StronglySorted (key_le keyf) (insert_by keyf x l).
Proof.
  induction 1 as [|y l S IH F]; simpl.
  - repeat constructor.
  - destruct (pair_leb (keyf x) (keyf y)) eqn:E.
    + constructor; [now constructor|]. constructor; [exact E|].
      eapply Forall_impl; [|exact F]. intros z Hz.
      exact (pair_leb_trans _ _ _ E Hz).
    + constructor; [assumption|].
      apply (Permutation_Forall (insert_by_perm x l)).
      constructor; [|assumption]. now apply pair_leb_total.
Qed.

Lemma sorted_sorted (l : list A) : StronglySorted (key_le keyf) (sorted keyf l).
Proof.
  induction l as [|x l IH]; simpl; [constructor|]. now apply insert_by_sorted.
Qed.
End SortFacts.

Lemma key_le_desc (a b : row) : key_le sort_key a b <-> desc a b.
Proof.
  unfold key_le, desc, pair_leb, sort_key, epoch_val, event_val; simpl.
  rewrite orb_true_iff, andb_true_iff, Z.ltb_lt, Z.eqb_eq, Z.leb_le. lia.
Qed.

(** C5, as stated, fails: a record without epoch is sorted before a record
    whose epoch is [-5], so it is not last. *)
Lemma sort_events_desc_missing_not_last :
  as_int (get row_no_epoch (str "dateline_epoch")) = None /\
  as_int (get row_epoch_m5 (str "dateline_epoch")) = Some (-5)%Z /\
  sort_events_desc [row_epoch_m5; row_no_epoch] = [row_no_epoch; row_epoch_m5].
Proof. repeat split. Qed.

(** C5, amended. The list that [sort_events_desc] returns holds the same
    records, ordered by epoch descending and then by event_id descending,
    where a missing or non-integer epoch or event_id counts as [-1] (so
    such a record comes after every record whose value is 0 or more, and
    before the records whose value is below [-1]); this holds in
    particular for the store returned after a merge. *)
Theorem sort_events_desc_sorted (rows existing incoming : list row) :
  Permutation rows (sort_events_desc rows) /\
  StronglySorted desc (sort_events_desc rows) /\
  StronglySorted desc (sort_events_desc (merge_events existing incoming)).
Proof.
  assert (S : forall l, StronglySorted desc (sort_events_desc l)).
  { intros l. pose proof (sorted_sorted sort_key l) as H.
    unfold sort_events_desc. induction H; constructor; auto.
    eapply Forall_impl; [|eassumption]. intros b. apply key_le_desc. }
  split; [apply sorted_perm | split; apply S].
Qed.

(** ** Loading the stored records *)



(** ** Impact scoring *)

Lemma impact_score_of_exact (label : text) :
  exact_score label (impact_score_of label).
Proof.
  unfold exact_score, impact_score_of, IMPACT_SCORE. simpl.
  destruct (eqt label (str "high")) eqn:H.
  { apply eqt_eq in H. auto. }
  destruct (eqt label (str "medium")) eqn:M.
  { apply eqt_eq in M. auto. }
  destruct (eqt label (str "low")) eqn:L.
  { apply eqt_eq in L. auto 6. }
  apply eqt_neq in H, M, L. auto 8.
Qed.

(** The label that is scored is the lower-cased, stripped text of
    [impactName], and the empty text when the event has none. *)
Lemma impact_label_examples :
  impact_label (VStr (str " High ")) = Ok (str "high") /\
  impact_label VNull = Ok [] /\
  impact_score_of [] = 0%Z /\
  impact_score_of (str "high-impact") = 0%Z /\
  GodProject.impact_score (Some (str "high-impact")) = Some 3%Z.
Proof. repeat split. Qed.

(** C8. The record that the flattener emits for an event holds, as
    [impact], the lower-cased and stripped label of the event (the empty
    text when the event has none) and, as [impact_score], the exact table
    entry of that label: 3 for "high", 2 for "medium", 1 for "low" and 0
    for any other label. *)
Theorem impact_score_exact_lookup
        (bkk : Z -> option text) (day_label : text)
        (rows rows' : list row) (seen seen' : list key) (ev : row) :
  flatten_event bkk day_label (rows, seen) (VDict ev) = Ok (rows', seen') ->
  rows' = rows \/
  exists r label n,
    rows' = rows ++ [r] /\
    impact_label (get ev (str "impactName")) = Ok label /\
    get r (str "impact") = VStr label /\
    get r (str "impact_score") = VInt n /\
    exact_score label n.
Proof.
  unfold flatten_event. simpl.
  destruct (as_int (get ev (str "id"))) as [i|]; [|intros [= <- <-]; auto].
  destruct (as_int (get ev (str "dateline"))) as [e|]; [|intros [= <- <-]; auto].
  destruct (existsb _ seen); [intros [= <- <-]; auto|].
  destruct (impact_label _) as [label|] eqn:L; simpl; [|discriminate].
  destruct (parse_epoch_to_bkk_iso bkk e) as [dt|]; simpl; [|discriminate].
  intros [= <- <-]. right.
  eexists _, label, (impact_score_of label).
  split; [reflexivity|]. split; [reflexivity|].
  split; [reflexivity|]. split; [reflexivity|].
  apply impact_score_of_exact.
Qed.

Lemma impact_score_exact_lookup_witness :
  [event_row (str "Mon") event_high (VInt 101) (VInt 1700000000) (str "T")
             (str "high") 3] = [] \/
  exists r label n,
    [event_row (str "Mon") event_high (VInt 101) (VInt 1700000000) (str "T")
               (str "high") 3] = [] ++ [r] /\
    impact_label (get event_high (str "impactName")) = Ok label /\
    get r (str "impact") = VStr label /\
    get r (str "impact_score") = VInt n /\
    exact_score label n.
Proof.
  apply (impact_score_exact_lookup (fun _ => Some (str "T")) (str "Mon")
           [] _ [] [(101, 1700000000)%Z] event_high).
  reflexivity.
Defined.

(** ** The flattener *)

Section FlattenFacts.
Variable bkk : Z -> option text.

Lemma flatten_event_dict (l : text) (rows : list row) (seen : list key)
      (ev : row) :
  flatten_event bkk l (rows, seen) (VDict ev) =
  match event_key ev with
  | None => Ok (rows, seen)
  | Some k =>
    if existsb (eqkey k) seen then Ok (rows, seen)
    else r <- record_of bkk (l, ev) ;; Ok (rows ++ [r], seen ++ [k])
  end.
Proof.
  unfold flatten_event, event_key, record_of. simpl.
  destruct (as_int (get ev (str "id"))) as [i|]; [|reflexivity].
  destruct (as_int (get ev (str "dateline"))) as [e|]; [|reflexivity].
  destruct (existsb _ seen); [reflexivity|].
  destruct (impact_label _) as [label|]; simpl; [|reflexivity].
  destruct (parse_epoch_to_bkk_iso bkk e); reflexivity.
Qed.

Lemma for_each_events (l : text) (evs : list row) :
  forall rows seen,
    for_each (flatten_event bkk l) (rows, seen) (map VDict evs) =
    new <- mapM (record_of bkk) (firsts_k seen (map (pair l) evs)) ;;
    Ok (rows ++ new,
        seen ++ picked_keys (firsts_k seen (map (pair l) evs))).
Proof.
  induction evs as [|ev evs IH]; intros rows seen.
  - simpl. now rewrite !app_nil_r.
  - cbn [map for_each firsts_k]. rewrite flatten_event_dict.
    destruct (event_key ev) as [k|] eqn:K; [|apply IH].
    destruct (existsb (eqkey k) seen); [apply IH|].
    cbn [mapM]. destruct (record_of bkk (l, ev)) as [r|e]; [|reflexivity].
    cbn [bind]. rewrite IH.
    destruct (mapM _ _) as [new|e]; [|reflexivity].
    cbn [bind picked_keys flat_map snd]. rewrite K.
    now rewrite <- !app_assoc.
Qed.

Lemma mapM_as_dict (events : list value) (evs : list row) :
  mapM as_dict events = Ok evs -> events = map VDict evs.
Proof.
  revert evs. induction events as [|v events IH]; simpl; intros evs H.
  - now inversion H.
  - destruct v; try discriminate. simpl in H.
    destruct (mapM as_dict events) as [evs'|]; [|discriminate].
    inversion H; subst. simpl. now rewrite (IH evs').
Qed.

Lemma for_each_events_raise (l : text) (events : list value) (e : exn) :
  mapM as_dict events = Raise e ->
  forall st, exists e', for_each (flatten_event bkk l) st events = Raise e'.
Proof.
  induction events as [|v events IH]; simpl; [discriminate|].
  intros H [rows seen]. destruct (as_dict v) as [d|e0] eqn:D.
  - destruct v; try discriminate. inversion D; subst d. simpl in H.
    destruct (flatten_event bkk l (rows, seen) (VDict _)) as [st'|e1].
    + simpl. apply IH. destruct (mapM as_dict events); [discriminate|].
      now inversion H.
    + simpl. eauto.
  - exists e0. unfold flatten_event. rewrite D. reflexivity.
Qed.

Lemma firsts_k_app (a b : list (text * row)) :
  forall seen,
    firsts_k seen (a ++ b) =
    firsts_k seen a ++ firsts_k (seen ++ picked_keys (firsts_k seen a)) b.
Proof.
  induction a as [|[l ev] a IH]; intros seen; simpl.
  - now rewrite app_nil_r.
  - destruct (event_key ev) as [k|] eqn:K; [|apply IH].
    destruct (existsb (eqkey k) seen); [apply IH|].
    simpl. rewrite K, IH. now rewrite <- app_assoc.
Qed.

Lemma picked_keys_app (a b : list (text * row)) :
  picked_keys (a ++ b) = picked_keys a ++ picked_keys b.
Proof. apply flat_map_app. Qed.

Lemma mapM_app {A B} (f : A -> result B) (a b : list A) :
  mapM f (a ++ b) = x <- mapM f a ;; y <- mapM f b ;; Ok (x ++ y).
Proof.
  induction a as [|u a IH]; simpl.
  - destruct (mapM f b); reflexivity.
  - destruct (f u); [|reflexivity]. simpl. rewrite IH.
    destruct (mapM f a); [|reflexivity]. simpl.
    destruct (mapM f b); reflexivity.
Qed.

Lemma flatten_day_events (dayv : value) (ds : list (text * row))
      (rows : list row) (seen : list key) :
  day_events dayv = Ok ds ->
  flatten_day bkk (rows, seen) dayv =
  new <- mapM (record_of bkk) (firsts_k seen ds) ;;
  Ok (rows ++ new, seen ++ picked_keys (firsts_k seen ds)).
Proof.
  unfold day_events, flatten_day.
  destruct (as_dict dayv) as [day|]; [|discriminate]. simpl.
  destruct (strip_html_tags _) as [label|]; [|discriminate]. simpl.
  destruct (iterate _) as [events|]; [|discriminate]. simpl.
  destruct (mapM as_dict events) as [evs|] eqn:M; [|discriminate]. simpl.
  intros [= <-]. rewrite (mapM_as_dict _ _ M). apply for_each_events.
Qed.

Lemma flatten_day_raise (dayv : value) (e : exn) :
  day_events dayv = Raise e ->
  forall st, exists e', flatten_day bkk st dayv = Raise e'.
Proof.
  unfold day_events, flatten_day. intros H st.
  destruct (as_dict dayv) as [day|]; [|simpl; eauto]. simpl in *.
  destruct (strip_html_tags _) as [label|]; [|simpl; eauto]. simpl in *.
  destruct (iterate _) as [events|]; [|simpl; eauto]. simpl in *.
  destruct (mapM as_dict events) as [evs|e0] eqn:M; [discriminate|].
  apply (for_each_events_raise label events e0 M).
Qed.

Lemma for_each_days (days : list value) :
  forall dss rows seen,
    mapM day_events days = Ok dss ->
    for_each (flatten_day bkk) (rows, seen) days =
    new <- mapM (record_of bkk) (firsts_k seen (concat dss)) ;;
    Ok (rows ++ new, seen ++ picked_keys (firsts_k seen (concat dss))).
Proof.
  induction days as [|d days IH]; intros dss rows seen; simpl.
  - intros [= <-]. simpl. now rewrite !app_nil_r.
  - destruct (day_events d) as [ds|] eqn:D; [|discriminate]. simpl.
    destruct (mapM day_events days) as [dss'|] eqn:M; [|discriminate]. simpl.
    intros [= <-]. rewrite (flatten_day_events d ds rows seen D).
    simpl concat. rewrite firsts_k_app, mapM_app, picked_keys_app.
    destruct (mapM (record_of bkk) (firsts_k seen ds)) as [new1|]; [|reflexivity].
    simpl. rewrite (IH dss' _ _ eq_refl).
    destruct (mapM (record_of bkk) _) as [new2|]; [|reflexivity]. simpl.
    now rewrite <- !app_assoc.
Qed.

Lemma for_each_days_raise (days : list value) (e : exn) :
  mapM day_events days = Raise e ->
  forall st, exists e', for_each (flatten_day bkk) st days = Raise e'.
Proof.
  induction days as [|d days IH]; simpl; [discriminate|].
  intros H st. destruct (day_events d) as [ds|e0] eqn:D.
  - simpl in H. destruct st as [rows seen].
    rewrite (flatten_day_events d ds rows seen D).
    destruct (mapM (record_of bkk) _) as [new|e1]; simpl; [|eauto].
    apply IH. destruct (mapM day_events days); [discriminate|].
    now inversion H.
  - destruct (flatten_day_raise d e0 D st) as [e' ->]. simpl. eauto.
Qed.

Lemma has_key_some (k0 k : key) (ev : row) :
  event_key ev = Some k -> has_key k0 ev = eqkey k0 k.
Proof. unfold has_key. now intros ->. Qed.

Lemma has_key_none (k0 : key) (ev : row) :
  event_key ev = None -> has_key k0 ev = false.
Proof. unfold has_key. now intros ->. Qed.

Lemma firsts_k_firsts (evs : list (text * row)) :
  forall seen before,
    (forall k, existsb (eqkey k) seen = existsb (has_key k) before) ->
    firsts_k seen evs = firsts before evs.
Proof.
  induction evs as [|[l ev] evs IH]; intros seen before H; simpl; [reflexivity|].
  destruct (event_key ev) as [k|] eqn:K.
  - rewrite <- H.
    assert (H' : forall k0, existsb (eqkey k0) (seen ++ [k]) =
                            existsb (has_key k0) (before ++ [ev])).
    { intros k0. rewrite !existsb_app, H. simpl.
      now rewrite (has_key_some k0 k ev K). }
    destruct (existsb (eqkey k) seen) eqn:S.
    + apply IH. intros k0. rewrite existsb_app, <- H. simpl.
      rewrite (has_key_some k0 k ev K).
      destruct (eqkey k0 k) eqn:E; [|now rewrite !orb_false_r].
      apply eqkey_eq in E; subst k0. now rewrite S.
    + f_equal. now apply IH.
  - apply IH. intros k0. rewrite existsb_app, H. simpl.
    rewrite (has_key_none k0 ev K). now rewrite !orb_false_r.
Qed.

Lemma firsts_k_nodup (evs : list (text * row)) :
  forall seen, NoDup seen -> NoDup (seen ++ picked_keys (firsts_k seen evs)).
Proof.
  induction evs as [|[l ev] evs IH]; intros seen ND; simpl.
  - now rewrite app_nil_r.
  - destruct (event_key ev) as [k|] eqn:K; [|now apply IH].
    destruct (existsb (eqkey k) seen) eqn:S; [now apply IH|].
    simpl. rewrite K. simpl.
    replace (seen ++ k :: picked_keys (firsts_k (seen ++ [k]) evs))
      with ((seen ++ [k]) ++ picked_keys (firsts_k (seen ++ [k]) evs))
      by now rewrite <- app_assoc.
    apply IH. apply NoDup_app; [assumption | repeat constructor; simpl; tauto|].
    intros x I [E | []]. subst x.
    assert (existsb (eqkey k) seen = true); [|congruence].
    apply existsb_exists. exists k. split; [assumption | apply eqkey_refl].
Qed.

Lemma record_of_key (l : text) (ev r : row) (k : key) :
  event_key ev = Some k -> record_of bkk (l, ev) = Ok r -> key_of r = Some k.
Proof.
  unfold event_key, record_of.
  destruct (as_int (get ev (str "id"))) as [i|] eqn:I; [|discriminate].
  destruct (as_int (get ev (str "dateline"))) as [e|] eqn:E; [|discriminate].
  intros [= <-].
  destruct (impact_label _); [|discriminate]. simpl.
  destruct (parse_epoch_to_bkk_iso bkk e); [|discriminate]. simpl.
  intros [= <-]. unfold key_of.
  change (get (event_row _ _ _ _ _ _ _) (str "event_id"))
    with (get ev (str "id")).
  change (get (event_row _ _ _ _ _ _ _) (str "dateline_epoch"))
    with (get ev (str "dateline")).
  now rewrite I, E.
Qed.

Lemma firsts_k_keys (evs : list (text * row)) :
  forall seen,
    map (fun lev => event_key (snd lev)) (firsts_k seen evs) =
    map Some (picked_keys (firsts_k seen evs)).
Proof.
  induction evs as [|[l ev] evs IH]; intros seen; simpl; [reflexivity|].
  destruct (event_key ev) as [k|] eqn:K; [|apply IH].
  destruct (existsb (eqkey k) seen); [apply IH|].
  simpl. rewrite K. simpl. now rewrite IH.
Qed.

Lemma mapM_record_keys (p : list (text * row)) :
  forall rows,
    map (fun lev => event_key (snd lev)) p = map Some (picked_keys p) ->
    mapM (record_of bkk) p = Ok rows ->
    map key_of rows = map Some (picked_keys p).
Proof.
  induction p as [|[l ev] p IH]; intros rows Hk; cbn [mapM].
  - intros [= <-]. reflexivity.
  - destruct (record_of bkk (l, ev)) as [r|] eqn:R; cbn [bind]; [|discriminate].
    destruct (mapM (record_of bkk) p) as [rs|]; cbn [bind]; [|discriminate].
    intros [= <-]. cbn [map picked_keys flat_map snd] in *.
    destruct (event_key ev) as [k|] eqn:K.
    + simpl in Hk. injection Hk as Hk'.
      simpl. rewrite (record_of_key l ev r k K R). f_equal.
      now apply IH.
    + exfalso. revert R. unfold record_of, event_key in *.
      destruct (as_int (get ev (str "dateline"))) as [e|]; [|discriminate].
      destruct (as_int (get ev (str "id"))); [discriminate|].
      simpl in Hk. destruct (flat_map _ p); discriminate.
Qed.
End FlattenFacts.

(** C6. The flattener returns a record list exactly when the decoded tree
    can be traversed (the days in order, the events in order within each
    day) and every kept event gives a record; the kept events are those
    that have an integer id and an integer epoch (an event without them is
    skipped, it gives no record and raises nothing) and that no earlier
    event of the traversal shares the pair (id, epoch) with, and the
    records are theirs, in order: one record for each pair, from the first
    event that has it. *)
Theorem flatten_first_wins (bkk : Z -> option text) (data : value)
        (rows : list row) :
  (flatten bkk data = Ok rows <->
   exists evs, traversal data = Ok evs /\
               mapM (record_of bkk) (firsts [] evs) = Ok rows) /\
  (flatten bkk data = Ok rows -> NoDup (map key_of rows)).
Proof.
  assert (F : forall evs, firsts_k [] evs = firsts [] evs).
  { intros evs. now apply firsts_k_firsts. }
  unfold flatten, traversal.
  destruct (as_dict data) as [d|]; simpl.
  2:{ split; [split|]; try discriminate. intros [evs [H _]]; discriminate. }
  destruct (iterate _) as [days|]; simpl.
  2:{ split; [split|]; try discriminate. intros [evs [H _]]; discriminate. }
  destruct (mapM day_events days) as [dss|e] eqn:M; simpl.
  - rewrite (for_each_days bkk days dss [] [] M). simpl. rewrite F.
    destruct (mapM (record_of bkk) (firsts [] (concat dss))) as [new|] eqn:R;
      simpl.
    + split; [split|].
      * intros [= <-]. eauto.
      * intros [evs [[= <-] H]]. congruence.
      * intros [= <-]. rewrite <- F in R.
        rewrite (mapM_record_keys bkk _ _ (firsts_k_keys _ _) R).
        apply NoDup_map_Some.
        apply (firsts_k_nodup (concat dss) []). constructor.
    + split; [split|]; try discriminate.
      intros [evs [[= <-] H]]. congruence.
  - destruct (for_each_days_raise bkk days e M ([], [])) as [e' ->]. simpl.
    split; [split|]; try discriminate. intros [evs [H _]]; discriminate.
Qed.

Lemma flatten_first_wins_witness :
  exists evs, traversal demo_tree = Ok evs /\
              mapM (record_of demo_bkk) (firsts [] evs) =
              Ok [event_row (str "Mon")
                    [(str "id", VInt 101); (str "dateline", VInt 1700000000);
                     (str "impactName", VStr (str "High"));
                     (str "name", VStr (str "CPI"))]
                    (VInt 101) (VInt 1700000000) (str "T") (str "high") 3;
                  event_row (str "Mon")
                    [(str "id", VInt 102); (str "dateline", VInt 1700000000)]
                    (VInt 102) (VInt 1700000000) (str "T") [] 0].
Proof.
  apply (proj1 (proj1 (flatten_first_wins demo_bkk demo_tree _))).
  reflexivity.
Defined.

(** ** Witnesses of the consolidator theorems *)

Lemma nodupb_NoDup (l : list text) : nodupb l = true -> NoDup l.
Proof.
  induction l as [|x l IH]; simpl; [constructor|].
  rewrite andb_true_iff, negb_true_iff. intros [N H].
  constructor; [|auto]. intros I.
  assert (existsb (eqt x) l = true); [|congruence].
  apply existsb_exists. exists x. split; [assumption | apply eqt_refl].
Qed.

Lemma wf_row_fresh : wf_row fresh_5_10.
Proof. apply nodupb_NoDup. reflexivity. Qed.

Lemma merge_events_store_invariant_witness :
  Forall (fun r => isinstance_int (get r (str "event_id")) = true /\
                   isinstance_int (get r (str "dateline_epoch")) = true)
         (merge_events [stored_5_10_f; row_no_epoch] [fresh_5_10]) /\
  NoDup (map key_of (merge_events [stored_5_10_f; row_no_epoch] [fresh_5_10])) /\
  Forall (fun r => key_of r = None ->
                   ~ In r (merge_events [stored_5_10_f; row_no_epoch]
                                        [fresh_5_10]))
         [stored_5_10_f; row_no_epoch].
Proof.
  apply (merge_events_store_invariant [stored_5_10_f; row_no_epoch] [fresh_5_10]).
  constructor; [exact wf_row_fresh | constructor].
Defined.

Lemma merge_events_field_policy_witness :
  exists m,
    In m (merge_events ([] ++ stored_5_10_f :: []) [fresh_5_10]) /\
    key_of m = Some (5, 10)%Z /\
    (forall m', In m' (merge_events ([] ++ stored_5_10_f :: []) [fresh_5_10]) ->
                key_of m' = Some (5, 10)%Z -> m' = m) /\
    (forall f v, dict_find eqt fresh_5_10 f = Some v -> v <> VNull ->
                 v <> VStr [] -> dict_find eqt m f = Some v) /\
    (forall f, dict_find eqt fresh_5_10 f = None \/
               dict_find eqt fresh_5_10 f = Some VNull \/
               dict_find eqt fresh_5_10 f = Some (VStr []) ->
               dict_find eqt m f = dict_find eqt stored_5_10_f f).
Proof.
  apply (merge_events_field_policy [] [] stored_5_10_f fresh_5_10 (5, 10)%Z).
  - reflexivity.
  - constructor.
  - reflexivity.
  - exact wf_row_fresh.
Defined.

(** The example of the specification: the fresh values replace the stored
    ones, a [None] does not. *)
Lemma merge_events_example :
  merge_events [stored_5_10_f] [fresh_5_10] =
  [[(str "event_id", VInt 5); (str "dateline_epoch", VInt 10);
    (str "actual", VStr (str "1.3")); (str "forecast", VStr (str "1.0"))]].
Proof. reflexivity. Qed.

(** ** The locator *)

(** The example of the specification: the brace inside the string does not
    end the literal. *)
Lemma extract_brace_in_string :
  extract_object_literal (qstr "marker = {`a`: `}`, `b`: 1}")
                         (str "marker =")
  = Ok (qstr "{`a`: `}`, `b`: 1}").
Proof. reflexivity. Qed.

(** C3, on a marker that holds a brace: the search for the opening brace
    starts at the first character of the marker, not after its last one,
    so the literal returned is the [{}] of the marker and not the object
    that follows the marker. *)
Lemma extract_starts_inside_marker :
  find brace_doc brace_marker 0 = Some 0 /\
  find brace_doc (str "{") (0 + length brace_marker) = Some 6 /\
  slice brace_doc 6 14 = qstr "{`a`: 1}" /\
  extract_object_literal brace_doc brace_marker = Ok (str "{}").
Proof. repeat split. Qed.

(** C7, on a marker that holds a brace: no brace follows the marker, and
    the error is the one of an unbalanced literal, not the one of a
    missing object start. *)
Lemma extract_error_inside_marker :
  find open_doc open_marker 0 = Some 0 /\
  find open_doc (str "{") (0 + length open_marker) = None /\
  extract_object_literal open_doc open_marker = Raise UnbalancedBraces.
Proof. repeat split. Qed.

(** ** The run *)

Section RunFacts.
Variable bkk : Z -> option text.
Variables json_dumps csv_text meta_text : list row -> text.
Variable traceback : exn -> text.

(** A run that ends with an exception has written nothing. *)
Lemma main_raise_no_write (fs : filesystem) (e : exn) :
  snd (main bkk json_dumps csv_text meta_text fs) = Raise e ->
  fst (main bkk json_dumps csv_text meta_text fs) = fs.
Proof.
  unfold main. destruct (fs IN_HTML); [|reflexivity].
  destruct (extract_object_literal _ _); [|reflexivity].
  destruct (Json.loads _); [|reflexivity].
  destruct (flatten _ _); [|reflexivity].
  simpl. discriminate.
Qed.

(** The failures of the locator and of the decoder end the run. *)
Lemma main_raises (fs : filesystem) (html : text) :
  fs IN_HTML = Some html ->
  (forall e, extract_object_literal html MARKER = Raise e ->
             snd (main bkk json_dumps csv_text meta_text fs) = Raise e) /\
  (forall js, extract_object_literal html MARKER = Ok js ->
              Json.loads (js_object_to_json_text js) = None ->
              snd (main bkk json_dumps csv_text meta_text fs)
              = Raise JSONDecodeError).
Proof.
  intros H. unfold main. rewrite H. split.
  - intros e ->. reflexivity.
  - intros js -> ->. reflexivity.
Qed.

(** After a failed run of the script the stored records and their
    tabular mirror are what they were. *)
Lemma script_raise_store_untouched (fs : filesystem) (e : exn) :
  snd (script bkk json_dumps csv_text meta_text traceback fs) = Raise e ->
  fst (script bkk json_dumps csv_text meta_text traceback fs) OUT_EVENTS_JSON
  = fs OUT_EVENTS_JSON /\
  fst (script bkk json_dumps csv_text meta_text traceback fs) OUT_EVENTS_CSV
  = fs OUT_EVENTS_CSV.
Proof.
  unfold script.
  destruct (main bkk json_dumps csv_text meta_text fs) as [fs' [[]|e']] eqn:M;
    [discriminate|].
  intros _. simpl.
  assert (fs' = fs) as ->.
  { change fs' with (fst (fs', @Raise unit e')). rewrite <- M.
    apply (main_raise_no_write fs e'). now rewrite M. }
  split; reflexivity.
Qed.
End RunFacts.

(* ------------------------------------------------------------------ *)
(** * The round trip *)

(** ** Characters *)

Ltac ascii_cases c := destruct c as [[] [] [] [] [] [] [] []].

Lemma ident_char_plain (c : ascii) :
  ident_char c = true ->
  eqc c "\" = false /\ eqc c DQ = false /\ eqc c "'" = false /\
  eqc c ":" = false /\ eqc c "{" = false /\ eqc c "}" = false /\
  isspace c = false /\ (code c <? 32) = false.
Proof. ascii_cases c; vm_compute; intros H; repeat split; congruence. Qed.

Lemma alpha_ident (c : ascii) :
  isalpha c || eqc c "_" = true -> ident_char c = true.
Proof. ascii_cases c; vm_compute; congruence. Qed.

Lemma length_dropwhile {A} (p : A -> bool) (l : list A) :
  length (dropwhile p l) <= length l.
Proof.
  induction l as [|x l IH]; simpl; [lia|]. destruct (p x); simpl; lia.
Qed.

Lemma takewhile_app {A} (p : A -> bool) (a r : list A) :
  forallb p a = true ->
  match r with [] => True | c :: _ => p c = false end ->
  takewhile p (a ++ r) = a.
Proof.
  induction a as [|x a IH]; simpl.
  - destruct r; simpl; [reflexivity|]. now intros _ ->.
  - rewrite andb_true_iff. intros [-> H] Hr. now rewrite IH.
Qed.

Lemma dropwhile_app {A} (p : A -> bool) (a r : list A) :
  forallb p a = true ->
  match r with [] => True | c :: _ => p c = false end ->
  dropwhile p (a ++ r) = r.
Proof.
  induction a as [|x a IH]; simpl.
  - destruct r; simpl; [reflexivity|]. now intros _ ->.
  - rewrite andb_true_iff. intros [-> H] Hr. now rewrite IH.
Qed.

(** ** Strings, as every quote-aware loop reads them *)

Lemma instr_app (q : ascii) (a b : text) :
  forall e, instr q e (a ++ b) =
            match instr q e a with
            | Some e' => instr q e' b
            | None => None
            end.
Proof.
  induction a as [|c a IH]; intros e; simpl; [reflexivity|].
  destruct e; [apply IH|].
  destruct (eqc c "\"); [apply IH|].
  destruct (eqc c q); [reflexivity | apply IH].
Qed.

Lemma instr_esc_js (c : ascii) : instr "'" false (esc_js c) = Some false.
Proof. ascii_cases c; reflexivity. Qed.

Lemma instr_esc_dq (c : ascii) : instr DQ false (esc_dq c) = Some false.
Proof. ascii_cases c; reflexivity. Qed.

Lemma instr_body (d : bool) (x : text) :
  instr (quote_of d) false (flat_map (if d then esc_dq else esc_js) x)
  = Some false.
Proof.
  induction x as [|c x IH]; simpl; [reflexivity|].
  rewrite instr_app. destruct d; simpl in *.
  - now rewrite instr_esc_dq.
  - now rewrite instr_esc_js.
Qed.

Lemma instr_ident (k : text) :
  forallb ident_char k = true -> instr DQ false k = Some false.
Proof.
  induction k as [|c k IH]; simpl; [reflexivity|].
  rewrite andb_true_iff. intros [H1 H2].
  destruct (ident_char_plain c H1) as [-> [E _]].
  change (eqc c DQ) with (eqc c DQ) in E. rewrite E. auto.
Qed.

(** ** The locator on a serialized value *)

Lemma scan_braces_quote (s : text) :
  forall e d k q1 q2,
    scan_braces false e q1 d k s = scan_braces false e q2 d k s.
Proof.
  induction s as [|c s IH]; intros e d k q1 q2; simpl; [reflexivity|].
  destruct (is_quote c); [reflexivity|].
  destruct (eqc c "{"); [apply IH|].
  destruct (eqc c "}"); [|apply IH].
  destruct (d - 1 =? 0)%Z; [reflexivity | apply IH].
Qed.

Lemma scan_braces_inert (t : text) :
  forall e q d k s,
    forallb scan_inert t = true ->
    scan_braces false e q d k (t ++ s) = scan_braces false e q d (k + length t) s.
Proof.
  induction t as [|c t IH]; intros e q d k s; simpl.
  - intros _. now rewrite Nat.add_0_r.
  - unfold scan_inert at 1.
    rewrite !andb_true_iff, !negb_true_iff. intros [[[-> ->] ->] H].
    rewrite IH by assumption. f_equal. lia.
Qed.

Lemma scan_braces_instr (t : text) :
  forall q e e' d k s,
    instr q e t = Some e' ->
    scan_braces true e (Some q) d k (t ++ s) =
    scan_braces true e' (Some q) d (k + length t) s.
Proof.
  induction t as [|c t IH]; intros q e e' d k s; simpl.
  - intros [= ->]. now rewrite Nat.add_0_r.
  - destruct e.
    + intros H. rewrite (IH _ _ _ _ _ _ H). f_equal; lia.
    + destruct (eqc c "\").
      * intros H. rewrite (IH _ _ _ _ _ _ H). f_equal; lia.
      * destruct (eqc c q); [discriminate|].
        intros H. rewrite (IH _ _ _ _ _ _ H). f_equal; lia.
Qed.

Lemma is_quote_quote_of (d : bool) : is_quote (quote_of d) = true.
Proof. destruct d; reflexivity. Qed.

Lemma scan_skips_string (d : bool) (x : text) : scan_skips (print_string d x).
Proof.
  intros dep k rest q _. unfold print_string.
  pose proof (instr_body d x) as Hb.
  destruct d; simpl in *; rewrite <- app_assoc;
    rewrite (scan_braces_instr _ _ false false _ _ _ Hb); simpl;
    rewrite (scan_braces_quote rest false dep _ _ None);
    f_equal; rewrite length_app; simpl; lia.
Qed.

Lemma scan_skips_nil : scan_skips [].
Proof.
  intros d k rest q _. simpl. rewrite Nat.add_0_r. apply scan_braces_quote.
Qed.

Lemma scan_skips_app (a b : text) :
  scan_skips a -> scan_skips b -> scan_skips (a ++ b).
Proof.
  intros Ha Hb d k rest q H. rewrite <- app_assoc, Ha, Hb by assumption.
  f_equal. rewrite length_app. lia.
Qed.

Lemma scan_skips_inert (t : text) : forallb scan_inert t = true -> scan_skips t.
Proof.
  intros H d k rest q _. rewrite scan_braces_inert by assumption.
  apply scan_braces_quote.
Qed.

Lemma scan_braces_open (e : bool) (q : option ascii) (d : Z) (k : nat) (s : text) :
  scan_braces false e q d k ("{" :: s) = scan_braces false e q (d + 1) (S k) s.
Proof. reflexivity. Qed.

Lemma scan_braces_close (e : bool) (q : option ascii) (d : Z) (k : nat) (s : text) :
  scan_braces false e q d k ("}" :: s) =
  if (d - 1 =? 0)%Z then Some k else scan_braces false e q (d - 1) (S k) s.
Proof. reflexivity. Qed.

Lemma scan_skips_braces (t : text) : scan_skips t -> scan_skips ("{" :: t ++ ["}"]).
Proof.
  intros Ht d k rest q H. cbn [app]. rewrite scan_braces_open.
  rewrite <- app_assoc. rewrite Ht by lia.
  cbn [app]. rewrite scan_braces_close.
  replace (d + 1 - 1 =? 0)%Z with false by (symmetry; apply Z.eqb_neq; lia).
  replace (d + 1 - 1)%Z with d by lia.
  f_equal. cbn [length]. rewrite length_app. simpl. lia.
Qed.

Lemma scan_skips_join (last : bool) (items : list text) :
  Forall scan_skips items -> scan_skips (join last items).
Proof.
  induction 1 as [|x items Hx F IH]; simpl; [apply scan_skips_nil|].
  apply scan_skips_app; [assumption|].
  destruct items as [|y items].
  - destruct last; [now apply scan_skips_inert | apply scan_skips_nil].
  - apply (scan_skips_app [","%char]); [now apply scan_skips_inert | exact IH].
Qed.

(** A quoted text whose body does not end the string. *)
Lemma scan_skips_quoted (qc : ascii) (body : text) :
  is_quote qc = true -> eqc qc "\" = false ->
  instr qc false body = Some false ->
  scan_skips (qc :: body ++ [qc]).
Proof.
  intros Hq Hb Hi dep k rest q _.
  cbn [app scan_braces]. rewrite Hq. rewrite <- app_assoc.
  rewrite (scan_braces_instr _ qc false false _ _ _ Hi).
  cbn [app scan_braces is_q]. rewrite Hb, eqc_refl.
  rewrite (scan_braces_quote rest false dep _ _ None).
  f_equal. cbn [length]. rewrite length_app. simpl. lia.
Qed.

(** ** Written integers *)

Lemma digit_char_spec (m : N) :
  (m < 10)%N ->
  Json.is_digit (digit_char m) = true /\
  Json.digit_val (digit_char m) = m /\
  (eqc (digit_char m) "0" = true -> m = 0%N).
Proof.
  intros H.
  assert (E : (m = 0 \/ m = 1 \/ m = 2 \/ m = 3 \/ m = 4 \/ m = 5 \/ m = 6 \/
               m = 7 \/ m = 8 \/ m = 9)%N) by lia.
  repeat (destruct E as [-> | E]); try subst m;
    (split; [reflexivity | split; [reflexivity | vm_compute; congruence]]).
Qed.

Lemma digits_of_digits (fuel : nat) :
  forall n acc,
    forallb Json.is_digit acc = true ->
    forallb Json.is_digit (digits_of fuel n acc) = true.
Proof.
  induction fuel as [|fuel IH]; intros n acc H; simpl; [assumption|].
  assert (D : forallb Json.is_digit (digit_char (n mod 10) :: acc) = true).
  { simpl. rewrite H, andb_true_r.
    apply digit_char_spec. apply N.mod_lt. lia. }
  destruct (n <? 10)%N; [exact D | now apply IH].
Qed.

Lemma print_int_chars (z : Z) : forallb int_char (print_int z) = true.
Proof.
  assert (D : forall n, forallb int_char (decimal n) = true).
  { intros n. unfold decimal.
    pose proof (digits_of_digits (S (N.to_nat (N.log2 n))) n [] eq_refl) as H.
    revert H. generalize (digits_of (S (N.to_nat (N.log2 n))) n []).
    induction t as [|c t IH]; simpl; [reflexivity|].
    rewrite !andb_true_iff. intros [H1 H2]. unfold int_char at 1.
    rewrite H1. auto. }
  unfold print_int. destruct (z <? 0)%Z; simpl; now rewrite D.
Qed.

Lemma int_char_scan_inert (c : ascii) : int_char c = true -> scan_inert c = true.
Proof. ascii_cases c; vm_compute; congruence. Qed.

Lemma ident_char_scan_inert (c : ascii) : ident_char c = true -> scan_inert c = true.
Proof. ascii_cases c; vm_compute; congruence. Qed.

Lemma forallb_impl {A} (p q : A -> bool) (l : list A) :
  (forall x, p x = true -> q x = true) ->
  forallb p l = true -> forallb q l = true.
Proof.
  intros H. induction l as [|x l IH]; simpl; [reflexivity|].
  rewrite !andb_true_iff. intros [H1 H2]. auto.
Qed.

Lemma is_ident_chars (k : text) : is_ident k = true -> forallb ident_char k = true.
Proof.
  destruct k as [|c k]; simpl; [discriminate|].
  rewrite !andb_true_iff. intros [H1 H2]. split; [now apply alpha_ident | assumption].
Qed.

Lemma scan_skips_key (sty : style) (k : text) :
  is_ident k = true -> scan_skips (print_key sty k).
Proof.
  intros H. apply is_ident_chars in H. unfold print_key. destruct (kq sty).
  - apply scan_skips_quoted; [reflexivity | reflexivity | now apply instr_ident].
  - apply scan_skips_inert. revert H. apply forallb_impl, ident_char_scan_inert.
Qed.

Lemma wf_list (l : list value) : wf (VList l) = true -> Forall (fun v => wf v = true) l.
Proof. simpl. intros H. now apply Forall_forall, forallb_forall. Qed.

Lemma wf_dict (d : list (text * value)) :
  wf (VDict d) = true ->
  Forall (fun kv => is_ident (fst kv) = true /\ wf (snd kv) = true) d /\
  NoDup (map fst d).
Proof.
  simpl. rewrite andb_true_iff. intros [H N]. split.
  - apply Forall_forall. intros kv I.
    apply andb_true_iff. revert kv I. now apply forallb_forall.
  - now apply nodupb_NoDup.
Qed.

Lemma scan_skips_value (v : value) :
  wf v = true -> forall sty, scan_skips (print sty v).
Proof.
  induction v as [| b | z | f | s | l IH | d IH] using value_induction;
    intros W sty; cbn [print].
  - now apply scan_skips_inert.
  - destruct b; now apply scan_skips_inert.
  - apply scan_skips_inert.
    generalize (print_int_chars z). apply forallb_impl, int_char_scan_inert.
  - discriminate.
  - apply scan_skips_string.
  - apply (scan_skips_app ["["%char]); [now apply scan_skips_inert|].
    apply scan_skips_app; [|now apply scan_skips_inert].
    apply scan_skips_join. apply wf_list in W.
    induction IH as [|x l Hx _ IHl]; simpl; [constructor|].
    inversion W; subst. constructor; auto.
  - apply scan_skips_braces. apply scan_skips_join.
    apply wf_dict in W. destruct W as [W _].
    induction IH as [|[k x] d Hx _ IHd]; simpl; [constructor|].
    inversion W as [|? ? [Hk Hw] W']; subst. simpl in *.
    constructor; [|auto].
    apply scan_skips_app; [now apply scan_skips_key|].
    apply (scan_skips_app [":"%char]); [now apply scan_skips_inert | auto].
Qed.

(** The closing brace of a serialized map is where the locator stops. *)
Lemma scan_braces_dict (sty : style) (d : list (text * value)) (j : nat)
      (rest : text) :
  wf (VDict d) = true ->
  scan_braces false false None 0 j (print sty (VDict d) ++ rest) =
  Some (j + length (print sty (VDict d)) - 1).
Proof.
  intros W. cbn [print].
  set (body := join (tc sty) _).
  assert (Hb : scan_skips body).
  { apply wf_dict in W. destruct W as [W _]. unfold body.
    apply scan_skips_join.
    clear -W. induction W as [|[k x] d [Hk Hw] _ IH]; simpl; constructor; auto.
    apply scan_skips_app; [now apply scan_skips_key|].
    apply (scan_skips_app [":"%char]); [now apply scan_skips_inert|].
    now apply scan_skips_value. }
  cbn [app]. rewrite scan_braces_open, <- app_assoc.
  rewrite Hb by lia. cbn [app]. rewrite scan_braces_close. simpl.
  f_equal. rewrite length_app. simpl. lia.
Qed.

(** ** The locator on the document *)

Lemma startswith_app (m x : text) : startswith (m ++ x) m = true.
Proof.
  induction m as [|c m IH]; simpl; [now destruct x|]. now rewrite eqc_refl.
Qed.

Lemma eqc_sym (a b : ascii) : eqc a b = eqc b a.
Proof. apply Ascii.eqb_sym. Qed.

Lemma startswith_nil (s : text) : startswith s [] = true.
Proof. now destruct s. Qed.

Lemma find_at_brace (pre s : text) :
  forall pos,
    no_brace pre = true ->
    find_at (str "{") (pre ++ "{" :: s) pos = Some (pos + length pre).
Proof.
  change (str "{") with ["{"%char].
  induction pre as [|c pre IH]; intros pos; simpl.
  - intros _. f_equal. lia.
  - rewrite andb_true_iff, negb_true_iff. intros [H1 H2].
    rewrite eqc_sym, H1. simpl. rewrite IH by assumption. f_equal. lia.
Qed.

Lemma find_at_prefix (sub s : text) (pos : nat) :
  startswith s sub = true -> find_at sub s pos = Some pos.
Proof. intros H. destruct s; cbn [find_at]; now rewrite H. Qed.

Lemma skipn_app_length {A} (a b : list A) : skipn (length a) (a ++ b) = b.
Proof. induction a; simpl; auto. Qed.

Lemma firstn_app_length {A} (a b : list A) : firstn (length a) (a ++ b) = a.
Proof. induction a; simpl; [now destruct b | now f_equal]. Qed.

Lemma no_brace_app (a b : text) :
  no_brace a = true -> no_brace b = true -> no_brace (a ++ b) = true.
Proof. unfold no_brace. rewrite forallb_app. now intros -> ->. Qed.

(** The locator returns the serialized map of the document. *)
Lemma extract_document (marker tail : text) (d : list (text * value)) :
  no_brace marker = true ->
  wf (VDict d) = true ->
  extract_object_literal (document marker (VDict d) tail) marker
  = Ok (print JS (VDict d)).
Proof.
  intros Hm W. unfold extract_object_literal, document.
  set (lit := print JS (VDict d)).
  assert (F0 : find (marker ++ str " Object.freeze(" ++ lit ++ str ")" ++ tail)
                    marker 0 = Some 0).
  { unfold find. cbn [Nat.leb skipn].
    apply find_at_prefix, startswith_app. }
  rewrite F0.
  set (pre := marker ++ str " Object.freeze(").
  assert (Hpre : no_brace pre = true) by now apply no_brace_app.
  assert (E : marker ++ str " Object.freeze(" ++ lit ++ str ")" ++ tail
              = pre ++ lit ++ str ")" ++ tail).
  { unfold pre. now rewrite <- app_assoc. }
  rewrite E.
  assert (L : exists body, lit = "{"%char :: body) by (unfold lit; cbn [print]; eauto).
  destruct L as [body L].
  assert (F1 : find (pre ++ lit ++ str ")" ++ tail) (str "{") 0
               = Some (length pre)).
  { unfold find. cbn [Nat.leb skipn]. rewrite L.
    change (("{"%char :: body) ++ str ")" ++ tail)
      with ("{"%char :: body ++ str ")" ++ tail).
    now rewrite find_at_brace. }
  rewrite F1, skipn_app_length.
  unfold lit at 1. rewrite scan_braces_dict by assumption. fold lit.
  unfold slice. rewrite skipn_app_length.
  replace (length pre + length lit - 1 + 1 - length pre) with (length lit).
  - now rewrite firstn_app_length.
  - rewrite L. simpl. lia.
Qed.

(** ** A pass that reads a serialized value item by item *)

Lemma digits_of_cons (fuel : nat) :
  forall n acc, exists c t, digits_of (S fuel) n acc = c :: t.
Proof.
  induction fuel as [|fuel IH]; intros n acc.
  - simpl. destruct (n <? 10)%N; eauto.
  - change (digits_of (S (S fuel)) n acc)
      with (if (n <? 10)%N then digit_char (n mod 10) :: acc
            else digits_of (S fuel) (n / 10) (digit_char (n mod 10) :: acc)).
    destruct (n <? 10)%N; eauto.
Qed.

Lemma print_int_start (z : Z) (s : text) : item_start (print_int z ++ s) = true.
Proof.
  pose proof (print_int_chars z) as H.
  assert (E : exists c t, print_int z = c :: t).
  { unfold print_int, decimal. destruct (z <? 0)%Z; [eauto|].
    apply digits_of_cons. }
  destruct E as [c [t E]]. rewrite E in *. simpl in *.
  apply andb_true_iff in H. destruct H as [H _].
  unfold istart. now rewrite H.
Qed.

Lemma print_start (sty : style) (v : value) (s : text) :
  wf v = true -> item_start (print sty v ++ s) = true.
Proof.
  destruct v; cbn [print wf]; try discriminate; intros _; try reflexivity.
  - now destruct b.
  - apply print_int_start.
  - unfold print_string. now destruct (dq sty).
Qed.

Section Pass.
Variable T : text -> text.
Variables sty sty' : style.
Hypothesis kq_in : kq sty = true.
Hypothesis kq_out : kq sty' = true.
Hypothesis tc_out : tc sty = false -> tc sty' = false.
Hypothesis T_punct : forall c s, punct c = true -> T (c :: s) = c :: T s.
Hypothesis T_word : forall t, forallb word_char t = true -> maps T t t.
Hypothesis T_key : forall k, is_ident k = true -> maps T (DQ :: k ++ [DQ]) (DQ :: k ++ [DQ]).
Hypothesis T_string : forall x, maps T (print_string (dq sty) x) (print_string (dq sty') x).
Hypothesis T_comma_mid :
  forall s, item_start s = true -> T ("," :: s) = "," :: T s.
Hypothesis T_comma_last :
  forall s, tc sty = true -> closer_start s = true ->
            T ("," :: s) = (if tc sty' then [","%char] else []) ++ T s.

Lemma maps_app (a a' b b' : text) :
  maps T a a' -> maps T b b' -> maps T (a ++ b) (a' ++ b').
Proof. intros Ha Hb s. now rewrite <- !app_assoc, Ha, Hb. Qed.

Lemma maps_punct (c : ascii) : punct c = true -> maps T [c] [c].
Proof. intros H s. simpl. now apply T_punct. Qed.

Lemma join_maps (items items' : list text) :
  Forall2 (maps T) items items' ->
  Forall (fun x => forall s, item_start (x ++ s) = true) items ->
  forall r, closer_start r = true ->
            T (join (tc sty) items ++ r) = join (tc sty') items' ++ T r.
Proof.
  induction 1 as [|x x' items items' Hx F IH]; intros St r Hr; [reflexivity|].
  inversion St as [|? ? Sx St']; subst. cbn [join].
  rewrite <- !app_assoc, Hx. f_equal.
  destruct F as [|y y' items items' Hy F].
  - destruct (tc sty) eqn:E.
    + cbn [app]. now rewrite T_comma_last.
    + rewrite (tc_out eq_refl). reflexivity.
  - cbn [app]. rewrite T_comma_mid.
    + f_equal. apply IH; assumption.
    + inversion St'; subst. cbn [join]. rewrite <- app_assoc. auto.
Qed.

Theorem pass_value (v : value) :
  wf v = true -> maps T (print sty v) (print sty' v).
Proof.
  induction v as [| b | z | f | x | l IH | d IH] using value_induction;
    intros W; cbn [print].
  - now apply T_word.
  - destruct b; now apply T_word.
  - apply T_word. generalize (print_int_chars z).
    apply forallb_impl. intros c H. unfold word_char. now rewrite H.
  - discriminate.
  - apply T_string.
  - intros s. cbn [app]. rewrite T_punct by reflexivity. f_equal.
    rewrite <- !app_assoc. cbn [app].
    apply wf_list in W.
    rewrite (join_maps (map (print sty) l) (map (print sty') l)).
    + f_equal. now apply T_punct.
    + clear s. induction IH as [|v l Hv _ IHl]; simpl; [constructor|].
      inversion W; subst. constructor; auto.
    + apply Forall_forall. intros t I. apply in_map_iff in I.
      destruct I as [v [<- I]]. intros s'. apply print_start.
      exact (proj1 (Forall_forall _ _) W v I).
    + reflexivity.
  - intros s. cbn [app]. rewrite T_punct by reflexivity. f_equal.
    rewrite <- !app_assoc. cbn [app].
    apply wf_dict in W. destruct W as [W _].
    rewrite (join_maps _
               (map (fun kv => print_key sty' (fst kv) ++ ":" :: print sty' (snd kv)) d)).
    + f_equal. now apply T_punct.
    + clear s. induction IH as [|[k v] d Hv _ IHd]; simpl; [constructor|].
      inversion W as [|? ? [Hk Hw] W']; subst. simpl in *.
      constructor; [|auto].
      unfold print_key. rewrite kq_in, kq_out.
      apply maps_app; [now apply T_key|].
      apply (maps_app [":"%char] [":"%char]); [now apply maps_punct | auto].
    + apply Forall_forall. intros t I. apply in_map_iff in I.
      destruct I as [[k v] [<- I]]. intros s'. unfold print_key.
      now rewrite kq_in.
    + reflexivity.
Qed.
End Pass.

(** ** [remove_trailing_commas] on a serialized value *)

Ltac split_ifs :=
  repeat match goal with
         | |- context [if ?b then _ else _] => destruct b eqn:?
         end.

Lemma rtc_loop_out (js : text) :
  forall i e q out, rtc_loop i e q out js = out ++ rtc_loop i e q [] js.
Proof.
  induction js as [|c js IH]; intros i e q out; simpl; [now rewrite app_nil_r|].
  split_ifs;
    try (rewrite (IH _ _ _ (out ++ _)), (IH _ _ _ [_]);
         now rewrite <- app_assoc);
    apply IH.
Qed.

Lemma rtc_text_quote (js : text) :
  forall e q1 q2, rtc_text false e q1 js = rtc_text false e q2 js.
Proof.
  unfold rtc_text.
  induction js as [|c js IH]; intros e q1 q2; simpl; [reflexivity|].
  split_ifs; try reflexivity; try apply IH.
  rewrite (rtc_loop_out js _ _ q1), (rtc_loop_out js _ _ q2), !concat_app.
  f_equal. apply IH.
Qed.

Lemma rtc_text_step (c : ascii) (e : bool) (q : option ascii) (s : text) :
  is_quote c = false ->
  rtc_text false e q (c :: s) =
  if eqc c "," && closes_next s then rtc_text false e q s
  else c :: rtc_text false e q s.
Proof.
  intros H. unfold rtc_text. simpl. rewrite H.
  destruct (eqc c "," && closes_next s); [reflexivity|].
  now rewrite rtc_loop_out, concat_app.
Qed.

Lemma rtc_text_open (c : ascii) (e : bool) (q : option ascii) (s : text) :
  is_quote c = true ->
  rtc_text false e q (c :: s) = c :: rtc_text true e (Some c) s.
Proof.
  intros H. unfold rtc_text. simpl. rewrite H.
  now rewrite rtc_loop_out, concat_app.
Qed.

Lemma rtc_text_instr (t : text) :
  forall qc e e' s,
    instr qc e t = Some e' ->
    rtc_text true e (Some qc) (t ++ s) = t ++ rtc_text true e' (Some qc) s.
Proof.
  unfold rtc_text.
  induction t as [|c t IH]; intros qc e e' s; simpl.
  - now intros [= ->].
  - destruct e.
    + intros H. rewrite rtc_loop_out, concat_app. simpl. f_equal. now apply IH.
    + destruct (eqc c "\").
      * intros H. rewrite rtc_loop_out, concat_app. simpl. f_equal. now apply IH.
      * destruct (eqc c qc); [discriminate|].
        intros H. rewrite rtc_loop_out, concat_app. simpl. f_equal. now apply IH.
Qed.

Lemma rtc_text_close (qc : ascii) (s : text) :
  eqc qc "\" = false ->
  rtc_text true false (Some qc) (qc :: s) = qc :: rtc_text false false None s.
Proof.
  intros H. unfold rtc_text. simpl. rewrite H, eqc_refl.
  rewrite rtc_loop_out, concat_app. simpl. f_equal.
  apply (rtc_text_quote s false (Some qc) None).
Qed.

Lemma rtc_quoted (qc : ascii) (body : text) :
  is_quote qc = true -> eqc qc "\" = false ->
  instr qc false body = Some false ->
  maps (rtc_text false false None) (qc :: body ++ [qc]) (qc :: body ++ [qc]).
Proof.
  intros Hq Hb Hi s. cbn [app]. rewrite rtc_text_open by assumption.
  rewrite <- !app_assoc. rewrite (rtc_text_instr body qc false false _ Hi).
  cbn [app]. now rewrite rtc_text_close.
Qed.

Lemma rtc_inert (t : text) :
  forallb (fun c => negb (is_quote c) && negb (eqc c ",")) t = true ->
  maps (rtc_text false false None) t t.
Proof.
  induction t as [|c t IH]; simpl; intros H s; [reflexivity|].
  apply andb_true_iff in H. destruct H as [H1 H2].
  apply andb_true_iff in H1. destruct H1 as [Hq Hc].
  apply negb_true_iff in Hq, Hc. cbn [app].
  rewrite rtc_text_step by assumption. rewrite Hc. simpl. f_equal. now apply IH.
Qed.

Lemma word_char_plain (c : ascii) :
  word_char c = true ->
  is_quote c = false /\ eqc c "," = false /\ eqc c "O" = false /\
  isalpha c || eqc c "_" = negb (int_char c).
Proof. ascii_cases c; vm_compute; intros H; repeat split; congruence. Qed.

Lemma punct_plain (c : ascii) :
  punct c = true ->
  is_quote c = false /\ eqc c "," = false /\ eqc c "O" = false /\
  isalpha c || eqc c "_" = false.
Proof. ascii_cases c; vm_compute; intros H; repeat split; congruence. Qed.

Lemma istart_plain (c : ascii) :
  istart c = true ->
  isspace c = false /\ eqc c "}" = false /\ eqc c "]" = false /\
  eqc c ":" = false.
Proof. ascii_cases c; vm_compute; intros H; repeat split; congruence. Qed.

Lemma closes_next_item (s : text) : item_start s = true -> closes_next s = false.
Proof.
  destruct s as [|c s]; simpl; [discriminate|]. intros H.
  destruct (istart_plain c H) as [H1 [H2 [H3 _]]].
  unfold closes_next. simpl. now rewrite H1, H2, H3.
Qed.

Lemma closes_next_closer (s : text) : closer_start s = true -> closes_next s = true.
Proof.
  destruct s as [|c s]; simpl; [discriminate|]. intros H.
  unfold closes_next. simpl.
  assert (isspace c = false) as ->.
  { apply orb_true_iff in H. destruct H as [H | H]; apply eqc_eq in H; now subst. }
  now rewrite orb_comm.
Qed.

(** [remove_trailing_commas] leaves a serialized value as it is, but for
    the trailing commas. *)
Lemma rtc_value (sty : style) (v : value) :
  kq sty = true -> dq sty = true -> wf v = true ->
  maps (rtc_text false false None) (print sty v)
       (print (Style true true false) v).
Proof.
  intros Hk Hd W.
  apply (pass_value (rtc_text false false None) sty (Style true true false));
    try assumption; try reflexivity.
  - intros c s H. destruct (punct_plain c H) as [H1 [H2 _]].
    rewrite rtc_text_step by assumption. now rewrite H2.
  - intros t H. apply rtc_inert. revert H. apply forallb_impl. intros c H.
    destruct (word_char_plain c H) as [-> [-> _]]. reflexivity.
  - intros k H. apply rtc_quoted; [reflexivity | reflexivity |].
    now apply instr_ident, is_ident_chars.
  - intros x. rewrite Hd. unfold print_string. simpl quote_of.
    apply rtc_quoted; [reflexivity | reflexivity | apply (instr_body true)].
  - intros s H. rewrite rtc_text_step by reflexivity.
    now rewrite (closes_next_item s H).
  - intros s _ H. rewrite rtc_text_step by reflexivity.
    now rewrite (closes_next_closer s H).
Qed.

(** ** [strip_object_freeze] on a serialized value *)

Lemma sof_string_out (js : text) :
  forall q e out,
    sof_string q e out js =
    (out ++ fst (sof_string q e [] js), snd (sof_string q e [] js)).
Proof.
  induction js as [|c js IH]; intros q e out; simpl; [now rewrite app_nil_r|].
  split_ifs; simpl; try reflexivity;
    rewrite (IH _ _ (out ++ _)), (IH _ _ [_]); simpl;
    now rewrite <- app_assoc.
Qed.

Lemma sof_call_out (fuel : nat) :
  forall par out js,
    sof_call fuel par out js =
    (out ++ fst (sof_call fuel par [] js), snd (sof_call fuel par [] js)).
Proof.
  induction fuel as [|fuel IH]; intros par out js; simpl; [now rewrite app_nil_r|].
  destruct (par >? 0)%Z; [|simpl; now rewrite app_nil_r].
  destruct js as [|c js]; [simpl; now rewrite app_nil_r|].
  destruct (is_quote c).
  - rewrite (sof_string_out js c false (out ++ _)),
            (sof_string_out js c false [_]).
    cbn [fst snd].
    rewrite (IH _ ((out ++ _) ++ _)), (IH _ ([_] ++ _)); simpl.
    now rewrite <- !app_assoc.
  - split_ifs; simpl; try (now rewrite app_nil_r);
      rewrite (IH _ (out ++ _)), (IH _ [_]); simpl;
      now rewrite <- app_assoc.
Qed.

Lemma sof_loop_out (fuel : nat) :
  forall i e q out js,
    sof_loop fuel i e q out js = out ++ sof_loop fuel i e q [] js.
Proof.
  induction fuel as [|fuel IH]; intros i e q out js; cbn [sof_loop];
    [now rewrite app_nil_r|].
  destruct js as [|c js]; [now rewrite app_nil_r|].
  destruct i.
  - split_ifs;
      rewrite (IH _ _ _ (out ++ _)), (IH _ _ _ ([] ++ _));
      now rewrite <- app_assoc.
  - destruct (is_quote c).
    + rewrite (IH _ _ _ (out ++ _)), (IH _ _ _ ([] ++ _));
        now rewrite <- app_assoc.
    + destruct (startswith (c :: js) (str "Object.freeze(")).
      * rewrite (sof_call_out _ _ out).
        destruct (sof_call _ 1 [] _) as [o js2]. cbn [fst snd].
        rewrite (IH _ _ _ (out ++ _)), (IH _ _ _ o). now rewrite <- app_assoc.
      * rewrite (IH _ _ _ (out ++ _)), (IH _ _ _ ([] ++ _));
          now rewrite <- app_assoc.
Qed.

Lemma sof_loop_quote (fuel : nat) :
  forall js e q1 q2,
    concat (sof_loop fuel false e q1 [] js) =
    concat (sof_loop fuel false e q2 [] js).
Proof.
  induction fuel as [|fuel IH]; intros js e q1 q2; cbn [sof_loop]; [reflexivity|].
  destruct js as [|c js]; [reflexivity|].
  destruct (is_quote c); [reflexivity|].
  destruct (startswith (c :: js) (str "Object.freeze(")).
  - destruct (sof_call _ 1 [] _) as [o js2].
    rewrite (sof_loop_out fuel _ _ q1), (sof_loop_out fuel _ _ q2), !concat_app.
    f_equal. apply IH.
  - rewrite (sof_loop_out fuel _ _ q1), (sof_loop_out fuel _ _ q2), !concat_app.
    f_equal. apply IH.
Qed.

Lemma sof_text_step (c : ascii) (e : bool) (q : option ascii) (s : text) :
  is_quote c = false -> eqc c "O" = false ->
  sof_text false e q (c :: s) = c :: sof_text false e q s.
Proof.
  intros H1 H2. unfold sof_text. cbn [length sof_loop]. rewrite H1.
  assert (startswith (c :: s) (str "Object.freeze(") = false) as ->.
  { change (str "Object.freeze(") with ("O"%char :: str "bject.freeze(").
    cbn [startswith]. now rewrite eqc_sym, H2. }
  now rewrite sof_loop_out, concat_app.
Qed.

Lemma sof_text_open (c : ascii) (e : bool) (q : option ascii) (s : text) :
  is_quote c = true ->
  sof_text false e q (c :: s) = c :: sof_text true e (Some c) s.
Proof.
  intros H. unfold sof_text. cbn [length sof_loop]. rewrite H.
  now rewrite sof_loop_out, concat_app.
Qed.

Lemma sof_text_instr (t : text) :
  forall qc e e' s,
    instr qc e t = Some e' ->
    sof_text true e (Some qc) (t ++ s) = t ++ sof_text true e' (Some qc) s.
Proof.
  unfold sof_text.
  induction t as [|c t IH]; intros qc e e' s; cbn [app instr].
  - now intros [= ->].
  - cbn [length sof_loop is_q]. destruct e.
    + intros H. rewrite sof_loop_out, concat_app. simpl. f_equal. now apply IH.
    + destruct (eqc c "\").
      * intros H. rewrite sof_loop_out, concat_app. simpl. f_equal. now apply IH.
      * destruct (eqc c qc); [discriminate|].
        intros H. rewrite sof_loop_out, concat_app. simpl. f_equal. now apply IH.
Qed.

Lemma sof_text_close (qc : ascii) (s : text) :
  eqc qc "\" = false ->
  sof_text true false (Some qc) (qc :: s) = qc :: sof_text false false None s.
Proof.
  intros H. unfold sof_text. cbn [length sof_loop is_q]. rewrite H, eqc_refl.
  rewrite sof_loop_out, concat_app. simpl. f_equal.
  apply sof_loop_quote.
Qed.

Lemma sof_quoted (qc : ascii) (body : text) :
  is_quote qc = true -> eqc qc "\" = false ->
  instr qc false body = Some false ->
  maps (sof_text false false None) (qc :: body ++ [qc]) (qc :: body ++ [qc]).
Proof.
  intros Hq Hb Hi s. cbn [app]. rewrite sof_text_open by assumption.
  rewrite <- !app_assoc. rewrite (sof_text_instr body qc false false _ Hi).
  cbn [app]. now rewrite sof_text_close.
Qed.

Lemma sof_inert (t : text) :
  forallb (fun c => negb (is_quote c) && negb (eqc c "O")) t = true ->
  maps (sof_text false false None) t t.
Proof.
  induction t as [|c t IH]; simpl; intros H s; [reflexivity|].
  apply andb_true_iff in H. destruct H as [H1 H2].
  apply andb_true_iff in H1. destruct H1 as [Hq Hc].
  apply negb_true_iff in Hq, Hc. cbn [app].
  rewrite sof_text_step by assumption. f_equal. now apply IH.
Qed.

(** [strip_object_freeze] leaves a serialized value as it is: no call is
    left outside its strings once the keys are quoted. *)
Lemma sof_value (sty : style) (v : value) :
  kq sty = true -> dq sty = true -> wf v = true ->
  maps (sof_text false false None) (print sty v) (print sty v).
Proof.
  intros Hk Hd W.
  apply (pass_value (sof_text false false None) sty sty);
    try assumption; try reflexivity; auto.
  - intros c s H. destruct (punct_plain c H) as [H1 [_ [H2 _]]].
    now apply sof_text_step.
  - intros t H. apply sof_inert. revert H. apply forallb_impl. intros c H.
    destruct (word_char_plain c H) as [-> [_ [-> _]]]. reflexivity.
  - intros k H. apply sof_quoted; [reflexivity | reflexivity |].
    now apply instr_ident, is_ident_chars.
  - intros x. rewrite Hd. unfold print_string. simpl quote_of.
    apply sof_quoted; [reflexivity | reflexivity | apply (instr_body true)].
  - intros s H. now apply sof_text_step.
  - intros s -> H. now apply sof_text_step.
Qed.

(** ** [single_quotes_to_double] on a serialized value *)

Lemma sqd_loop_out (js : text) :
  forall d s e out, sqd_loop d s e out js = out ++ sqd_loop d s e [] js.
Proof.
  induction js as [|c js IH]; intros d s e out; simpl; [now rewrite app_nil_r|].
  split_ifs;
    rewrite (IH _ _ _ (out ++ _)), (IH _ _ _ [_]); now rewrite <- app_assoc.
Qed.

Lemma sqd_text_step (c : ascii) (e : bool) (s : text) :
  is_quote c = false ->
  sqd_text false false e (c :: s) = c :: sqd_text false false e s.
Proof.
  intros H. apply orb_false_iff in H. destruct H as [H1 H2].
  unfold sqd_text. simpl. rewrite H1, H2.
  now rewrite sqd_loop_out, concat_app.
Qed.

Lemma sqd_text_open_d (e : bool) (s : text) :
  sqd_text false false e (DQ :: s) = DQ :: sqd_text true false e s.
Proof. unfold sqd_text. simpl. now rewrite sqd_loop_out, concat_app. Qed.

Lemma sqd_text_open_s (e : bool) (s : text) :
  sqd_text false false e ("'" :: s) = DQ :: sqd_text false true e s.
Proof. unfold sqd_text. simpl. now rewrite sqd_loop_out, concat_app. Qed.

Lemma sqd_text_instr (t : text) :
  forall e e' s,
    instr DQ e t = Some e' ->
    sqd_text true false e (t ++ s) = t ++ sqd_text true false e' s.
Proof.
  unfold sqd_text.
  induction t as [|c t IH]; intros e e' s; simpl.
  - now intros [= ->].
  - destruct e.
    + intros H. rewrite sqd_loop_out, concat_app. simpl. f_equal. now apply IH.
    + destruct (eqc c "\").
      * intros H. rewrite sqd_loop_out, concat_app. simpl. f_equal. now apply IH.
      * destruct (eqc c DQ); [discriminate|].
        intros H. rewrite sqd_loop_out, concat_app. simpl. f_equal. now apply IH.
Qed.

Lemma sqd_text_close_d (s : text) :
  sqd_text true false false (DQ :: s) = DQ :: sqd_text false false false s.
Proof. unfold sqd_text. simpl. now rewrite sqd_loop_out, concat_app. Qed.

Lemma sqd_text_in_s (c : ascii) (s : text) :
  sqd_text false true false (c :: s) =
  if eqc c "\" then c :: sqd_text false true true s
  else if eqc c "'" then DQ :: sqd_text false false false s
  else if eqc c DQ then "\"%char :: DQ :: sqd_text false true false s
  else c :: sqd_text false true false s.
Proof.
  unfold sqd_text. simpl.
  split_ifs; now rewrite sqd_loop_out, concat_app.
Qed.

Lemma sqd_text_in_s_esc (c : ascii) (s : text) :
  sqd_text false true true (c :: s) = c :: sqd_text false true false s.
Proof. unfold sqd_text. simpl. now rewrite sqd_loop_out, concat_app. Qed.

(** Inside a single-quoted string the pass writes each character as the
    double-quoted string has it. *)
Lemma sqd_text_char (c : ascii) (s : text) :
  sqd_text false true false (esc_js c ++ s) =
  esc_dq c ++ sqd_text false true false s.
Proof.
  ascii_cases c;
    match goal with
    | |- context [esc_js ?c] =>
      let t := eval vm_compute in (esc_js c) in
      let u := eval vm_compute in (esc_dq c) in
      change (esc_js c) with t; change (esc_dq c) with u
    end;
    cbn [app];
    repeat (rewrite sqd_text_in_s; simpl; try rewrite sqd_text_in_s_esc);
    reflexivity.
Qed.

Lemma sqd_string (d : bool) (x : text) :
  maps (sqd_text false false false) (print_string d x) (print_string true x).
Proof.
  intros s. unfold print_string. destruct d; simpl quote_of; cbn [app].
  - rewrite sqd_text_open_d, <- !app_assoc.
    rewrite (sqd_text_instr _ false false _ (instr_body true x)).
    cbn [app]. now rewrite sqd_text_close_d.
  - rewrite sqd_text_open_s. f_equal. rewrite <- !app_assoc. cbn [app].
    induction x as [|c x IH]; cbn [flat_map app].
    + now rewrite sqd_text_in_s.
    + rewrite <- !app_assoc, sqd_text_char. f_equal. exact IH.
Qed.

Lemma sqd_quoted (body : text) :
  instr DQ false body = Some false ->
  maps (sqd_text false false false) (DQ :: body ++ [DQ]) (DQ :: body ++ [DQ]).
Proof.
  intros Hi s. cbn [app]. rewrite sqd_text_open_d, <- !app_assoc.
  rewrite (sqd_text_instr body false false _ Hi).
  cbn [app]. now rewrite sqd_text_close_d.
Qed.

Lemma sqd_inert (t : text) :
  forallb (fun c => negb (is_quote c)) t = true ->
  maps (sqd_text false false false) t t.
Proof.
  induction t as [|c t IH]; simpl; intros H s; [reflexivity|].
  apply andb_true_iff in H. destruct H as [Hq H2].
  apply negb_true_iff in Hq. cbn [app].
  rewrite sqd_text_step by assumption. f_equal. now apply IH.
Qed.

(** [single_quotes_to_double] turns the strings of a serialized value into
    double-quoted ones and leaves the rest. *)
Lemma sqd_value (sty : style) (v : value) :
  kq sty = true -> wf v = true ->
  maps (sqd_text false false false) (print sty v)
       (print (Style true true (tc sty)) v).
Proof.
  intros Hk W.
  apply (pass_value (sqd_text false false false) sty (Style true true (tc sty)));
    try assumption; try reflexivity; auto.
  - intros c s H. destruct (punct_plain c H) as [H1 _].
    now apply sqd_text_step.
  - intros t H. apply sqd_inert. revert H. apply forallb_impl. intros c H.
    destruct (word_char_plain c H) as [-> _]. reflexivity.
  - intros k H. apply sqd_quoted. now apply instr_ident, is_ident_chars.
  - intros x. apply sqd_string.
  - intros s H. now apply sqd_text_step.
  - intros s E H. simpl. rewrite E. now apply sqd_text_step.
Qed.

(** ** [quote_unquoted_keys] on a serialized value *)

(** The fuel of the loop is enough: with any fuel that is not less than
    the length of the text the result is the same. *)
Lemma quk_loop_fuel (f1 : nat) :
  forall f2 i e q out s,
    length s <= f1 -> length s <= f2 ->
    quk_loop f1 i e q out s = quk_loop f2 i e q out s.
Proof.
  induction f1 as [|f1 IH]; intros f2 i e q out s H1 H2.
  - destruct s; [|simpl in H1; lia]. destruct f2; reflexivity.
  - destruct f2 as [|f2]; [destruct s; [reflexivity | simpl in H2; lia]|].
    destruct s as [|c rest]; [reflexivity|]. simpl in H1, H2.
    cbn [quk_loop].
    assert (R : forall i e q out, quk_loop f1 i e q out rest
                                  = quk_loop f2 i e q out rest)
      by (intros; apply IH; lia).
    destruct i; [split_ifs; apply R|].
    destruct (is_quote c); [apply R|].
    destruct (isalpha c || eqc c "_"); [|apply R].
    destruct (eqt _ _ || eqt _ _); [|apply R].
    destruct (dropwhile isspace (dropwhile ident_char rest)) as [|c0 rest'] eqn:D;
      [apply R|].
    destruct (eqc c0 ":"); [|apply R].
    assert (length (c0 :: rest') <= length rest).
    { rewrite <- D.
      etransitivity; [apply length_dropwhile | apply length_dropwhile]. }
    simpl in *. apply IH; lia.
Qed.

Lemma quk_loop_quote (f : nat) :
  forall e q1 q2 out s,
    quk_loop f false e q1 out s = quk_loop f false e q2 out s.
Proof.
  induction f as [|f IH]; intros e q1 q2 out s; [reflexivity|].
  destruct s as [|c rest]; [reflexivity|]. cbn [quk_loop].
  destruct (is_quote c); [reflexivity|].
  destruct (isalpha c || eqc c "_"); [|apply IH].
  destruct (eqt _ _ || eqt _ _); [|apply IH].
  destruct (dropwhile isspace (dropwhile ident_char rest)) as [|c0 rest'];
    [apply IH|].
  destruct (eqc c0 ":"); apply IH.
Qed.

Lemma quk_run_nil (i e : bool) (q : option ascii) (out : list text) :
  quk_run i e q out [] = out.
Proof. reflexivity. Qed.

Lemma quk_run_copy (c : ascii) (e : bool) (q : option ascii)
      (out : list text) (s : text) :
  is_quote c = false ->
  (isalpha c || eqc c "_") && key_place out && negb (no_colon_ahead s) = false ->
  quk_run false e q out (c :: s) = quk_run false e q (out ++ [[c]]) s.
Proof.
  intros Hq H. unfold quk_run. cbn [length quk_loop]. rewrite Hq.
  destruct (isalpha c || eqc c "_"); [|reflexivity].
  unfold key_place in H. destruct (eqt _ _ || eqt _ _); [|reflexivity].
  unfold no_colon_ahead in H.
  destruct (dropwhile isspace (dropwhile ident_char s)) as [|c0 rest'];
    [reflexivity|].
  simpl in H. rewrite negb_involutive in H. now rewrite H.
Qed.

Lemma quk_run_key (c : ascii) (r : text) (e : bool) (q : option ascii)
      (out : list text) (s : text) :
  is_ident (c :: r) = true ->
  key_place out = true ->
  quk_run false e q out (c :: r ++ ":" :: s) =
  quk_run false e q (out ++ [[DQ] ++ (c :: r) ++ [DQ; ":"%char]]) s.
Proof.
  intros Hi Hp. unfold quk_run. cbn [length quk_loop].
  simpl in Hi. apply andb_true_iff in Hi. destruct Hi as [Ha Hr].
  assert (Hq : is_quote c = false).
  { apply alpha_ident in Ha. destruct (ident_char_plain c Ha) as [_ [H1 [H2 _]]].
    unfold is_quote. now rewrite H1, H2. }
  rewrite Hq, Ha. unfold key_place in Hp. rewrite Hp.
  rewrite (takewhile_app ident_char r (":"%char :: s) Hr eq_refl).
  rewrite (dropwhile_app ident_char r (":"%char :: s) Hr eq_refl).
  cbn [dropwhile]. change (isspace ":") with false. cbn iota.
  change (eqc ":" ":") with true. cbn iota.
  apply quk_loop_fuel; rewrite ?length_app; simpl; lia.
Qed.

Lemma quk_run_open (c : ascii) (e : bool) (q : option ascii)
      (out : list text) (s : text) :
  is_quote c = true ->
  quk_run false e q out (c :: s) = quk_run true e (Some c) (out ++ [[c]]) s.
Proof. intros H. unfold quk_run. cbn [length quk_loop]. now rewrite H. Qed.

Lemma chars_app (a b : text) : chars (a ++ b) = chars a ++ chars b.
Proof. apply map_app. Qed.

Lemma concat_chars (t : text) : concat (chars t) = t.
Proof. induction t as [|c t IH]; simpl; [reflexivity | now rewrite IH]. Qed.

Lemma quk_run_instr (t : text) :
  forall qc e e' out s,
    instr qc e t = Some e' ->
    quk_run true e (Some qc) out (t ++ s) =
    quk_run true e' (Some qc) (out ++ chars t) s.
Proof.
  unfold quk_run.
  induction t as [|c t IH]; intros qc e e' out s; cbn [app instr chars map].
  - intros [= ->]. now rewrite app_nil_r.
  - cbn [length quk_loop is_q].
    replace (out ++ [c] :: map (fun c0 => [c0]) t)
      with ((out ++ [[c]]) ++ chars t) by now rewrite <- app_assoc.
    destruct e; [apply IH|].
    destruct (eqc c "\"); [apply IH|].
    destruct (eqc c qc); [discriminate | apply IH].
Qed.

Lemma quk_run_close (qc : ascii) (out : list text) (s : text) :
  eqc qc "\" = false ->
  quk_run true false (Some qc) out (qc :: s) =
  quk_run false false None (out ++ [[qc]]) s.
Proof.
  intros H. unfold quk_run. cbn [length quk_loop is_q]. rewrite H, eqc_refl.
  apply quk_loop_quote.
Qed.

Lemma quk_copies_app (a a' b b' : text) :
  quk_copies a a' -> quk_copies b b' -> quk_copies (a ++ b) (a' ++ b').
Proof.
  intros Ha Hb out s.
  destruct (Ha out (b ++ s)) as [ch1 [E1 C1]].
  destruct (Hb (out ++ ch1) s) as [ch2 [E2 C2]].
  exists (ch1 ++ ch2). rewrite <- app_assoc, E1, E2, app_assoc, concat_app.
  now rewrite C1, C2.
Qed.

Lemma quk_copies_quoted (qc : ascii) (body : text) :
  is_quote qc = true -> eqc qc "\" = false ->
  instr qc false body = Some false ->
  quk_copies (qc :: body ++ [qc]) (qc :: body ++ [qc]).
Proof.
  intros Hq Hb Hi out s. exists (chars (qc :: body ++ [qc])).
  split; [|apply concat_chars].
  cbn [app]. rewrite quk_run_open by assumption.
  rewrite <- app_assoc. rewrite (quk_run_instr body qc false false _ _ Hi).
  cbn [app]. rewrite quk_run_close by assumption.
  f_equal. cbn [chars map]. rewrite map_app. simpl.
  now rewrite <- !app_assoc.
Qed.

Lemma quk_copies_plain (t : text) :
  forallb (fun c => negb (is_quote c) && negb (isalpha c || eqc c "_")) t = true ->
  quk_copies t t.
Proof.
  intros H out s. exists (chars t). split; [|apply concat_chars].
  revert out. induction t as [|c t IH]; intros out; cbn [app chars map].
  - now rewrite app_nil_r.
  - simpl in H. apply andb_true_iff in H. destruct H as [H1 H2].
    apply andb_true_iff in H1. destruct H1 as [Hq Ha].
    apply negb_true_iff in Hq, Ha.
    rewrite quk_run_copy; [|assumption | now rewrite Ha].
    rewrite (IH H2). f_equal. now rewrite <- app_assoc.
Qed.

Lemma no_colon_ahead_word (w s : text) :
  forallb word_char w = true -> term_start s = true ->
  no_colon_ahead (w ++ s) = true.
Proof.
  intros Hw Hs. induction w as [|c w IH]; cbn [app].
  - destruct s as [|c s]; [reflexivity|]. simpl in Hs.
    unfold no_colon_ahead. cbn [dropwhile].
    assert (E : ident_char c = false /\ isspace c = false /\ eqc c ":" = false).
    { clear -Hs. ascii_cases c; vm_compute in Hs; try discriminate;
        vm_compute; auto. }
    destruct E as [-> [E2 E3]]. cbn [dropwhile]. now rewrite E2, E3.
  - simpl in Hw. apply andb_true_iff in Hw. destruct Hw as [Hc Hw].
    specialize (IH Hw). unfold no_colon_ahead in *. cbn [dropwhile].
    destruct (ident_char c) eqn:I; [exact IH|].
    cbn [dropwhile].
    assert (E : isspace c = false /\ eqc c ":" = false).
    { clear -Hc. ascii_cases c; vm_compute in Hc; try discriminate;
        vm_compute; auto. }
    destruct E as [-> ->]. reflexivity.
Qed.

(** A word or an integer is copied at the place of a value. *)
Lemma quk_value_word (w : text) : forallb word_char w = true -> quk_value w w.
Proof.
  intros Hw out s Hs. exists (chars w). split; [|apply concat_chars].
  revert out. induction w as [|c w IH]; intros out; cbn [app chars map].
  - now rewrite app_nil_r.
  - simpl in Hw. apply andb_true_iff in Hw. destruct Hw as [Hc Hw].
    destruct (word_char_plain c Hc) as [Hq _].
    rewrite quk_run_copy; [|assumption|].
    + rewrite (IH Hw). f_equal. now rewrite <- app_assoc.
    + rewrite (no_colon_ahead_word w s Hw Hs). simpl. apply andb_false_r.
Qed.

Lemma quk_copies_value (t t' : text) : quk_copies t t' -> quk_value t t'.
Proof. intros H out s _. apply H. Qed.

Lemma closer_term (r : text) : closer_start r = true -> term_start r = true.
Proof.
  destruct r as [|c r]; simpl; [discriminate|]. intros H.
  now rewrite <- orb_assoc, H, orb_true_r.
Qed.

Lemma key_place_brace (out : list text) : key_place (out ++ [["{"%char]]) = true.
Proof. unfold key_place, prev_nonspace. now rewrite rev_unit. Qed.

Lemma key_place_comma (out : list text) : key_place (out ++ [[","%char]]) = true.
Proof. unfold key_place, prev_nonspace. now rewrite rev_unit. Qed.

Lemma quk_copies_comma : quk_copies [","%char] [","%char].
Proof. now apply quk_copies_plain. Qed.

Lemma quk_join_values (last : bool) (items items' : list text) :
  Forall2 quk_value items items' ->
  forall out r, closer_start r = true ->
    exists ch,
      quk_run false false None out (join last items ++ r) =
      quk_run false false None (out ++ ch) r /\
      concat ch = join last items'.
Proof.
  induction 1 as [|x x' items items' Hx F IH]; intros out r Hr.
  - exists []. now rewrite app_nil_r.
  - cbn [join]. rewrite <- app_assoc.
    destruct F as [|y y' items items' Hy F].
    + destruct last.
      * destruct (Hx out ([","%char] ++ r) eq_refl) as [ch1 [E1 C1]].
        destruct (quk_copies_comma (out ++ ch1) r) as [ch2 [E2 C2]].
        exists (ch1 ++ ch2).
        rewrite E1, E2, app_assoc, concat_app. now rewrite C1, C2.
      * destruct (Hx out r (closer_term r Hr)) as [ch1 [E1 C1]].
        exists ch1. cbn [app]. rewrite E1, C1. now rewrite app_nil_r.
    + destruct (Hx out (("," :: join last (y :: items)) ++ r) eq_refl)
        as [ch1 [E1 C1]].
      destruct (quk_copies_comma (out ++ ch1) (join last (y :: items) ++ r))
        as [ch2 [E2 C2]].
      destruct (IH ((out ++ ch1) ++ ch2) r Hr) as [ch3 [E3 C3]].
      exists (ch1 ++ ch2 ++ ch3).
      rewrite E1. cbn [app] in *. rewrite E2, E3.
      rewrite !app_assoc, !concat_app. rewrite C1, C2, C3.
      split; [reflexivity | now rewrite <- app_assoc].
Qed.

(** A member of a map: its key is quoted, or stays so, and its value is
    read as a value. *)
Lemma quk_member (sty : style) (k pv pv' : text) :
  is_ident k = true -> quk_value pv pv' ->
  forall out s, key_place out = true -> term_start s = true ->
    exists ch,
      quk_run false false None out ((print_key sty k ++ ":" :: pv) ++ s) =
      quk_run false false None (out ++ ch) s /\
      concat ch = (DQ :: k ++ [DQ]) ++ ":" :: pv'.
Proof.
  intros Hk Hv out s Hp Hs. unfold print_key. destruct (kq sty).
  - assert (Hq : quk_copies ((DQ :: k ++ [DQ]) ++ [":"%char])
                            ((DQ :: k ++ [DQ]) ++ [":"%char])).
    { apply quk_copies_app.
      - apply quk_copies_quoted; [reflexivity | reflexivity |].
        now apply instr_ident, is_ident_chars.
      - now apply quk_copies_plain. }
    destruct (Hq out (pv ++ s)) as [ch1 [E1 C1]].
    destruct (Hv (out ++ ch1) s Hs) as [ch2 [E2 C2]].
    exists (ch1 ++ ch2).
    replace (((DQ :: k ++ [DQ]) ++ ":" :: pv) ++ s)
      with (((DQ :: k ++ [DQ]) ++ [":"%char]) ++ pv ++ s)
      by (now rewrite <- !app_assoc).
    rewrite E1, E2, app_assoc, concat_app, C1, C2.
    now rewrite <- !app_assoc.
  - destruct k as [|c r]; [discriminate|].
    destruct (Hv (out ++ [[DQ] ++ (c :: r) ++ [DQ; ":"%char]]) s Hs)
      as [ch2 [E2 C2]].
    exists ([[DQ] ++ (c :: r) ++ [DQ; ":"%char]] ++ ch2).
    replace (((c :: r) ++ ":" :: pv) ++ s) with (c :: r ++ ":" :: pv ++ s)
      by (cbn [app]; now rewrite <- !app_assoc).
    rewrite quk_run_key by assumption.
    rewrite E2, app_assoc, concat_app, C2. simpl.
    now rewrite <- !app_assoc.
Qed.

Lemma quk_join_members (sty : style) (d : list (text * value))
      (pr pr' : value -> text) :
  Forall (fun kv => is_ident (fst kv) = true /\
                    quk_value (pr (snd kv)) (pr' (snd kv))) d ->
  forall out r, key_place out = true -> closer_start r = true ->
    exists ch,
      quk_run false false None out
              (join (tc sty)
                    (map (fun kv => print_key sty (fst kv) ++ ":" :: pr (snd kv)) d)
               ++ r) =
      quk_run false false None (out ++ ch) r /\
      concat ch =
      join (tc sty)
           (map (fun kv => (DQ :: fst kv ++ [DQ]) ++ ":" :: pr' (snd kv)) d).
Proof.
  induction 1 as [|[k v] d [Hk Hv] F IH]; intros out r Hp Hr.
  - exists []. now rewrite app_nil_r.
  - cbn [map join fst snd] in *. rewrite <- app_assoc.
    destruct d as [|[k2 v2] d].
    + cbn [map]. destruct (tc sty).
      * destruct (quk_member sty k _ _ Hk Hv out ([","%char] ++ r) Hp eq_refl)
          as [ch1 [E1 C1]].
        destruct (quk_copies_comma (out ++ ch1) r) as [ch2 [E2 C2]].
        exists (ch1 ++ ch2).
        rewrite E1, E2, app_assoc, concat_app. now rewrite C1, C2.
      * destruct (quk_member sty k _ _ Hk Hv out r Hp (closer_term r Hr))
          as [ch1 [E1 C1]].
        exists ch1. cbn [app]. rewrite E1, C1. now rewrite app_nil_r.
    + set (rest := join (tc sty)
                        (map (fun kv => print_key sty (fst kv) ++ ":" :: pr (snd kv))
                             ((k2, v2) :: d))) in *.
      destruct (quk_member sty k _ _ Hk Hv out (("," :: rest) ++ r) Hp eq_refl)
        as [ch1 [E1 C1]].
      destruct (IH ((out ++ ch1) ++ [[","%char]]) r
                   (key_place_comma (out ++ ch1)) Hr) as [ch3 [E3 C3]].
      exists (ch1 ++ [[","%char]] ++ ch3). split.
      * etransitivity; [exact E1|]. cbn [app].
        rewrite quk_run_copy by reflexivity.
        etransitivity; [exact E3|]. f_equal. now rewrite <- !app_assoc.
      * rewrite !concat_app, C1, C3. simpl. now rewrite <- app_assoc.
Qed.

(** [quote_unquoted_keys] quotes the keys of a serialized value and leaves
    the rest. *)
Lemma quk_value_print (sty : style) (v : value) :
  wf v = true ->
  quk_value (print sty v) (print (Style true (dq sty) (tc sty)) v).
Proof.
  induction v as [| b | z | f | x | l IH | d IH] using value_induction;
    intros W; cbn [print].
  - now apply quk_value_word.
  - destruct b; now apply quk_value_word.
  - apply quk_value_word. generalize (print_int_chars z).
    apply forallb_impl. intros c H. unfold word_char. now rewrite H.
  - discriminate.
  - apply quk_copies_value. unfold print_string. cbn [dq].
    apply quk_copies_quoted;
      [apply is_quote_quote_of | now destruct (dq sty) | apply instr_body].
  - intros out s Hs. cbn [tc dq].
    apply wf_list in W.
    assert (F : Forall2 quk_value (map (print sty) l)
                        (map (print (Style true (dq sty) (tc sty))) l)).
    { clear -IH W. induction IH as [|v l Hv _ IHl]; simpl; [constructor|].
      inversion W; subst. constructor; auto. }
    destruct (quk_join_values (tc sty) _ _ F (out ++ [["["%char]])
                              ("]"%char :: s) eq_refl) as [ch [E C]].
    exists ([["["%char]] ++ ch ++ [["]"%char]]).
    cbn [app]. rewrite quk_run_copy by reflexivity.
    rewrite <- app_assoc. cbn [app]. rewrite E.
    rewrite quk_run_copy by reflexivity.
    split; [now rewrite <- !app_assoc|].
    cbn [concat app]. rewrite concat_app, C. reflexivity.
  - intros out s Hs. cbn [tc dq kq].
    apply wf_dict in W. destruct W as [W _].
    assert (F : Forall (fun kv => is_ident (fst kv) = true /\
                                  quk_value (print sty (snd kv))
                                            (print (Style true (dq sty) (tc sty)) (snd kv)))
                       d).
    { clear -IH W. induction IH as [|[k v] d Hv _ IHd]; [constructor|].
      inversion W as [|? ? [Hk Hw] W']; subst. simpl in *.
      constructor; auto. }
    destruct (quk_join_members sty d _ _ F (out ++ [["{"%char]])
                               ("}"%char :: s) (key_place_brace out) eq_refl)
      as [ch [E C]].
    exists ([["{"%char]] ++ ch ++ [["}"%char]]).
    cbn [app]. rewrite quk_run_copy by reflexivity.
    rewrite <- app_assoc. cbn [app]. rewrite E.
    rewrite quk_run_copy by reflexivity.
    split; [now rewrite <- !app_assoc|].
    cbn [concat app]. rewrite concat_app, C. reflexivity.
Qed.

(** ** The normaliser on a serialized value *)

Lemma maps_whole (T : text -> text) (t t' : text) :
  T [] = [] -> maps T t t' -> T t = t'.
Proof.
  intros H0 H. rewrite <- (app_nil_r t), H, H0. apply app_nil_r.
Qed.

Lemma quote_unquoted_keys_print (sty : style) (v : value) :
  wf v = true ->
  quote_unquoted_keys (print sty v) = print (Style true (dq sty) (tc sty)) v.
Proof.
  intros W. destruct (quk_value_print sty v W [] [] eq_refl) as [ch [E C]].
  unfold quote_unquoted_keys. rewrite app_nil_r in E.
  unfold quk_run in E. cbn [length quk_loop] in E. now rewrite E.
Qed.

(** The four passes turn the serialized value, in any of its styles, into
    the text with quoted keys, double-quoted strings and no trailing
    comma. *)
Lemma js_object_to_json_text_print (sty : style) (v : value) :
  wf v = true -> js_object_to_json_text (print sty v) = print NORM v.
Proof.
  intros W. unfold js_object_to_json_text.
  rewrite (quote_unquoted_keys_print sty v W).
  change (single_quotes_to_double ?t) with (sqd_text false false false t).
  rewrite (maps_whole _ _ _ eq_refl
             (sqd_value (Style true (dq sty) (tc sty)) v eq_refl W)).
  change (strip_object_freeze ?t) with (sof_text false false None t).
  cbn [tc].
  rewrite (maps_whole _ _ _ eq_refl
             (sof_value (Style true true (tc sty)) v eq_refl eq_refl W)).
  change (remove_trailing_commas ?t) with (rtc_text false false None t).
  apply (maps_whole _ _ _ eq_refl
           (rtc_value (Style true true (tc sty)) v eq_refl eq_refl W)).
Qed.

(** ** The decoder on the normalised text *)

Lemma scanstring_char (c : ascii) (acc t : text) :
  eqc c "'" = false ->
  Json.scanstring acc (esc_dq c ++ t) = Json.scanstring (acc ++ [c]) t.
Proof. ascii_cases c; intros H; try discriminate H; reflexivity. Qed.

Lemma scanstring_body (x : text) :
  forall acc t,
    forallb (fun c => negb (eqc c "'")) x = true ->
    Json.scanstring acc (flat_map esc_dq x ++ DQ :: t) = Some (acc ++ x, t).
Proof.
  induction x as [|c x IH]; intros acc t; cbn [flat_map forallb app].
  - intros _. simpl. now rewrite app_nil_r.
  - rewrite andb_true_iff, negb_true_iff. intros [H1 H2].
    rewrite <- app_assoc, scanstring_char by assumption.
    rewrite IH by assumption. now rewrite <- app_assoc.
Qed.

Lemma scanstring_ident (k : text) :
  forall acc t,
    forallb ident_char k = true ->
    Json.scanstring acc (k ++ DQ :: t) = Some (acc ++ k, t).
Proof.
  induction k as [|c k IH]; intros acc t; cbn [forallb app].
  - intros _. simpl. now rewrite app_nil_r.
  - rewrite andb_true_iff. intros [H1 H2].
    destruct (ident_char_plain c H1) as [E1 [E2 [_ [_ [_ [_ [_ E3]]]]]]].
    cbn [Json.scanstring]. rewrite E2, E1, E3.
    rewrite IH by assumption. now rewrite <- app_assoc.
Qed.

(** The digits of [n] are digits, they write [n], and they start with a
    zero only when [n] is zero. *)
Lemma digits_of_spec (fuel : nat) :
  forall n acc,
    (n < 2 ^ N.of_nat (S fuel))%N ->
    exists ds,
      digits_of (S fuel) n acc = ds ++ acc /\
      forallb Json.is_digit ds = true /\
      Json.digits_val ds = n /\
      (n = 0%N -> ds = ["0"%char]) /\
      (n <> 0%N -> exists c t, ds = c :: t /\ eqc c "0" = false).
Proof.
  induction fuel as [|fuel IH]; intros n acc Hn;
    change (digits_of (S ?f) n acc)
      with (if (n <? 10)%N then digit_char (n mod 10) :: acc
            else digits_of f (n / 10) (digit_char (n mod 10) :: acc)).
  - assert (n < 10)%N by (simpl in Hn; lia).
    destruct (N.ltb_spec n 10); [|lia].
    rewrite N.mod_small by assumption.
    destruct (digit_char_spec n H) as [D1 [D2 D3]].
    exists [digit_char n]. repeat split.
    + simpl. now rewrite D1.
    + unfold Json.digits_val. cbn [fold_left]. rewrite D2. lia.
    + now intros ->.
    + intros N0. exists (digit_char n), []. split; [reflexivity|].
      destruct (eqc (digit_char n) "0"); [|reflexivity].
      exfalso. apply N0, D3. reflexivity.
  - destruct (N.ltb_spec n 10) as [L | L].
    + rewrite N.mod_small by assumption.
      destruct (digit_char_spec n L) as [D1 [D2 D3]].
      exists [digit_char n]. repeat split.
      * simpl. now rewrite D1.
      * unfold Json.digits_val. cbn [fold_left]. rewrite D2. lia.
      * now intros ->.
      * intros N0. exists (digit_char n), []. split; [reflexivity|].
        destruct (eqc (digit_char n) "0"); [|reflexivity].
        exfalso. apply N0, D3. reflexivity.
    + assert (Hd : (n / 10 < 2 ^ N.of_nat (S fuel))%N).
      { apply N.Div0.div_lt_upper_bound.
        replace (N.of_nat (S (S fuel))) with (N.succ (N.of_nat (S fuel))) in Hn
          by lia.
        rewrite N.pow_succ_r' in Hn. lia. }
      destruct (IH (n / 10)%N (digit_char (n mod 10) :: acc) Hd)
        as [ds [E [D [V [_ NZ]]]]].
      assert (M : (n mod 10 < 10)%N) by (apply N.mod_lt; lia).
      destruct (digit_char_spec _ M) as [D1 [D2 _]].
      exists (ds ++ [digit_char (n mod 10)]). repeat split.
      * rewrite E. now rewrite <- app_assoc.
      * rewrite forallb_app, D. simpl. now rewrite D1.
      * unfold Json.digits_val in *. rewrite fold_left_app. cbn [fold_left].
        rewrite V, D2. pose proof (N.div_mod n 10). lia.
      * intros ->. simpl in L. lia.
      * intros _. destruct NZ as [c [t [-> Hc]]].
        { intros Z0. apply N.div_small_iff in Z0; lia. }
        exists c, (t ++ [digit_char (n mod 10)]). now split.
Qed.

Lemma decimal_spec (n : N) :
  forallb Json.is_digit (decimal n) = true /\
  Json.digits_val (decimal n) = n /\
  (n = 0%N -> decimal n = ["0"%char]) /\
  (n <> 0%N -> exists c t, decimal n = c :: t /\ eqc c "0" = false).
Proof.
  unfold decimal.
  destruct (digits_of_spec (N.to_nat (N.log2 n)) n []) as [ds [E H]].
  - destruct (N.eq_dec n 0) as [-> | N0]; [reflexivity|].
    replace (N.of_nat (S (N.to_nat (N.log2 n)))) with (N.succ (N.log2 n)) by lia.
    apply N.log2_spec. lia.
  - rewrite E, app_nil_r. exact H.
Qed.

Lemma term_start_cases (s : text) :
  term_start s = true ->
  s = [] \/ exists c t, s = c :: t /\ (c = "," \/ c = "]" \/ c = "}")%char.
Proof.
  destruct s as [|c t]; [auto|]. simpl. intros H. right. exists c, t.
  split; [reflexivity|].
  apply orb_true_iff in H. destruct H as [H | H].
  - apply orb_true_iff in H. destruct H as [H | H]; apply eqc_eq in H; auto.
  - apply eqc_eq in H; auto.
Qed.

Lemma term_start_tail (s : text) :
  term_start s = true ->
  Json.frac_part s = None /\ Json.exp_part s = None /\ Json.skip_ws s = s /\
  match s with [] => True | c :: _ => Json.is_digit c = false end.
Proof.
  intros H. destruct (term_start_cases s H) as [-> | [c [t [-> Hc]]]].
  - repeat split.
  - destruct Hc as [-> | [-> | ->]]; repeat split; destruct t; reflexivity.
Qed.

Lemma is_digit_plain (c : ascii) :
  Json.is_digit c = true -> eqc c "-" = false /\ Json.is_ws c = false.
Proof. ascii_cases c; vm_compute; intros H; split; congruence. Qed.

Lemma int_part_decimal (n : N) (s : text) :
  term_start s = true ->
  Json.int_part (decimal n ++ s) = Some (decimal n, s).
Proof.
  intros Hs. destruct (decimal_spec n) as [D [_ [Z0 NZ]]].
  destruct (term_start_tail s Hs) as [_ [_ [_ Hd]]].
  destruct (N.eq_dec n 0) as [E | E].
  - rewrite (Z0 E). reflexivity.
  - destruct (NZ E) as [c [t [Ed Hc]]]. rewrite Ed in *. cbn [app Json.int_part].
    simpl in D. apply andb_true_iff in D. destruct D as [D1 D2].
    rewrite Hc, D1.
    rewrite (takewhile_app Json.is_digit t s D2),
            (dropwhile_app Json.is_digit t s D2); auto.
Qed.

Lemma number_body_decimal (neg : bool) (n : N) (s : text) :
  term_start s = true ->
  Json.number_body neg (decimal n ++ s)
  = Some (VInt (if neg then (- Z.of_N n)%Z else Z.of_N n), s).
Proof.
  intros Hs. unfold Json.number_body. rewrite (int_part_decimal n s Hs).
  destruct (term_start_tail s Hs) as [-> [-> _]].
  destruct (decimal_spec n) as [_ [-> _]]. reflexivity.
Qed.

Lemma parse_number_int (z : Z) (s : text) :
  term_start s = true ->
  Json.parse_number (print_int z ++ s) = Some (VInt z, s).
Proof.
  intros Hs. unfold print_int, Json.parse_number.
  destruct (Z.ltb_spec z 0) as [L | L].
  - cbn [app]. change (eqc "-" "-") with true. cbn iota.
    rewrite (number_body_decimal true (Z.abs_N z) s Hs).
    rewrite N2Z.inj_abs_N. replace (- Z.abs z)%Z with z by lia. reflexivity.
  - assert (E : exists c t, decimal (Z.abs_N z) = c :: t /\
                            Json.is_digit c = true).
    { destruct (decimal_spec (Z.abs_N z)) as [D [_ [Z0 NZ]]].
      destruct (N.eq_dec (Z.abs_N z) 0) as [E | E].
      - rewrite (Z0 E). eauto.
      - destruct (NZ E) as [c [t [Ed _]]]. rewrite Ed in *. simpl in D.
        apply andb_true_iff in D. destruct D. eauto. }
    destruct E as [c [t [Ed Hc]]].
    destruct (is_digit_plain c Hc) as [Hm _].
    pose proof (number_body_decimal false (Z.abs_N z) s Hs) as P.
    rewrite Ed in *. cbn [app] in *. rewrite Hm.
    rewrite P. rewrite N2Z.inj_abs_N.
    replace (Z.abs z) with z by lia. reflexivity.
Qed.

Lemma int_char_number (c : ascii) (t : text) (f : nat)
      (r : value * text) :
  int_char c = true ->
  Json.parse_number (c :: t) = Some r ->
  Json.scan_once (S f) (c :: t) = Some r.
Proof.
  intros Hc Hp. cbn [Json.scan_once].
  ascii_cases c; try discriminate Hc;
    (cbn -[Json.parse_number]; cbn -[Json.parse_number] in Hp;
     now rewrite Hp).
Qed.

Lemma scan_once_int (z : Z) (s : text) (f : nat) :
  term_start s = true ->
  Json.scan_once (S f) (print_int z ++ s) = Some (VInt z, s).
Proof.
  intros Hs. pose proof (parse_number_int z s Hs) as P.
  pose proof (print_int_chars z) as C.
  destruct (print_int z) as [|c t] eqn:E.
  - exfalso. pose proof (print_int_start z []) as H. rewrite E in H.
    discriminate.
  - simpl in C. apply andb_true_iff in C. destruct C as [C _].
    cbn [app] in *. now apply int_char_number.
Qed.

Lemma istart_not_ws (c : ascii) : istart c = true -> Json.is_ws c = false.
Proof. ascii_cases c; vm_compute; congruence. Qed.

Lemma skip_ws_item (t : text) : item_start t = true -> Json.skip_ws t = t.
Proof.
  destruct t as [|c t]; simpl; [discriminate|]. intros H.
  unfold Json.skip_ws. simpl. now rewrite (istart_not_ws c H).
Qed.

Lemma print_nonempty (sty : style) (v : value) :
  wf v = true -> 1 <= length (print sty v).
Proof.
  intros W. pose proof (print_start sty v [] W) as H. rewrite app_nil_r in H.
  destruct (print sty v); [discriminate | simpl; lia].
Qed.

Lemma dict_set_fresh (acc : list (text * value)) (k : text) (v : value) :
  ~ In k (map fst acc) -> dict_set eqt acc k v = acc ++ [(k, v)].
Proof.
  induction acc as [|[k' v'] acc IH]; simpl; intros N; [reflexivity|].
  destruct (eqt k k') eqn:E.
  - apply eqt_eq in E. subst. tauto.
  - rewrite IH; tauto.
Qed.

Lemma decode_items (l : list value) :
  Forall item_ok l -> l <> [] ->
  forall f acc s,
    length (join false (map (print NORM) l)) < f ->
    Json.scan_items f acc (join false (map (print NORM) l) ++ "]" :: s)
    = Some (acc ++ l, s).
Proof.
  induction 1 as [|x l [Wx Hx] F IH]; intros NE f acc s Hf; [congruence|].
  destruct f as [|f]; [lia|]. cbn [map join] in *.
  rewrite length_app in Hf. pose proof (print_nonempty NORM x Wx) as Px.
  cbn [Json.scan_items]. rewrite <- app_assoc.
  destruct l as [|y l].
  - cbn [map app] in *. rewrite (Hx f); [|cbn [length] in Hf; lia | reflexivity].
    reflexivity.
  - cbn [map] in *. cbn [app] in *.
    rewrite (Hx f); [|cbn [length] in Hf; lia | reflexivity].
    change (Json.skip_ws ("," :: ?t)) with ("," :: t). cbn iota.
    change (eqc "," "]") with false. change (eqc "," ",") with true. cbn iota.
    inversion F as [|? ? [Wy Hy] F']; subst.
    rewrite skip_ws_item.
    + rewrite IH; [now rewrite <- app_assoc | discriminate | cbn [length] in Hf; lia].
    + cbn [join]. rewrite <- app_assoc. now apply print_start.
Qed.

Lemma decode_members (d : list (text * value)) :
  Forall (fun kv => is_ident (fst kv) = true /\ item_ok (snd kv)) d ->
  d <> [] ->
  forall f acc s,
    NoDup (map fst (acc ++ d)) ->
    length (join false (map member d)) < f ->
    Json.scan_members f acc (join false (map member d) ++ "}" :: s)
    = Some (acc ++ d, s).
Proof.
  induction 1 as [|[k x] d [Hk [Wx Hx]] F IH]; intros NE f acc s ND Hf;
    [congruence|].
  destruct f as [|f]; [lia|]. cbn [map join fst snd] in *.
  rewrite length_app in Hf. pose proof (print_nonempty NORM x Wx) as Px.
  assert (Fresh : ~ In k (map fst acc)).
  { rewrite map_app in ND. cbn [map fst] in ND.
    apply NoDup_remove_2 in ND. intros I. apply ND, in_or_app. auto. }
  assert (ND' : NoDup (map fst ((acc ++ [(k, x)]) ++ d)))
    by now rewrite <- app_assoc.
  unfold member at 1 3. cbn [fst snd print_key NORM kq].
  unfold member at 1 in Hf. cbn [fst snd print_key NORM kq] in Hf.
  rewrite !length_app in Hf. cbn [length] in Hf. rewrite length_app in Hf.
  cbn [length] in Hf.
  cbn [app Json.scan_members]. change (eqc DQ DQ) with true. cbn iota.
  rewrite <- !app_assoc. cbn [app].
  rewrite (scanstring_ident k [] _ (is_ident_chars k Hk)). cbn [app].
  change (Json.skip_ws (":" :: ?t)) with (":" :: t). cbn iota.
  change (eqc ":" ":") with true. cbn iota.
  rewrite skip_ws_item by now apply print_start.
  destruct d as [|[k2 y] d].
  - cbn [map app] in *. rewrite (Hx f); [|lia | reflexivity].
    change (Json.skip_ws ("}" :: ?t)) with ("}" :: t). cbn iota.
    change (eqc "}" "}") with true. cbn iota.
    now rewrite dict_set_fresh.
  - cbn [map] in *. cbn [app] in *.
    rewrite (Hx f); [|lia | reflexivity].
    change (Json.skip_ws ("," :: ?t)) with ("," :: t). cbn iota.
    change (eqc "," "}") with false. change (eqc "," ",") with true. cbn iota.
    rewrite dict_set_fresh by assumption.
    rewrite skip_ws_item.
    + rewrite IH; [now rewrite <- app_assoc | discriminate | assumption |].
      cbn [length] in Hf. lia.
    + reflexivity.
Qed.

Lemma forallb_Forall {A} (p : A -> bool) (l : list A) :
  forallb p l = true <-> Forall (fun x => p x = true) l.
Proof.
  rewrite forallb_forall, Forall_forall. reflexivity.
Qed.

(** The decoder reads the normalised text of a value back as the value. *)
Lemma decode_value (v : value) :
  wf v = true -> no_apostrophe v = true ->
  forall f, length (print NORM v) <= f -> decodes f v.
Proof.
  induction v as [| b | z | fl | x | l IH | d IH] using value_induction;
    intros W A f Hf s Hs; cbn [print] in *.
  - destruct f as [|f]; [simpl in Hf; lia | reflexivity].
  - destruct f as [|f]; [destruct b; simpl in Hf; lia|].
    destruct b; reflexivity.
  - pose proof (print_nonempty NORM (VInt z) eq_refl) as P. cbn [print] in P.
    destruct f as [|f]; [lia|]. now apply scan_once_int.
  - discriminate.
  - destruct f as [|f]; [simpl in Hf; lia|].
    unfold print_string. cbn [NORM dq quote_of app Json.scan_once].
    change (eqc DQ DQ) with true. cbn iota.
    rewrite <- app_assoc. cbn [app].
    now rewrite (scanstring_body x [] s A).
  - destruct f as [|f]; [simpl in Hf; lia|].
    cbn [NORM tc app Json.scan_once].
    change (eqc "[" DQ) with false. change (eqc "[" "{") with false.
    change (eqc "[" "[") with true. cbn iota.
    rewrite <- app_assoc. cbn [app].
    assert (F : Forall item_ok l).
    { apply wf_list in W. cbn [no_apostrophe] in A. apply forallb_Forall in A.
      clear -IH W A. induction IH as [|v l Hv _ IHl]; [constructor|].
      inversion W; inversion A; subst. constructor; [split|]; auto. }
    destruct l as [|y l].
    + reflexivity.
    + assert (St : item_start (join false (map (print NORM) (y :: l)) ++ "]" :: s)
                   = true).
      { cbn [map join]. rewrite <- app_assoc. apply print_start.
        inversion F as [|? ? [Wy _] _]. exact Wy. }
      rewrite (skip_ws_item _ St).
      destruct (join false (map (print NORM) (y :: l)) ++ "]" :: s)
        as [|c2 s2] eqn:E; [discriminate|].
      simpl in St. destruct (istart_plain c2 St) as [_ [_ [-> _]]].
      rewrite <- E.
      rewrite (decode_items (y :: l) F); [reflexivity | discriminate |].
      change (tc NORM) with false in Hf.
      cbn [length] in Hf. rewrite length_app in Hf. cbn [length] in Hf. lia.
  - destruct f as [|f]; [simpl in Hf; lia|].
    cbn [NORM tc app Json.scan_once].
    change (eqc "{" DQ) with false. change (eqc "{" "{") with true. cbn iota.
    rewrite <- app_assoc. cbn [app].
    pose proof (wf_dict _ W) as [Wd ND].
    assert (F : Forall (fun kv => is_ident (fst kv) = true /\ item_ok (snd kv)) d).
    { cbn [no_apostrophe] in A. apply forallb_Forall in A.
      clear -IH Wd A. induction IH as [|kv d Hv _ IHd]; [constructor|].
      inversion Wd as [|? ? [Hk Hw] Wd']; inversion A; subst.
      constructor; [split; [|split]|]; auto. }
    change (map (fun kv => print_key NORM (fst kv) ++ ":" ::
                           print NORM (snd kv)) d)
      with (map member d) in *.
    change (tc NORM) with false in *.
    destruct d as [|[k y] d].
    + reflexivity.
    + assert (E : exists s2, join false (map member ((k, y) :: d)) ++ "}" :: s
                             = DQ :: s2).
      { cbn [map join]. unfold member at 1. cbn [fst print_key NORM kq].
        rewrite <- !app_assoc. cbn [app]. eauto. }
      destruct E as [s2 E].
      assert (Sk : Json.skip_ws (DQ :: s2) = DQ :: s2) by reflexivity.
      rewrite E, Sk. change (eqc DQ "}") with false. cbn iota. rewrite <- E.
      rewrite (decode_members ((k, y) :: d) F);
        [reflexivity | discriminate | exact ND |].
      change (tc NORM) with false in Hf.
      cbn [length] in Hf. rewrite length_app in Hf. cbn [length] in Hf. lia.
Qed.

Lemma loads_print (v : value) :
  wf v = true -> no_apostrophe v = true -> Json.loads (print NORM v) = Some v.
Proof.
  intros W A. unfold Json.loads.
  pose proof (print_start NORM v [] W) as St. rewrite app_nil_r in St.
  rewrite (skip_ws_item _ St).
  pose proof (decode_value v W A (S (length (print NORM v)))) as D.
  specialize (D (Nat.le_succ_diag_r _) [] eq_refl).
  rewrite app_nil_r in D. now rewrite D.
Qed.

(** ** The round trip and the fixed point of the normaliser *)

(** C1, as stated, fails: the map with the one string [it's] is well
    formed, the locator returns its literal, whose string is written
    ['it\'s'], and the normalised text keeps the backslash before the
    quote, which the strict decoder rejects. *)
Lemma round_trip_fails_on_apostrophe :
  wf its = true /\
  extract_object_literal (document MARKER its (str ";")) MARKER
  = Ok (str "{a:'it\'s',}") /\
  js_object_to_json_text (str "{a:'it\'s',}") = qstr "{`a`:`it\'s`}" /\
  Json.loads (qstr "{`a`:`it\'s`}") = None.
Proof. repeat split. Qed.

(** The rejection is not a lack of fuel. *)
Lemma apostrophe_rejected_with_any_fuel (f : nat) :
  Json.scan_once f (qstr "{`a`:`it\'s`}") = None.
Proof. destruct f as [|[|[|f]]]; reflexivity. Qed.

(** C1, amended. For every well-formed map (its keys are identifiers,
    pairwise different in each map, and it holds maps, sequences, strings,
    integers, booleans and null) none of whose strings holds a single
    quote: serialized with bare keys, single-quoted strings and trailing
    commas, put in the [Object.freeze] wrapper after a marker that holds no
    brace, the document gives back the map through
    [extract_object_literal], [js_object_to_json_text] and the strict
    decoder. *)
Theorem round_trip (marker tail : text) (d : list (text * value)) :
  no_brace marker = true ->
  wf (VDict d) = true ->
  no_apostrophe (VDict d) = true ->
  exists lit,
    extract_object_literal (document marker (VDict d) tail) marker = Ok lit /\
    Json.loads (js_object_to_json_text lit) = Some (VDict d).
Proof.
  intros Hm W A. exists (print JS (VDict d)). split.
  - now apply extract_document.
  - rewrite (js_object_to_json_text_print JS (VDict d) W).
    now apply loads_print.
Qed.

Lemma round_trip_witness :
  exists lit,
    extract_object_literal (document MARKER (VDict demo_dict) (str ";")) MARKER
    = Ok lit /\
    Json.loads (js_object_to_json_text lit) = Some (VDict demo_dict).
Proof.
  apply (round_trip MARKER (str ";") demo_dict); reflexivity.
Defined.

(** C2, as stated, fails: of two commas before a closing brace the pass
    removes the one that stands just before the brace, so a second run
    removes the other. *)
Lemma normaliser_not_idempotent :
  js_object_to_json_text (str ",,}") = str ",}" /\
  js_object_to_json_text (js_object_to_json_text (str ",,}")) = str "}" /\
  js_object_to_json_text (js_object_to_json_text (str ",,}"))
  <> js_object_to_json_text (str ",,}").
Proof. repeat split. vm_compute. discriminate. Qed.

(** A wrapper inside a wrapper is copied, not stripped: the second run
    strips it. *)
Lemma nested_wrapper_survives :
  js_object_to_json_text (str "Object.freeze(Object.freeze(1))")
  = str "Object.freeze(1)" /\
  js_object_to_json_text (str "Object.freeze(1)") = str "1".
Proof. repeat split. Qed.

(** C2, amended. On the literal of a well-formed data value (serialized
    with bare keys, single-quoted strings and trailing commas) the output of
    the normaliser is a fixed point of the normaliser: a second run returns
    it unchanged. *)
Theorem normaliser_fixed_point (v : value) :
  wf v = true ->
  js_object_to_json_text (js_object_to_json_text (print JS v))
  = js_object_to_json_text (print JS v).
Proof.
  intros W. rewrite (js_object_to_json_text_print JS v W).
  apply (js_object_to_json_text_print NORM v W).
Qed.

Lemma normaliser_fixed_point_witness :
  js_object_to_json_text (js_object_to_json_text (print JS demo_value))
  = js_object_to_json_text (print JS demo_value).
Proof. apply (normaliser_fixed_point demo_value). reflexivity. Defined.

(** ** What the locator finds *)

Lemma startswith_iff (s sub : text) :
  startswith s sub = true <-> exists post, s = sub ++ post.
Proof.
  revert s. induction sub as [|x sub IH]; intros s; simpl.
  - split; eauto.
  - destruct s as [|y s].
    + split; [discriminate | intros [post E]; discriminate].
    + rewrite andb_true_iff, eqc_eq, IH. split.
      * intros [-> [post ->]]. eauto.
      * intros [post E]. inversion E; subst. eauto.
Qed.

(** [find] returns the place of an occurrence. *)
Lemma find_at_some (sub s : text) :
  forall pos n,
    find_at sub s pos = Some n ->
    exists pre post, s = pre ++ sub ++ post /\ n = pos + length pre.
Proof.
  induction s as [|c s IH]; intros pos n; cbn [find_at].
  - destruct (startswith [] sub) eqn:E; [|discriminate].
    intros [= <-]. apply startswith_iff in E. destruct E as [post E].
    exists [], post. split; [exact E | simpl; lia].
  - destruct (startswith (c :: s) sub) eqn:E.
    + intros [= <-]. apply startswith_iff in E. destruct E as [post E].
      exists [], post. split; [exact E | simpl; lia].
    + intros H. destruct (IH _ _ H) as [pre [post [-> ->]]].
      exists (c :: pre), post. split; [reflexivity | simpl; lia].
Qed.

(** [find] returns [-1] exactly when the text does not occur. *)
Lemma find_at_none (sub s : text) :
  forall pos,
    find_at sub s pos = None <-> forall pre post, s <> pre ++ sub ++ post.
Proof.
  induction s as [|c s IH]; intros pos; cbn [find_at].
  - destruct (startswith [] sub) eqn:E.
    + apply startswith_iff in E. destruct E as [post E]. split; [discriminate|].
      intros H. exfalso. apply (H [] post). exact E.
    + split; [|reflexivity]. intros _ pre post H.
      destruct pre; [|discriminate].
      assert (startswith [] sub = true); [|congruence].
      apply startswith_iff. eauto.
  - destruct (startswith (c :: s) sub) eqn:E.
    + apply startswith_iff in E. destruct E as [post E]. split; [discriminate|].
      intros H. exfalso. apply (H [] post). exact E.
    + rewrite IH. split.
      * intros H pre post Ep. destruct pre as [|c' pre].
        -- assert (startswith (c :: s) sub = true); [|congruence].
           apply startswith_iff. eauto.
        -- inversion Ep; subst. apply (H pre post). reflexivity.
      * intros H pre post ->. apply (H (c :: pre) post). reflexivity.
Qed.

(** X1. The marker-not-found error is raised exactly when the marker does
    not occur in the document. *)
Lemma extract_marker_not_found (html marker : text) :
  extract_object_literal html marker = Raise MarkerNotFound <->
  forall pre post, html <> pre ++ marker ++ post.
Proof.
  rewrite <- (find_at_none marker html 0).
  unfold extract_object_literal, find. cbn [Nat.leb skipn].
  destruct (find_at marker html 0) as [i|]; [|tauto].
  split; [|discriminate].
  destruct (if i <=? length html then _ else None); [|discriminate].
  destruct (scan_braces _ _ _ _ _ _); discriminate.
Qed.

Lemma find_at_no_brace (m post : text) :
  forall pos,
    no_brace m = true ->
    find_at (str "{") (m ++ post) pos = find_at (str "{") post (pos + length m).
Proof.
  change (str "{") with ["{"%char].
  induction m as [|c m IH]; intros pos; simpl.
  - intros _. now rewrite Nat.add_0_r.
  - rewrite andb_true_iff, negb_true_iff. intros [H1 H2].
    rewrite eqc_sym, H1. simpl. rewrite IH by assumption. f_equal. lia.
Qed.

(** For a marker that holds no brace, the brace that the locator takes is
    the first one at or after the end of the marker. *)
Lemma find_brace_after_marker (html marker : text) (i : nat) :
  no_brace marker = true ->
  find html marker 0 = Some i ->
  find html (str "{") i = find html (str "{") (i + length marker).
Proof.
  intros Hm. unfold find at 1. cbn [Nat.leb skipn]. intros H.
  destruct (find_at_some _ _ _ _ H) as [pre [post [-> ->]]].
  unfold find. cbn [Nat.add].
  rewrite !length_app.
  replace (length pre <=? length pre + (length marker + length post)) with true
    by (symmetry; apply Nat.leb_le; lia).
  replace (length pre + length marker <=?
           length pre + (length marker + length post)) with true
    by (symmetry; apply Nat.leb_le; lia).
  rewrite skipn_app_length.
  replace (pre ++ marker ++ post) with ((pre ++ marker) ++ post)
    by now rewrite <- app_assoc.
  replace (length pre + length marker) with (length (pre ++ marker))
    by now rewrite length_app.
  rewrite skipn_app_length, length_app.
  now apply find_at_no_brace.
Qed.

(** ** The fuel of the loops is enough *)

Lemma dropwhile_length {A} (p : A -> bool) (l : list A) :
  length (dropwhile p l) <= length l.
Proof.
  induction l as [|x l IH]; simpl; [lia|]. destruct (p x); simpl; lia.
Qed.

Lemma tag_end_length (s s' : text) :
  tag_end s = Some s' -> length s' < length s.
Proof.
  revert s'. induction s as [|c s IH]; simpl; intros s'; [discriminate|].
  destruct (eqc c ">"); [intros [= <-]; lia|].
  destruct (code c =? 10); [discriminate|].
  intros H. apply IH in H. lia.
Qed.

(** [re.sub] ends: more fuel than the length of the text changes nothing. *)
Lemma sub_tags_fuel (f f' : nat) (s : text) :
  length s <= f -> length s <= f' -> sub_tags f s = sub_tags f' s.
Proof.
  revert f' s. induction f as [|f IH]; intros f' s Hf Hf'.
  - destruct s; [|simpl in Hf; lia]. destruct f'; reflexivity.
  - destruct f' as [|f'].
    + destruct s; [reflexivity | simpl in Hf'; lia].
    + destruct s as [|c s]; [reflexivity|]. simpl in Hf, Hf'.
      cbn [sub_tags]. destruct (eqc c "<").
      * destruct (tag_end s) as [s''|] eqn:E.
        -- apply tag_end_length in E. apply IH; lia.
        -- f_equal. apply IH; lia.
      * f_equal. apply IH; lia.
Qed.

Lemma sof_string_length (q : ascii) (js : text) :
  forall esc2 out, length (snd (sof_string q esc2 out js)) <= length js.
Proof.
  induction js as [|cc rest IH]; intros esc2 out; cbn [sof_string]; [simpl; lia|].
  destruct esc2; [specialize (IH false (out ++ [[cc]])); simpl; lia|].
  destruct (eqc cc "\"); [specialize (IH true (out ++ [[cc]])); simpl; lia|].
  destruct (eqc cc q); [simpl; lia|].
  specialize (IH false (out ++ [[cc]])). simpl. lia.
Qed.

Lemma sof_call_length (fuel : nat) :
  forall par out js, length (snd (sof_call fuel par out js)) <= length js.
Proof.
  induction fuel as [|fuel IH]; intros par out js; cbn [sof_call]; [simpl; lia|].
  destruct (par >? 0)%Z; [|simpl; lia].
  destruct js as [|c rest]; [simpl; lia|].
  destruct (is_quote c).
  - pose proof (sof_string_length c rest false (out ++ [[c]])) as L.
    destruct (sof_string c false (out ++ [[c]]) rest) as [out' rest'].
    specialize (IH par out' rest'). simpl in *. lia.
  - destruct (eqc c "(").
    + specialize (IH (par + 1)%Z (out ++ [[c]]) rest). simpl. lia.
    + destruct (eqc c ")").
      * destruct (par - 1 =? 0)%Z; [simpl; lia|].
        specialize (IH (par - 1)%Z (out ++ [[c]]) rest). simpl. lia.
      * specialize (IH par (out ++ [[c]]) rest). simpl. lia.
Qed.

(** The loop over the argument of [Object.freeze(] ends. *)
Lemma sof_call_fuel (f : nat) :
  forall f' par out js,
    length js <= f -> length js <= f' ->
    sof_call f par out js = sof_call f' par out js.
Proof.
  induction f as [|f IH]; intros f' par out js Hf Hf'.
  - destruct js; [|simpl in Hf; lia]. destruct f'; cbn [sof_call]; [reflexivity|].
    destruct (par >? 0)%Z; reflexivity.
  - destruct f' as [|f'].
    + destruct js; [|simpl in Hf'; lia]. cbn [sof_call].
      destruct (par >? 0)%Z; reflexivity.
    + cbn [sof_call]. destruct (par >? 0)%Z; [|reflexivity].
      destruct js as [|c rest]; [reflexivity|]. simpl in Hf, Hf'.
      destruct (is_quote c).
      * pose proof (sof_string_length c rest false (out ++ [[c]])) as L.
        destruct (sof_string c false (out ++ [[c]]) rest) as [out' rest'].
        simpl in L. apply IH; lia.
      * destruct (eqc c "("); [apply IH; lia|].
        destruct (eqc c ")"); [|apply IH; lia].
        destruct (par - 1 =? 0)%Z; [reflexivity | apply IH; lia].
Qed.

(** The outer loop of [strip_object_freeze] ends. *)
Lemma sof_loop_fuel (f : nat) :
  forall f' in_str esc quote out js,
    length js <= f -> length js <= f' ->
    sof_loop f in_str esc quote out js = sof_loop f' in_str esc quote out js.
Proof.
  induction f as [|f IH]; intros f' in_str esc quote out js Hf Hf'.
  - destruct js; [|simpl in Hf; lia]. destruct f'; reflexivity.
  - destruct f' as [|f'].
    + destruct js; [reflexivity | simpl in Hf'; lia].
    + destruct js as [|ch rest]; [reflexivity|]. simpl in Hf, Hf'.
      cbn [sof_loop]. destruct in_str.
      * destruct esc; [apply IH; lia|].
        destruct (eqc ch "\"); [apply IH; lia|].
        destruct (is_q quote ch); apply IH; lia.
      * destruct (is_quote ch); [apply IH; lia|].
        destruct (startswith (ch :: rest) (str "Object.freeze(")); [|apply IH; lia].
        set (js1 := skipn _ (ch :: rest)).
        assert (L1 : length js1 <= length rest).
        { subst js1. change (length (str "Object.freeze(")) with 14.
          rewrite length_skipn. simpl. lia. }
        pose proof (sof_call_length (S (length js1)) 1 out js1) as L.
        destruct (sof_call (S (length js1)) 1 out js1) as [out' js2].
        simpl in L. apply IH; lia.
Qed.

(** ** The decoder's fuel is enough *)

Section DecoderFuel.
Import Json.

Lemma scanstring_length_le (n : nat) :
  forall s acc t s',
    length s <= n -> scanstring acc s = Some (t, s') -> length s' < length s.
Proof.
  induction n as [|n IH]; intros s acc t s' Hn.
  - destruct s; [discriminate | simpl in Hn; lia].
  - destruct s as [|c s1]; cbn [scanstring]; [discriminate|]. simpl in Hn.
    destruct (eqc c DQ); [intros [= _ <-]; simpl; lia|].
    destruct (eqc c "\").
    + destruct s1 as [|e s2]; [discriminate|].
      destruct (eqc e "u").
      * destruct s2 as [|h1 [|h2 [|h3 [|h4 s3]]]]; try discriminate.
        destruct (hex_val h1), (hex_val h2), (hex_val h3), (hex_val h4);
          try discriminate.
        destruct (_ <? 256); [|discriminate].
        intros H. apply IH in H; simpl in *; lia.
      * destruct (unescape e); [|discriminate].
        intros H. apply IH in H; simpl in *; lia.
    + destruct (code c <? 32); [discriminate|].
      intros H. apply IH in H; simpl in *; lia.
Qed.

Lemma scanstring_length (s acc t s' : text) :
  scanstring acc s = Some (t, s') -> length s' < length s.
Proof. now apply (scanstring_length_le (length s)). Qed.

Lemma int_part_length (s ds s1 : text) :
  int_part s = Some (ds, s1) -> length s1 < length s.
Proof.
  unfold int_part. destruct s as [|c s']; [discriminate|].
  destruct (eqc c "0"); [intros [= _ <-]; simpl; lia|].
  destruct (is_digit c); [|discriminate].
  intros [= _ <-]. pose proof (dropwhile_length is_digit s'). simpl. lia.
Qed.

Lemma frac_part_length (s fs s1 : text) :
  frac_part s = Some (fs, s1) -> length s1 <= length s.
Proof.
  unfold frac_part. destruct s as [|dot [|d s']]; try discriminate.
  destruct (eqc dot "." && is_digit d); [|discriminate].
  intros [= _ <-]. pose proof (dropwhile_length is_digit s'). simpl. lia.
Qed.

Lemma exp_part_length (s s1 : text) (e : Z) :
  exp_part s = Some (e, s1) -> length s1 <= length s.
Proof.
  unfold exp_part. destruct s as [|c s']; [discriminate|].
  destruct (eqc c "e" || eqc c "E"); [|discriminate].
  assert (L : forall neg s2,
             length s2 <= length s' ->
             match s2 with
             | d :: _ =>
               if is_digit d
               then Some (if neg : bool
                          then (- Z.of_N (digits_val (takewhile is_digit s2)))%Z
                          else Z.of_N (digits_val (takewhile is_digit s2)),
                          dropwhile is_digit s2)
               else None
             | [] => None
             end = Some (e, s1) -> length s1 <= length (c :: s')).
  { intros neg s2 L. destruct s2 as [|d s3]; [discriminate|].
    destruct (is_digit d) eqn:D; [|discriminate].
    intros [= _ <-]. pose proof (dropwhile_length is_digit (d :: s3)).
    simpl in *. lia. }
  destruct s' as [|sg s2]; [discriminate|].
  destruct (eqc sg "-"); [apply (L true s2); simpl; lia|].
  destruct (eqc sg "+"); [apply (L false s2) | apply (L false (sg :: s2))];
    simpl; lia.
Qed.

Lemma number_body_length (neg : bool) (s s' : text) (v : value) :
  number_body neg s = Some (v, s') -> length s' < length s.
Proof.
  unfold number_body.
  destruct (int_part s) as [[ds s1]|] eqn:E1; [|discriminate].
  apply int_part_length in E1.
  destruct (frac_part s1) as [[fs s2]|] eqn:E2.
  - apply frac_part_length in E2.
    destruct (exp_part s2) as [[e s3]|] eqn:E3.
    + apply exp_part_length in E3. intros [= _ <-]. lia.
    + intros [= _ <-]. lia.
  - destruct (exp_part s1) as [[e s3]|] eqn:E3.
    + apply exp_part_length in E3. intros [= _ <-]. lia.
    + intros [= _ <-]. lia.
Qed.

Lemma parse_number_length (s s' : text) (v : value) :
  parse_number s = Some (v, s') -> length s' < length s.
Proof.
  unfold parse_number. destruct s as [|c s1].
  - apply number_body_length.
  - destruct (eqc c "-"); intros H; apply number_body_length in H; simpl in *; lia.
Qed.

Lemma literal_length (lit : string) (s s' : text) :
  literal lit s = Some s' -> length s' = length s - length (str lit).
Proof.
  unfold literal. destruct (startswith s (str lit)); [|discriminate].
  intros [= <-]. apply length_skipn.
Qed.

Ltac fuel_literal H :=
  match type of H with
  | match literal ?lit ?s with _ => _ end = _ =>
    let L := fresh "L" in
    destruct (literal lit s) eqn:L;
    [ apply literal_length in L; injection H as <- <-;
      revert L; vm_compute (length (str lit)); cbn [length]; lia | ]
  end.

(** A call that returns with some fuel consumed part of the text, and
    returns the same with any fuel that is not less than the number of
    characters it consumed. *)
Lemma scan_fuel (f : nat) :
  (forall s v s',
      scan_once f s = Some (v, s') ->
      length s' < length s /\
      forall f', length s - length s' <= f' -> scan_once f' s = Some (v, s')) /\
  (forall acc s l s',
      scan_items f acc s = Some (l, s') ->
      length s' < length s /\
      forall f', length s - length s' <= f' ->
                 scan_items f' acc s = Some (l, s')) /\
  (forall acc s d s',
      scan_members f acc s = Some (d, s') ->
      length s' < length s /\
      forall f', length s - length s' <= f' ->
                 scan_members f' acc s = Some (d, s')).
Proof.
  induction f as [|f [IHo [IHi IHm]]]; [repeat split; discriminate|].
  split; [|split].
  - intros s v s' H. cbn [scan_once] in H.
    destruct s as [|c s1]; [discriminate|].
    destruct (eqc c DQ) eqn:E1.
    { destruct (scanstring [] s1) as [[t s2]|] eqn:Es; [|discriminate].
      injection H as <- <-. pose proof (scanstring_length _ _ _ _ Es) as L.
      split; [cbn [length]; lia|]. intros f' Hf.
      destruct f' as [|f']; [cbn [length] in Hf; lia|].
      cbn [scan_once]. now rewrite E1, Es. }
    destruct (eqc c "{") eqn:E2.
    { pose proof (dropwhile_length is_ws s1) as W. fold (skip_ws s1) in W.
      destruct (skip_ws s1) as [|c2 s2] eqn:Ew; [discriminate|].
      destruct (eqc c2 "}") eqn:E3.
      - injection H as <- <-. cbn [length] in W. split; [cbn [length]; lia|].
        intros f' Hf. destruct f' as [|f']; [cbn [length] in Hf; lia|].
        cbn [scan_once]. now rewrite E1, E2, Ew, E3.
      - destruct (scan_members f [] (c2 :: s2)) as [[d s3]|] eqn:Em;
          [|discriminate].
        injection H as <- <-. destruct (IHm _ _ _ _ Em) as [L K].
        cbn [length] in W, L. split; [cbn [length]; lia|].
        intros f' Hf. destruct f' as [|f']; [cbn [length] in Hf; lia|].
        cbn [scan_once]. rewrite E1, E2, Ew, E3, (K f'); [reflexivity|].
        cbn [length] in *; lia. }
    destruct (eqc c "[") eqn:E3.
    { pose proof (dropwhile_length is_ws s1) as W. fold (skip_ws s1) in W.
      destruct (skip_ws s1) as [|c2 s2] eqn:Ew; [discriminate|].
      destruct (eqc c2 "]") eqn:E4.
      - injection H as <- <-. cbn [length] in W. split; [cbn [length]; lia|].
        intros f' Hf. destruct f' as [|f']; [cbn [length] in Hf; lia|].
        cbn [scan_once]. now rewrite E1, E2, E3, Ew, E4.
      - destruct (scan_items f [] (c2 :: s2)) as [[l s3]|] eqn:Em;
          [|discriminate].
        injection H as <- <-. destruct (IHi _ _ _ _ Em) as [L K].
        cbn [length] in W, L. split; [cbn [length]; lia|].
        intros f' Hf. destruct f' as [|f']; [cbn [length] in Hf; lia|].
        cbn [scan_once]. rewrite E1, E2, E3, Ew, E4, (K f'); [reflexivity|].
        cbn [length] in *; lia. }
    assert (L : length s' < length (c :: s1)).
    { clear IHo IHi IHm.
      fuel_literal H. fuel_literal H. fuel_literal H.
      destruct (parse_number (c :: s1)) as [[v0 s0]|] eqn:P.
      - injection H as <- <-. now apply parse_number_length in P.
      - fuel_literal H. fuel_literal H. fuel_literal H. discriminate. }
    split; [exact L|]. intros f' Hf.
    destruct f' as [|f']; [cbn [length] in *; lia|].
    cbn [scan_once]. rewrite E1, E2, E3. exact H.
  - intros acc s l s' H. cbn [scan_items] in H.
    destruct (scan_once f s) as [[v s1]|] eqn:Eo; [|discriminate].
    destruct (IHo _ _ _ Eo) as [L K].
    pose proof (dropwhile_length is_ws s1) as W. fold (skip_ws s1) in W.
    destruct (skip_ws s1) as [|c s2] eqn:Ew; [discriminate|]. cbn [length] in W.
    destruct (eqc c "]") eqn:E1.
    + injection H as <- <-. split; [lia|]. intros f' Hf.
      destruct f' as [|f']; [lia|].
      cbn [scan_items]. rewrite (K f') by lia. now rewrite Ew, E1.
    + destruct (eqc c ",") eqn:E2; [|discriminate].
      destruct (IHi _ _ _ _ H) as [L2 K2].
      pose proof (dropwhile_length is_ws s2) as W2. fold (skip_ws s2) in W2.
      split; [lia|]. intros f' Hf. destruct f' as [|f']; [lia|].
      cbn [scan_items]. rewrite (K f') by lia. rewrite Ew, E1, E2.
      apply K2. lia.
  - intros acc s d s' H. cbn [scan_members] in H.
    destruct s as [|q s0]; [discriminate|].
    destruct (eqc q DQ) eqn:E0; [|discriminate].
    destruct (scanstring [] s0) as [[k s1]|] eqn:Es; [|discriminate].
    pose proof (scanstring_length _ _ _ _ Es) as Ls.
    pose proof (dropwhile_length is_ws s1) as W1. fold (skip_ws s1) in W1.
    destruct (skip_ws s1) as [|colon s2] eqn:Ew1; [discriminate|]. cbn [length] in W1.
    destruct (eqc colon ":") eqn:E1; [|discriminate].
    pose proof (dropwhile_length is_ws s2) as W2. fold (skip_ws s2) in W2.
    destruct (scan_once f (skip_ws s2)) as [[v s3]|] eqn:Eo; [|discriminate].
    destruct (IHo _ _ _ Eo) as [L K].
    pose proof (dropwhile_length is_ws s3) as W3. fold (skip_ws s3) in W3.
    destruct (skip_ws s3) as [|c s4] eqn:Ew3; [discriminate|]. cbn [length] in W3.
    destruct (eqc c "}") eqn:E2.
    + injection H as <- <-. split; [cbn [length]; lia|]. intros f' Hf.
      destruct f' as [|f']; [cbn [length] in Hf; lia|].
      cbn [scan_members]. rewrite E0, Es, Ew1, E1, (K f') by (cbn [length] in Hf; lia).
      now rewrite Ew3, E2.
    + destruct (eqc c ",") eqn:E3; [|discriminate].
      destruct (IHm _ _ _ _ H) as [L2 K2].
      pose proof (dropwhile_length is_ws s4) as W4. fold (skip_ws s4) in W4.
      split; [cbn [length]; lia|]. intros f' Hf.
      destruct f' as [|f']; [cbn [length] in Hf; lia|].
      cbn [scan_members]. rewrite E0, Es, Ew1, E1, (K f') by (cbn [length] in Hf; lia).
      rewrite Ew3, E2, E3. apply K2. cbn [length] in Hf; lia.
Qed.

(** The fuel that [loads] gives is enough: a value that the scanner reads
    with some fuel, it reads with the fuel of [loads]. *)
Lemma scan_once_adequate (s : text) (r : value * text) :
  (exists f, scan_once f s = Some r) <-> scan_once (S (length s)) s = Some r.
Proof.
  split; [|eauto]. intros [f H]. destruct r as [v s'].
  destruct (proj1 (scan_fuel f) _ _ _ H) as [_ K]. apply K. lia.
Qed.

(** [loads] refuses a text only when no fuel would read it whole. *)
Lemma loads_adequate (s : text) (v : value) :
  loads s = Some v <->
  exists f s1, scan_once f (skip_ws s) = Some (v, s1) /\ skip_ws s1 = [].
Proof.
  unfold loads. split.
  - destruct (scan_once (S (length s)) (skip_ws s)) as [[v' s1]|] eqn:E;
      [|discriminate].
    destruct (skip_ws s1) eqn:W; [|discriminate].
    intros [= <-]. eauto.
  - intros [f [s1 [H W]]].
    destruct (proj1 (scan_fuel f) _ _ _ H) as [_ K].
    pose proof (dropwhile_length is_ws s) as L. fold (skip_ws s) in L.
    rewrite (K (S (length s))) by lia. now rewrite W.
Qed.

End DecoderFuel.

(* ------------------------------------------------------------------ *)
(** * Further properties of the embedded code *)

(** ** The locator on any document *)

Lemma startswith_longer (s t sub : text) :
  startswith s sub = true -> startswith (s ++ t) sub = true.
Proof.
  rewrite !startswith_iff. intros [post ->]. exists (post ++ t).
  now rewrite <- app_assoc.
Qed.

Lemma startswith_short (sub : text) :
  forall s t,
    startswith (s ++ t) sub = true -> length sub <= length s ->
    startswith s sub = true.
Proof.
  induction sub as [|x sub IH]; intros s t; [reflexivity|].
  destruct s as [|y s]; [intros _ L; simpl in L; lia|].
  cbn [startswith app length]. rewrite !andb_true_iff.
  intros [E H] L. split; [exact E|]. apply (IH s t); [exact H | lia].
Qed.

Lemma find_at_app (sub s t : text) :
  forall pos n,
    find_at sub s pos = Some n -> find_at sub (s ++ t) pos = Some n.
Proof.
  induction s as [|c s IH]; intros pos n; cbn [find_at app].
  - destruct (startswith [] sub) eqn:E; [|discriminate]. intros [= <-].
    apply startswith_iff in E. destruct E as [post E].
    destruct sub; [|discriminate]. destruct t; reflexivity.
  - destruct (startswith (c :: s) sub) eqn:E.
    + intros [= <-]. change (c :: s ++ t) with ((c :: s) ++ t).
      now rewrite (startswith_longer _ t _ E).
    + intros H. destruct (startswith (c :: s ++ t) sub) eqn:E2; [|now apply IH].
      exfalso. destruct (find_at_some _ _ _ _ H) as [pre [post [-> _]]].
      assert (startswith (c :: pre ++ sub ++ post) sub = true); [|congruence].
      apply (startswith_short sub _ t); [exact E2|].
      simpl. rewrite !length_app. lia.
Qed.

Lemma find_app (s t sub : text) (start n : nat) :
  find s sub start = Some n -> find (s ++ t) sub start = Some n.
Proof.
  unfold find. destruct (start <=? length s) eqn:L; [|discriminate].
  apply Nat.leb_le in L. rewrite length_app.
  replace (start <=? length s + length t) with true
    by (symmetry; apply Nat.leb_le; lia).
  rewrite skipn_app. replace (start - length s) with 0 by lia.
  cbn [skipn]. apply find_at_app.
Qed.

(** The index that [find] returns is the place of an occurrence at or after
    [start]. *)
Lemma find_split (s sub : text) (start n : nat) :
  find s sub start = Some n ->
  exists pre post, s = pre ++ sub ++ post /\ length pre = n /\ start <= n.
Proof.
  unfold find. destruct (start <=? length s) eqn:L; [|discriminate].
  apply Nat.leb_le in L. intros H.
  destruct (find_at_some _ _ _ _ H) as [pre [post [E ->]]].
  exists (firstn start s ++ pre), post. split; [|split].
  - rewrite <- app_assoc, <- E. symmetry. apply firstn_skipn.
  - rewrite length_app, length_firstn. lia.
  - lia.
Qed.

Lemma scan_braces_app (s t : text) :
  forall in_str esc quote depth k r,
    scan_braces in_str esc quote depth k s = Some r ->
    scan_braces in_str esc quote depth k (s ++ t) = Some r.
Proof.
  induction s as [|ch s IH]; intros in_str esc quote depth k r;
    cbn [scan_braces app]; [discriminate|].
  repeat match goal with
         | |- context [if ?b then _ else _] => destruct b
         end; auto.
Qed.

(** The index that the scan returns is the place of a closing brace. *)
Lemma scan_braces_found (s : text) :
  forall in_str esc quote depth k r,
    scan_braces in_str esc quote depth k s = Some r ->
    k <= r /\ nth_error s (r - k) = Some "}"%char.
Proof.
  induction s as [|ch s IH]; intros in_str esc quote depth k r;
    cbn [scan_braces]; [discriminate|].
  assert (R : forall i e q d,
             scan_braces i e q d (S k) s = Some r ->
             k <= r /\ nth_error (ch :: s) (r - k) = Some "}"%char).
  { intros i e q d H. destruct (IH _ _ _ _ _ _ H) as [L N].
    split; [lia|]. replace (r - k) with (S (r - S k)) by lia. exact N. }
  destruct in_str.
  - destruct esc; [apply R|]. destruct (eqc ch "\"); [apply R|].
    destruct (is_q quote ch); apply R.
  - destruct (is_quote ch); [apply R|]. destruct (eqc ch "{"); [apply R|].
    destruct (eqc ch "}") eqn:E; [|apply R].
    destruct (depth - 1 =? 0)%Z; [|apply R].
    intros [= <-]. apply eqc_eq in E. subst ch.
    split; [lia|]. now rewrite Nat.sub_diag.
Qed.

(** The slice that ends at the index the scan returns. *)
Lemma scan_braces_slice (j k : nat) (post : text) :
  scan_braces false false None 0 j ("{"%char :: post) = Some k ->
  exists body rest,
    post = body ++ "}"%char :: rest /\
    firstn (k + 1 - j) ("{"%char :: post) = "{"%char :: body ++ ["}"%char].
Proof.
  intros Sk. destruct (scan_braces_found _ _ _ _ _ _ _ Sk) as [Lk N].
  destruct (k - j) as [|m] eqn:Ek; [discriminate N|]. cbn [nth_error] in N.
  destruct (nth_error_split _ _ N) as [body [rest [Ep Lb]]].
  exists body, rest. split; [exact Ep|].
  replace (k + 1 - j) with (S (S m)) by lia. rewrite firstn_cons. f_equal.
  rewrite Ep, <- Lb.
  change (body ++ "}"%char :: rest) with (body ++ ["}"%char] ++ rest).
  rewrite app_assoc.
  replace (S (length body)) with (length (body ++ ["}"%char]))
    by (rewrite length_app; simpl; lia).
  rewrite firstn_app, Nat.sub_diag, firstn_all. cbn [firstn].
  now rewrite app_nil_r.
Qed.

(** X2. The literal that the locator returns is a contiguous part of the
    document; it starts with an opening brace and ends with a closing
    brace. *)
Theorem extract_returns_braced_slice (html marker lit : text) :
  extract_object_literal html marker = Ok lit ->
  exists pre body post,
    html = pre ++ lit ++ post /\ lit = "{"%char :: body ++ ["}"%char].
Proof.
  unfold extract_object_literal.
  destruct (find html marker 0) as [i|]; [|discriminate].
  destruct (find html (str "{") i) as [j|] eqn:Fj; [|discriminate].
  destruct (scan_braces false false None 0 j (skipn j html)) as [k|] eqn:Sk;
    [|discriminate].
  intros [= <-].
  destruct (find_split _ _ _ _ Fj) as [pre [post [E [Lp _]]]].
  change (str "{") with ["{"%char] in E. cbn [app] in E.
  assert (Es : skipn j html = "{"%char :: post).
  { rewrite E, <- Lp. apply skipn_app_length. }
  rewrite Es in Sk. destruct (scan_braces_slice j k post Sk) as [body [rest [Ep F]]].
  exists pre, body, rest. unfold slice. rewrite Es, F. split; [|reflexivity].
  rewrite E, Ep. cbn [app]. now rewrite <- !app_assoc.
Qed.

Lemma extract_returns_braced_slice_witness :
  exists pre body post,
    qstr "x m = {`a`: 1}; y" = pre ++ qstr "{`a`: 1}" ++ post /\
    qstr "{`a`: 1}" = "{"%char :: body ++ ["}"%char].
Proof.
  apply (extract_returns_braced_slice (qstr "x m = {`a`: 1}; y") (str "m =")).
  reflexivity.
Defined.

(** X3. What comes after a literal that the locator found does not count:
    the locator returns the same literal when text is appended to the
    document. *)
Theorem extract_ignores_what_follows (html marker lit tail : text) :
  extract_object_literal html marker = Ok lit ->
  extract_object_literal (html ++ tail) marker = Ok lit.
Proof.
  unfold extract_object_literal.
  destruct (find html marker 0) as [i|] eqn:Fi; [|discriminate].
  destruct (find html (str "{") i) as [j|] eqn:Fj; [|discriminate].
  destruct (scan_braces false false None 0 j (skipn j html)) as [k|] eqn:Sk;
    [|discriminate].
  intros [= <-].
  rewrite (find_app _ tail _ _ _ Fi), (find_app _ tail _ _ _ Fj).
  destruct (find_split _ _ _ _ Fj) as [pre [post [E [Lp _]]]].
  assert (Lj : j <= length html).
  { rewrite E, !length_app. lia. }
  destruct (scan_braces_found _ _ _ _ _ _ _ Sk) as [Lk N].
  assert (Lr : k - j < length (skipn j html)).
  { apply nth_error_Some. congruence. }
  rewrite skipn_app. replace (j - length html) with 0 by lia. cbn [skipn].
  rewrite (scan_braces_app _ tail _ _ _ _ _ _ Sk).
  unfold slice. rewrite skipn_app. replace (j - length html) with 0 by lia.
  cbn [skipn]. rewrite firstn_app.
  replace (k + 1 - j - length (skipn j html)) with 0 by lia.
  cbn [firstn]. now rewrite app_nil_r.
Qed.

Lemma extract_ignores_what_follows_witness :
  extract_object_literal (qstr "m = {`a`: 1}" ++ str "} {") (str "m =")
  = Ok (qstr "{`a`: 1}").
Proof.
  apply (extract_ignores_what_follows (qstr "m = {`a`: 1}") (str "m =")).
  reflexivity.
Defined.

(** [find] returns the first occurrence. *)
Lemma find_at_first (sub s : text) :
  forall pos n,
    find_at sub s pos = Some n ->
    forall pre post, s = pre ++ sub ++ post -> n <= pos + length pre.
Proof.
  induction s as [|c s IH]; intros pos n; cbn [find_at].
  - destruct (startswith [] sub); [|discriminate]. intros [= <-] pre post _. lia.
  - destruct (startswith (c :: s) sub) eqn:E; [intros [= <-] pre post _; lia|].
    intros H pre post Ep. destruct pre as [|c' pre].
    + assert (startswith (c :: s) sub = true); [|congruence].
      apply startswith_iff. eauto.
    + inversion Ep; subst. specialize (IH _ _ H pre post eq_refl).
      simpl. lia.
Qed.

Lemma find_at_first_some (sub : text) :
  forall pre post pos,
    (forall pre' post',
        pre ++ sub ++ post = pre' ++ sub ++ post' ->
        length pre <= length pre') ->
    find_at sub (pre ++ sub ++ post) pos = Some (pos + length pre).
Proof.
  induction pre as [|c pre IH]; intros post pos M.
  - assert (E : startswith (sub ++ post) sub = true)
      by (apply startswith_iff; eauto).
    cbn [app length]. rewrite Nat.add_0_r.
    destruct (sub ++ post); cbn [find_at]; now rewrite E.
  - cbn [app find_at].
    destruct (startswith (c :: pre ++ sub ++ post) sub) eqn:E.
    + exfalso. apply startswith_iff in E. destruct E as [post' E].
      specialize (M [] post' E). simpl in M. lia.
    + rewrite IH.
      * f_equal. simpl. lia.
      * intros pre' post' E'. specialize (M (c :: pre') post').
        cbn [app length] in M. rewrite E' in M. specialize (M eq_refl). lia.
Qed.

Lemma find_at_brace_none (s : text) :
  forall pos, find_at (str "{") s pos = None <-> no_brace s = true.
Proof.
  change (str "{") with ["{"%char].
  induction s as [|c s IH]; intros pos; cbn [find_at startswith no_brace forallb].
  - tauto.
  - rewrite eqc_sym. destruct (eqc c "{"); cbn [andb negb].
    + split; discriminate.
    + apply IH.
Qed.

(** X4. The object-start error is raised exactly when the marker occurs
    and no opening brace stands in the document from the first character
    of the marker's first occurrence on: a brace inside the marker counts
    as the object start. *)
Theorem extract_object_start_not_found (html marker : text) :
  extract_object_literal html marker = Raise ObjectStartNotFound <->
  exists pre post,
    html = pre ++ marker ++ post /\
    (forall pre' post',
        html = pre' ++ marker ++ post' -> length pre <= length pre') /\
    no_brace (marker ++ post) = true.
Proof.
  unfold extract_object_literal, find. cbn [Nat.leb skipn]. split.
  - destruct (find_at marker html 0) as [i|] eqn:Fi; [|discriminate].
    destruct (find_at_some _ _ _ _ Fi) as [pre [post [E Ei]]].
    cbn [Nat.add] in Ei. subst i.
    assert (L : (length pre <=? length html) = true).
    { apply Nat.leb_le. rewrite E, length_app. lia. }
    rewrite L. rewrite E at 1. rewrite skipn_app_length.
    destruct (find_at (str "{") (marker ++ post) (length pre)) as [j|] eqn:Fj.
    + destruct (scan_braces _ _ _ _ _ _); discriminate.
    + intros _. exists pre, post. split; [exact E|]. split.
      * intros pre' post' E'. exact (find_at_first _ _ _ _ Fi pre' post' E').
      * now apply (find_at_brace_none _ (length pre)).
  - intros [pre [post [E [M B]]]]. subst html.
    rewrite (find_at_first_some marker pre post 0 M). cbn [Nat.add].
    replace (length pre <=? length (pre ++ marker ++ post)) with true
      by (symmetry; apply Nat.leb_le; rewrite length_app; lia).
    rewrite skipn_app_length.
    now rewrite (proj2 (find_at_brace_none _ (length pre)) B).
Qed.

(** ** The passes on any text *)

(** One step of [single_quotes_to_double], in each of its states. *)
Lemma sqd_text_cons (d s e : bool) (c : ascii) (js : text) :
  sqd_text d s e (c :: js) =
  if d then
    c :: (if e then sqd_text true s false js
          else if eqc c "\" then sqd_text true s true js
          else if eqc c DQ then sqd_text false s e js
          else sqd_text true s e js)
  else if s then
    if e then c :: sqd_text d true false js
    else if eqc c "\" then c :: sqd_text d true true js
    else if eqc c "'" then DQ :: sqd_text d false e js
    else if eqc c DQ then "\"%char :: DQ :: sqd_text d true e js
    else c :: sqd_text d true e js
  else if eqc c DQ then c :: sqd_text true s e js
  else if eqc c "'" then DQ :: sqd_text d true e js
  else c :: sqd_text d s e js.
Proof.
  unfold sqd_text. cbn [sqd_loop].
  split_ifs; rewrite sqd_loop_out, concat_app; reflexivity.
Qed.

(** The second run reads the output of the first in the state of a
    double-quoted string wherever the first run was inside a string. *)
Lemma sqd_text_twice (js : text) :
  forall d s e,
    d && s = false ->
    sqd_text (d || s) false e (sqd_text d s e js) = sqd_text d s e js.
Proof.
  induction js as [|c js IH]; intros d s e H; [reflexivity|].
  rewrite (sqd_text_cons d s e c js).
  destruct d.
  - destruct s; [discriminate|]. cbn [orb]. rewrite sqd_text_cons.
    destruct e; [f_equal; apply (IH true false false); reflexivity|].
    destruct (eqc c "\"); [f_equal; apply (IH true false true); reflexivity|].
    destruct (eqc c DQ); f_equal.
    + apply (IH false false false); reflexivity.
    + apply (IH true false false); reflexivity.
  - destruct s; cbn [orb].
    + destruct e.
      { rewrite sqd_text_cons. f_equal. apply (IH false true false). reflexivity. }
      destruct (eqc c "\") eqn:E1.
      { rewrite sqd_text_cons, E1. f_equal. apply (IH false true true).
        reflexivity. }
      destruct (eqc c "'") eqn:E2.
      { rewrite sqd_text_cons. change (eqc DQ "\") with false.
        change (eqc DQ DQ) with true. cbv iota. f_equal.
        apply (IH false false false). reflexivity. }
      destruct (eqc c DQ) eqn:E3.
      { rewrite sqd_text_cons. change (eqc "\" "\") with true. cbv iota.
        rewrite sqd_text_cons. do 2 f_equal. apply (IH false true false).
        reflexivity. }
      rewrite sqd_text_cons, E1, E3. f_equal. apply (IH false true false).
      reflexivity.
    + destruct (eqc c DQ) eqn:E3.
      { rewrite sqd_text_cons, E3. f_equal. apply (IH true false e).
        reflexivity. }
      destruct (eqc c "'") eqn:E2.
      { rewrite sqd_text_cons. change (eqc DQ DQ) with true. cbv iota.
        f_equal. apply (IH false true e). reflexivity. }
      rewrite sqd_text_cons, E3, E2. f_equal. apply (IH false false e).
      reflexivity.
Qed.

(** X5. [single_quotes_to_double] is idempotent on every text: run on its
    own output, it changes nothing. *)
Theorem single_quotes_to_double_idempotent (js : text) :
  single_quotes_to_double (single_quotes_to_double js)
  = single_quotes_to_double js.
Proof.
  change (single_quotes_to_double js) with (sqd_text false false false js).
  change (single_quotes_to_double (sqd_text false false false js))
    with (sqd_text (false || false) false false
                   (sqd_text false false false js)).
  apply sqd_text_twice. reflexivity.
Qed.

(** One step of [remove_trailing_commas], in each of its states. *)
Lemma rtc_text_cons (i e : bool) (q : option ascii) (c : ascii) (js : text) :
  rtc_text i e q (c :: js) =
  if i then
    c :: (if e then rtc_text true false q js
          else if eqc c "\" then rtc_text true true q js
          else if is_q q c then rtc_text false e q js
          else rtc_text true e q js)
  else if is_quote c then c :: rtc_text true e (Some c) js
  else if eqc c "," && closes_next js then rtc_text false e q js
  else c :: rtc_text false e q js.
Proof.
  unfold rtc_text. cbn [rtc_loop].
  split_ifs; try reflexivity; rewrite rtc_loop_out, concat_app; reflexivity.
Qed.

Lemma rtc_text_keeps (js : text) :
  forall i e q,
    filter (fun c => negb (eqc c ",")) (rtc_text i e q js)
    = filter (fun c => negb (eqc c ",")) js /\
    length (rtc_text i e q js) <= length js.
Proof.
  induction js as [|c js IH]; intros i e q; [split; reflexivity|].
  rewrite rtc_text_cons.
  assert (K : forall i' e' q',
             filter (fun c => negb (eqc c ",")) (c :: rtc_text i' e' q' js)
             = filter (fun c => negb (eqc c ",")) (c :: js) /\
             length (c :: rtc_text i' e' q' js) <= length (c :: js)).
  { intros i' e' q'. destruct (IH i' e' q') as [F L]. cbn [filter length].
    rewrite F. split; [reflexivity | lia]. }
  destruct i.
  - destruct e; [apply K|]. destruct (eqc c "\"); [apply K|].
    destruct (is_q q c); apply K.
  - destruct (is_quote c); [apply K|].
    destruct (eqc c ",") eqn:E; cbn [andb]; [|apply K].
    destruct (closes_next js); [|apply K].
    destruct (IH false e q) as [F L]. cbn [filter length]. rewrite E.
    cbn [negb]. split; [exact F | lia].
Qed.

(** X6. [remove_trailing_commas] deletes commas and nothing else: the
    characters that are not commas are those of the input, in their order,
    and the output is not longer than the input. *)
Theorem remove_trailing_commas_only_commas (js : text) :
  filter (fun c => negb (eqc c ",")) (remove_trailing_commas js)
  = filter (fun c => negb (eqc c ",")) js /\
  length (remove_trailing_commas js) <= length js.
Proof.
  change (remove_trailing_commas js) with (rtc_text false false None js).
  apply rtc_text_keeps.
Qed.

(** A text without the call prefix is copied, in any state of the pass. *)
Lemma sof_text_without_wrapper (js : text) :
  forall i e q,
    (forall pre post, js <> pre ++ str "Object.freeze(" ++ post) ->
    sof_text i e q js = js.
Proof.
  induction js as [|c js IH]; intros i e q H; [reflexivity|].
  assert (H' : forall pre post, js <> pre ++ str "Object.freeze(" ++ post).
  { intros pre post ->. apply (H (c :: pre) post). reflexivity. }
  assert (K : forall i' e' q',
             concat (sof_loop (length js) i' e' q' ([] ++ [[c]]) js) = c :: js).
  { intros i' e' q'. rewrite sof_loop_out, concat_app. cbn [app concat].
    f_equal. apply (IH i' e' q' H'). }
  unfold sof_text. cbn [length sof_loop]. destruct i.
  - destruct e; [apply K|]. destruct (eqc c "\"); [apply K|].
    destruct (is_q q c); apply K.
  - destruct (is_quote c); [apply K|].
    destruct (startswith (c :: js) (str "Object.freeze(")) eqn:E; [|apply K].
    exfalso. apply startswith_iff in E. destruct E as [post E].
    apply (H [] post). exact E.
Qed.

(** X7. [strip_object_freeze] returns unchanged a text in which the call
    prefix [Object.freeze(] does not occur. *)
Theorem strip_object_freeze_without_wrapper (js : text) :
  (forall pre post, js <> pre ++ str "Object.freeze(" ++ post) ->
  strip_object_freeze js = js.
Proof.
  intros H. change (strip_object_freeze js) with (sof_text false false None js).
  now apply sof_text_without_wrapper.
Qed.

Lemma strip_object_freeze_without_wrapper_witness :
  strip_object_freeze (qstr "{`a`: [1, 2]}") = qstr "{`a`: [1, 2]}".
Proof.
  apply (strip_object_freeze_without_wrapper (qstr "{`a`: [1, 2]}")).
  intros pre post E.
  assert (A : length (filter (fun c => eqc c "O") (qstr "{`a`: [1, 2]}")) = 0)
    by reflexivity.
  assert (B : length (filter (fun c => eqc c "O") (str "Object.freeze(")) = 1)
    by reflexivity.
  rewrite E, !filter_app, !length_app, B in A. lia.
Defined.

Lemma sof_call_flat (x : text) :
  forall fuel out s,
    forallb sof_flat x = true ->
    length x < fuel ->
    sof_call fuel 1 out (x ++ ")"%char :: s) = (out ++ chars x, s).
Proof.
  induction x as [|c x IH]; intros fuel out s F L.
  - destruct fuel as [|fuel]; [simpl in L; lia|]. cbn [app sof_call chars map].
    change (1 >? 0)%Z with true. cbv iota.
    change (is_quote ")") with false. change (eqc ")" "(") with false.
    change (eqc ")" ")") with true. cbv iota.
    change (1 - 1 =? 0)%Z with true. cbv iota. now rewrite app_nil_r.
  - destruct fuel as [|fuel]; [simpl in L; lia|].
    cbn [forallb] in F. apply andb_true_iff in F. destruct F as [Fc F].
    unfold sof_flat in Fc. rewrite !andb_true_iff, !negb_true_iff in Fc.
    destruct Fc as [[Q P1] P2].
    cbn [app sof_call]. change (1 >? 0)%Z with true. cbv iota.
    rewrite Q, P1, P2. rewrite IH by (cbn [length] in L; auto; lia).
    cbn [chars map]. now rewrite <- app_assoc.
Qed.

(** X8. [strip_object_freeze] takes away a call around an argument that
    holds no quote and no parenthesis: the prefix [Object.freeze(] and the
    closing parenthesis go, the argument stays as it is, and the pass goes
    on after the call. *)
Theorem strip_object_freeze_unwraps (x s : text) :
  forallb sof_flat x = true ->
  strip_object_freeze (str "Object.freeze(" ++ x ++ ")"%char :: s)
  = x ++ strip_object_freeze s.
Proof.
  intros F. unfold strip_object_freeze.
  set (js := str "Object.freeze(" ++ x ++ ")"%char :: s).
  assert (Lj : length js = 14 + (length x + S (length s))).
  { subst js. rewrite !length_app. reflexivity. }
  destruct (length js) as [|fuel] eqn:Ef; [lia|].
  assert (Ej : exists c r, js = c :: r /\ is_quote c = false).
  { exists "O"%char, (str "bject.freeze(" ++ x ++ ")"%char :: s). now split. }
  destruct Ej as [c [r [Ej Q]]].
  cbn [sof_loop]. rewrite Ej. cbv iota. rewrite Q. rewrite <- Ej.
  assert (E : startswith js (str "Object.freeze(") = true)
    by apply startswith_app.
  rewrite E.
  assert (E1 : skipn (length (str "Object.freeze(")) js = x ++ ")"%char :: s)
    by apply skipn_app_length.
  rewrite E1.
  rewrite (sof_call_flat x _ [] s F) by (rewrite length_app; simpl; lia).
  cbn [app].
  rewrite sof_loop_out, concat_app, concat_chars. f_equal. f_equal.
  apply sof_loop_fuel; lia.
Qed.

Lemma strip_object_freeze_unwraps_witness :
  strip_object_freeze (str "Object.freeze(" ++ str "[1, 2]" ++ ")"%char :: str ";")
  = str "[1, 2]" ++ strip_object_freeze (str ";").
Proof.
  apply (strip_object_freeze_unwraps (str "[1, 2]") (str ";")). reflexivity.
Defined.



(** ** [strip_html_tags] *)

Lemma sub_tags_length (f : nat) :
  forall s, length (sub_tags f s) <= length s.
Proof.
  induction f as [|f IH]; intros s; cbn [sub_tags]; [simpl; lia|].
  destruct s as [|c s]; [simpl; lia|].
  destruct (eqc c "<").
  - destruct (tag_end s) as [s''|] eqn:E.
    + apply tag_end_length in E. specialize (IH s''). simpl. lia.
    + specialize (IH s). simpl. lia.
  - specialize (IH s). simpl. lia.
Qed.

(** No [>] comes on the first line of the text, and none is brought there. *)
Lemma tag_end_sub_tags (f : nat) :
  forall s, tag_end s = None -> length s <= f -> tag_end (sub_tags f s) = None.
Proof.
  induction f as [|f IH]; intros s H L; [reflexivity|].
  destruct s as [|c s]; [reflexivity|]. cbn [length] in L.
  cbn [tag_end] in H. cbn [sub_tags].
  destruct (eqc c ">") eqn:E1; [discriminate|].
  destruct (code c =? 10) eqn:E2.
  - destruct (eqc c "<") eqn:E3.
    + apply eqc_eq in E3. subst c. discriminate E2.
    + cbn [tag_end]. now rewrite E1, E2.
  - assert (K : tag_end (c :: sub_tags f s) = None).
    { cbn [tag_end]. rewrite E1, E2. apply IH; [exact H | lia]. }
    destruct (eqc c "<"); [|exact K]. now rewrite H.
Qed.

Lemma sub_tags_no_tag (f : nat) :
  forall s pre post,
    length s <= f ->
    sub_tags f s = pre ++ "<"%char :: post -> tag_end post = None.
Proof.
  induction f as [|f IH]; intros s pre post L; cbn [sub_tags].
  - destruct pre; discriminate.
  - destruct s as [|c s]; [destruct pre; discriminate|]. cbn [length] in L.
    assert (K : c :: sub_tags f s = pre ++ "<"%char :: post ->
                (pre = [] -> c = "<"%char /\ tag_end s = None) ->
                tag_end post = None).
    { intros E N. destruct pre as [|c' pre].
      - inversion E; subst. destruct (N eq_refl) as [_ T].
        apply tag_end_sub_tags; [exact T | lia].
      - inversion E; subst. apply (IH s pre post); [lia | assumption]. }
    destruct (eqc c "<") eqn:E1.
    + destruct (tag_end s) as [s''|] eqn:T.
      * apply tag_end_length in T. apply IH. lia.
      * intros E. apply (K E). intros _. apply eqc_eq in E1. now split.
    + intros E. apply (K E). intros ->. inversion E; subst. discriminate E1.
Qed.

Lemma sub_tags_fixed (f : nat) :
  forall s f',
    length s <= f -> length (sub_tags f s) <= f' ->
    sub_tags f' (sub_tags f s) = sub_tags f s.
Proof.
  induction f as [|f IH]; intros s f' L L'; cbn [sub_tags] in *.
  - destruct f'; reflexivity.
  - destruct s as [|c s]; [destruct f'; reflexivity|]. cbn [length] in L.
    assert (K : forall X, X = sub_tags f s ->
                (eqc c "<" = true -> tag_end s = None) ->
                length (c :: X) <= f' ->
                sub_tags f' (c :: X) = c :: X).
    { intros X -> N Lx. destruct f' as [|f'']; [simpl in Lx; lia|].
      cbn [sub_tags]. cbn [length] in Lx.
      assert (R : sub_tags f'' (sub_tags f s) = sub_tags f s)
        by (apply IH; lia).
      destruct (eqc c "<") eqn:E1; [|now rewrite R].
      rewrite (tag_end_sub_tags f s (N eq_refl)) by lia. now rewrite R. }
    destruct (eqc c "<") eqn:E1.
    + destruct (tag_end s) as [s''|] eqn:T.
      * apply tag_end_length in T. apply IH; lia.
      * apply K; auto.
    + apply K; auto. discriminate.
Qed.

(** X10. In the text that [strip_html_tags] returns no tag is left: after
    a [<] of the result no [>] comes on the same line; and stripping the
    result again changes nothing. *)
Theorem strip_html_tags_leaves_no_tag (v : value) (t : text) :
  strip_html_tags v = Ok t ->
  (forall pre post, t = pre ++ "<"%char :: post -> tag_end post = None) /\
  strip_html_tags (VStr t) = Ok t.
Proof.
  unfold strip_html_tags.
  destruct (if truthy v then v else VStr []) as [| | | |s| |]; try discriminate.
  intros [= <-]. split.
  - intros pre post E. now apply (sub_tags_no_tag (length s) s pre post).
  - destruct (truthy (VStr (sub_tags (length s) s))) eqn:Tr.
    + f_equal. now apply sub_tags_fixed.
    + destruct (sub_tags (length s) s); [reflexivity | discriminate Tr].
Qed.

Lemma strip_html_tags_leaves_no_tag_witness :
  (forall pre post,
      str "Mon 2 < 3" = pre ++ "<"%char :: post -> tag_end post = None) /\
  strip_html_tags (VStr (str "Mon 2 < 3")) = Ok (str "Mon 2 < 3").
Proof.
  apply (strip_html_tags_leaves_no_tag (VStr (str "<b>Mon</b> 2 < 3"))).
  reflexivity.
Defined.

(** ** The consolidator, key by key *)

Lemma dict_mem_existsb (m : list (key * row)) (k : key) :
  dict_mem eqkey m k = existsb (eqkey k) (map fst m).
Proof.
  unfold dict_mem. induction m as [|[k' r] m IH]; simpl; [reflexivity|].
  destruct (eqkey k k'); [reflexivity | exact IH].
Qed.

Lemma add_existing_keys (m : list (key * row)) (r : row) :
  map fst (add_existing m r) =
  fold_left (fun acc k => if existsb (eqkey k) acc then acc else acc ++ [k])
            (keys_of [r]) (map fst m).
Proof.
  unfold add_existing, keys_of. cbn [flat_map]. rewrite app_nil_r.
  destruct (key_of r) as [k|]; [|reflexivity].
  cbn [fold_left]. rewrite (dict_set_keys eqkey), dict_mem_existsb. reflexivity.
Qed.

Lemma add_incoming_keys (m : list (key * row)) (r : row) :
  map fst (add_incoming m r) =
  fold_left (fun acc k => if existsb (eqkey k) acc then acc else acc ++ [k])
            (keys_of [r]) (map fst m).
Proof.
  unfold add_incoming, keys_of. cbn [flat_map]. rewrite app_nil_r.
  destruct (key_of r) as [k|]; [|reflexivity].
  cbn [fold_left].
  destruct (dict_find eqkey m k) eqn:F;
    rewrite (dict_set_keys eqkey), dict_mem_existsb; reflexivity.
Qed.

Lemma keys_of_app (a b : list row) : keys_of (a ++ b) = keys_of a ++ keys_of b.
Proof. unfold keys_of. apply flat_map_app. Qed.

Lemma fold_add_existing_keys (l : list row) :
  forall m,
    map fst (fold_left add_existing l m) =
    fold_left (fun acc k => if existsb (eqkey k) acc then acc else acc ++ [k])
              (keys_of l) (map fst m).
Proof.
  induction l as [|r l IH]; intros m; [reflexivity|].
  cbn [fold_left]. rewrite IH, add_existing_keys.
  change (keys_of (r :: l)) with (keys_of ([r] ++ l)).
  rewrite keys_of_app. symmetry. apply fold_left_app.
Qed.

Lemma fold_add_incoming_keys (l : list row) :
  forall m,
    map fst (fold_left add_incoming l m) =
    fold_left (fun acc k => if existsb (eqkey k) acc then acc else acc ++ [k])
              (keys_of l) (map fst m).
Proof.
  induction l as [|r l IH]; intros m; [reflexivity|].
  cbn [fold_left]. rewrite IH, add_incoming_keys.
  change (keys_of (r :: l)) with (keys_of ([r] ++ l)).
  rewrite keys_of_app. symmetry. apply fold_left_app.
Qed.

Lemma keyed_keys_of (m : list (key * row)) :
  keyed m -> keys_of (map snd m) = map fst m.
Proof.
  intros [_ F]. unfold keys_of.
  induction F as [|[k r] m H F IH]; [reflexivity|].
  cbn [map flat_map fst snd] in *. now rewrite H, IH.
Qed.

(** X11. The identity pairs of the merged store are those of the stored
    records followed by those of the incoming records, each at the place
    of its first occurrence: a stored pair keeps its place, and a new pair
    goes to the end, in the order of arrival. *)
Theorem merge_events_keys_in_order (existing incoming : list row) :
  Forall wf_row incoming ->
  keys_of (merge_events existing incoming)
  = first_occurrences (keys_of existing ++ keys_of incoming).
Proof.
  intros WF. unfold merge_events.
  rewrite (keyed_keys_of _ (merged_keyed existing incoming WF)).
  rewrite fold_add_incoming_keys, fold_add_existing_keys.
  unfold first_occurrences. now rewrite fold_left_app.
Qed.

Lemma merge_events_keys_in_order_witness :
  keys_of (merge_events [stored_5_10_f; row_no_epoch] [fresh_5_10; row_epoch_m5])
  = first_occurrences (keys_of [stored_5_10_f; row_no_epoch]
                       ++ keys_of [fresh_5_10; row_epoch_m5]).
Proof.
  apply (merge_events_keys_in_order [stored_5_10_f; row_no_epoch]
                                    [fresh_5_10; row_epoch_m5]).
  constructor; [|constructor; [|constructor]];
    unfold wf_row; apply nodupb_NoDup; reflexivity.
Defined.

Lemma keyed_find (m : list (key * row)) (k : key) :
  keyed m -> List.find (key_is k) (map snd m) = dict_find eqkey m k.
Proof.
  intros [_ F]. induction F as [|[k' r] m H F IH]; [reflexivity|].
  cbn [map List.find dict_find fst snd] in *. unfold key_is at 1. rewrite H.
  assert (E : eqkey k' k = eqkey k k').
  { destruct (eqkey k' k) eqn:E1, (eqkey k k') eqn:E2; try reflexivity.
    - apply eqkey_eq in E1. subst. now rewrite eqkey_refl in E2.
    - apply eqkey_eq in E2. subst. now rewrite eqkey_refl in E1. }
  rewrite E. destruct (eqkey k k'); [reflexivity | exact IH].
Qed.

Lemma key_is_spec (k : key) (r : row) : key_is k r = true <-> key_of r = Some k.
Proof.
  unfold key_is. destruct (key_of r) as [k'|]; [|split; discriminate].
  rewrite eqkey_eq. split; congruence.
Qed.

Lemma add_existing_find (m : list (key * row)) (r : row) (k : key) :
  dict_find eqkey (add_existing m r) k = store_step k (dict_find eqkey m k) r.
Proof.
  unfold store_step. destruct (key_is k r) eqn:E.
  - apply key_is_spec in E. unfold add_existing. rewrite E.
    apply dict_find_set_same, eqkey_eq.
  - apply add_existing_find_other. intros H. apply key_is_spec in H. congruence.
Qed.

Lemma add_incoming_find (m : list (key * row)) (r : row) (k : key) :
  dict_find eqkey (add_incoming m r) k = merge_step k (dict_find eqkey m k) r.
Proof.
  unfold merge_step, add_incoming. destruct (key_is k r) eqn:E.
  - apply key_is_spec in E. rewrite E.
    destruct (dict_find eqkey m k); apply dict_find_set_same, eqkey_eq.
  - destruct (key_of r) as [k'|] eqn:K; [|reflexivity].
    assert (N : k <> k').
    { intros ->. unfold key_is in E. now rewrite K, eqkey_refl in E. }
    destruct (dict_find eqkey m k');
      now apply dict_find_set_other; [apply eqkey_eq|].
Qed.

Lemma merged_find (existing incoming : list row) (k : key) :
  dict_find eqkey
            (fold_left add_incoming incoming (fold_left add_existing existing []))
            k
  = merged_for k existing incoming.
Proof.
  unfold merged_for.
  assert (A : forall l m,
             dict_find eqkey (fold_left add_existing l m) k
             = fold_left (store_step k) l (dict_find eqkey m k)).
  { induction l as [|r l IH]; intros m; [reflexivity|].
    cbn [fold_left]. now rewrite IH, add_existing_find. }
  assert (B : forall l m,
             dict_find eqkey (fold_left add_incoming l m) k
             = fold_left (merge_step k) l (dict_find eqkey m k)).
  { induction l as [|r l IH]; intros m; [reflexivity|].
    cbn [fold_left]. now rewrite IH, add_incoming_find. }
  now rewrite B, A.
Qed.

(** X12. The merge works key by key: the record that the merged store
    holds for an identity pair is made of the records that have this pair
    and of no other record.  It is the last stored record with the pair,
    into which the incoming records with the pair are merged in their
    order; when no record is stored, the first incoming record is taken as
    it is. *)
Theorem merge_events_key_by_key (existing incoming : list row) (k : key) :
  Forall wf_row incoming ->
  List.find (key_is k) (merge_events existing incoming)
  = merged_for k existing incoming.
Proof.
  intros WF. unfold merge_events.
  rewrite (keyed_find _ k (merged_keyed existing incoming WF)).
  apply merged_find.
Qed.

Lemma merge_events_key_by_key_witness :
  List.find (key_is (5, 10)%Z)
            (merge_events [row_epoch_m5; stored_5_10_f] [fresh_5_10])
  = merged_for (5, 10)%Z [row_epoch_m5; stored_5_10_f] [fresh_5_10].
Proof.
  apply (merge_events_key_by_key [row_epoch_m5; stored_5_10_f] [fresh_5_10]).
  constructor; [|constructor].
  unfold wf_row; apply nodupb_NoDup; reflexivity.
Defined.

(** ** Running the consolidation again *)

Section DictSame.
Context {K V : Type} (eqk : K -> K -> bool).
Hypothesis eqk_eq : forall a b, eqk a b = true <-> a = b.

(** Writing the value that is there changes nothing. *)
Lemma dict_set_same_value (d : list (K * V)) (k : K) (v : V) :
  dict_find eqk d k = Some v -> dict_set eqk d k v = d.
Proof.
  induction d as [|[k' v'] d IH]; simpl; [discriminate|].
  destruct (eqk k k') eqn:E.
  - now intros [= ->].
  - intros H. now rewrite IH.
Qed.

(** A new key goes last. *)
Lemma dict_set_new (d : list (K * V)) (k : K) (v : V) :
  dict_find eqk d k = None -> dict_set eqk d k v = d ++ [(k, v)].
Proof.
  induction d as [|[k' v'] d IH]; simpl; [reflexivity|].
  destruct (eqk k k') eqn:E; [discriminate|].
  intros H. now rewrite IH.
Qed.
End DictSame.

Lemma merge_row_absorbed (m r : row) : absorbed m r -> merge_row m r = m.
Proof.
  intros A. unfold merge_row.
  assert (E : (if provided (get r (str "actual"))
               then dict_set eqt m (str "actual") (get r (str "actual"))
               else m) = m).
  { destruct (provided (get r (str "actual"))) eqn:P; [|reflexivity].
    apply (dict_set_same_value eqt). unfold get in *.
    destruct (dict_find eqt r (str "actual")) as [v|] eqn:F; [|discriminate P].
    apply A; [|exact P]. now apply (dict_find_in eqt eqt_eq). }
  rewrite E. clear E.
  assert (F : forall items, incl items r -> fold_left merge_field items m = m).
  { induction items as [|[f v] items IH]; intros I; [reflexivity|].
    cbn [fold_left]. apply incl_cons_inv in I. destruct I as [I1 I2].
    assert (S : merge_field m (f, v) = m).
    { cbn [merge_field]. destruct (eqt f (str "actual")); [reflexivity|].
      destruct (provided v) eqn:P; [|reflexivity].
      apply (dict_set_same_value eqt). now apply A. }
    rewrite S. now apply IH. }
  apply F, incl_refl.
Qed.

Lemma absorbed_self (r : row) : wf_row r -> absorbed r r.
Proof.
  intros WF f v I _. now apply (dict_find_nodup eqt eqt_eq).
Qed.

Lemma absorbed_merge_row (old r : row) : wf_row r -> absorbed (merge_row old r) r.
Proof.
  intros WF f v I P. rewrite (merge_row_field old r f WF). unfold taken.
  rewrite (dict_find_nodup eqt eqt_eq r f v WF I). now rewrite P.
Qed.

(** The first loop on the records of a dictionary gives the dictionary. *)
Lemma fold_add_existing_rebuild (m2 : list (key * row)) :
  forall m1,
    keyed (m1 ++ m2) -> fold_left add_existing (map snd m2) m1 = m1 ++ m2.
Proof.
  induction m2 as [|[k r] m2 IH]; intros m1 [ND F];
    [now rewrite app_nil_r|].
  cbn [map fold_left snd].
  assert (Hk : key_of r = Some k).
  { apply (proj1 (Forall_forall _ _) F (k, r)). apply in_elt. }
  assert (Hn : dict_find eqkey m1 k = None).
  { apply (dict_find_none eqkey eqkey_eq). rewrite map_app in ND.
    cbn [map fst] in ND. apply NoDup_remove_2 in ND.
    intros I. apply ND. apply in_or_app. now left. }
  unfold add_existing at 2. rewrite Hk, (dict_set_new eqkey m1 k r Hn).
  rewrite IH; rewrite <- app_assoc; [reflexivity|]. now split.
Qed.

Lemma fold_add_incoming_absorbed (incoming : list row) (m : list (key * row)) :
  absorbs m incoming -> fold_left add_incoming incoming m = m.
Proof.
  induction incoming as [|r l IH]; intros A; [reflexivity|].
  cbn [fold_left].
  assert (S : add_incoming m r = m).
  { unfold add_incoming. destruct (key_of r) as [k|] eqn:K; [|reflexivity].
    destruct (A r k (or_introl eq_refl) K) as [old [F Ab]].
    rewrite F, (merge_row_absorbed old r Ab).
    now apply (dict_set_same_value eqkey). }
  rewrite S. apply IH. intros r' k I. apply A. now right.
Qed.

(** A store that has taken in the incoming records is left as it is. *)
Lemma merge_events_fixed (m : list (key * row)) (incoming : list row) :
  keyed m -> absorbs m incoming -> merge_events (map snd m) incoming = map snd m.
Proof.
  intros Hk A. unfold merge_events.
  rewrite (fold_add_existing_rebuild m []) by exact Hk. cbn [app].
  now rewrite fold_add_incoming_absorbed.
Qed.

Lemma fold_merge_step_other (k : key) (l : list row) :
  forall acc, ~ In k (keys_of l) -> fold_left (merge_step k) l acc = acc.
Proof.
  induction l as [|r l IH]; intros acc N; [reflexivity|].
  change (r :: l) with ([r] ++ l) in N. rewrite keys_of_app in N.
  cbn [fold_left]. unfold merge_step at 2.
  destruct (key_is k r) eqn:E.
  - exfalso. apply N, in_or_app. left. apply key_is_spec in E.
    unfold keys_of. cbn [flat_map]. rewrite E. now left.
  - apply IH. intros I. apply N, in_or_app. now right.
Qed.

(** After the merge the store has taken in the incoming records, when no
    two of them share an identity pair. *)
Lemma merged_absorbs (existing incoming : list row) :
  Forall wf_row incoming -> NoDup (keys_of incoming) ->
  absorbs (fold_left add_incoming incoming (fold_left add_existing existing []))
          incoming.
Proof.
  intros WF ND r k I K. rewrite merged_find. unfold merged_for.
  destruct (in_split _ _ I) as [l1 [l2 ->]].
  assert (Wr : wf_row r).
  { apply (proj1 (Forall_forall _ _) WF). apply in_elt. }
  assert (Kr : keys_of (l1 ++ r :: l2) = keys_of l1 ++ k :: keys_of l2).
  { change (r :: l2) with ([r] ++ l2). rewrite !keys_of_app.
    unfold keys_of at 2. cbn [flat_map]. now rewrite K. }
  rewrite Kr in ND.
  assert (N1 : ~ In k (keys_of l1)).
  { intros H. apply (NoDup_remove_2 _ _ _ ND). apply in_or_app. now left. }
  assert (N2 : ~ In k (keys_of l2)).
  { intros H. apply (NoDup_remove_2 _ _ _ ND). apply in_or_app. now right. }
  rewrite fold_left_app. cbn [fold_left].
  rewrite (fold_merge_step_other k l1 _ N1).
  unfold merge_step at 2. rewrite (proj2 (key_is_spec k r) K).
  rewrite (fold_merge_step_other k l2 _ N2).
  destruct (fold_left (store_step k) existing None) as [old|].
  - exists (merge_row old r). split; [reflexivity|]. now apply absorbed_merge_row.
  - exists r. split; [reflexivity|]. now apply absorbed_self.
Qed.

(** X13. Merging the same incoming records a second time changes nothing,
    when no two of them share an identity pair (as the records of one
    extraction pass do). *)
Theorem merge_events_again (existing incoming : list row) :
  Forall wf_row incoming -> NoDup (keys_of incoming) ->
  merge_events (merge_events existing incoming) incoming
  = merge_events existing incoming.
Proof.
  intros WF ND. unfold merge_events at 2 3.
  apply merge_events_fixed.
  - now apply merged_keyed.
  - now apply merged_absorbs.
Qed.

Lemma merge_events_again_witness :
  merge_events (merge_events [stored_5_10_f; stored_7_20] [fresh_5_10])
               [fresh_5_10]
  = merge_events [stored_5_10_f; stored_7_20] [fresh_5_10].
Proof.
  apply (merge_events_again [stored_5_10_f; stored_7_20] [fresh_5_10]).
  - constructor; [|constructor].
    unfold wf_row; apply nodupb_NoDup; reflexivity.
  - repeat constructor. intros [].
Defined.

Section SortAgain.
Context {A : Type} (keyf : A -> Z * Z).

(** A list that is in order is what the sort returns for it. *)
Lemma sorted_id (l : list A) :
  StronglySorted (key_le keyf) l -> sorted keyf l = l.
Proof.
  induction 1 as [|x l S IH F]; [reflexivity|].
  cbn [sorted fold_right]. fold (sorted keyf l). rewrite IH.
  destruct l as [|y l]; [reflexivity|]. cbn [insert_by].
  inversion F as [|? ? H _]; subst. unfold key_le in H. now rewrite H.
Qed.

Lemma sorted_again (l : list A) : sorted keyf (sorted keyf l) = sorted keyf l.
Proof. apply sorted_id, sorted_sorted. Qed.

Lemma sorted_map {B} (g : B -> A) (l : list B) :
  map g (sorted (fun b => keyf (g b)) l) = sorted keyf (map g l).
Proof.
  assert (I : forall x l, map g (insert_by (fun b => keyf (g b)) x l)
                          = insert_by keyf (g x) (map g l)).
  { intros x l0. induction l0 as [|y l0 IH]; [reflexivity|].
    cbn [insert_by map]. destruct (pair_leb (keyf (g x)) (keyf (g y)));
      [reflexivity|]. cbn [map]. now rewrite IH. }
  induction l as [|x l IH]; [reflexivity|].
  cbn [sorted fold_right map].
  fold (sorted (fun b => keyf (g b)) l). fold (sorted keyf (map g l)).
  now rewrite I, IH.
Qed.
End SortAgain.

(** X14. Sorting a sorted store changes nothing: [sort_events_desc] is
    idempotent. *)
Theorem sort_events_desc_again (rows : list row) :
  sort_events_desc (sort_events_desc rows) = sort_events_desc rows.
Proof.
  unfold sort_events_desc.
  pose proof (sorted_sorted sort_key rows) as S.
  now apply sorted_id.
Qed.

Lemma keyed_perm (m m' : list (key * row)) :
  Permutation m m' -> keyed m -> keyed m'.
Proof.
  intros P [ND F]. split.
  - apply (Permutation_NoDup (Permutation_map fst P) ND).
  - apply (Permutation_Forall P F).
Qed.

Lemma absorbs_perm (m m' : list (key * row)) (incoming : list row) :
  Permutation m m' -> keyed m -> absorbs m incoming -> absorbs m' incoming.
Proof.
  intros P Hk A r k I K. destruct (A r k I K) as [old [F Ab]].
  exists old. split; [|exact Ab].
  apply (dict_find_nodup eqkey eqkey_eq).
  - exact (proj1 (keyed_perm m m' P Hk)).
  - apply (Permutation_in _ P). now apply (dict_find_in eqkey eqkey_eq).
Qed.

(** What the consolidation made of the store is a fixed point of it. *)
Lemma consolidate_fixed (existing incoming : list row) :
  Forall wf_row incoming -> NoDup (keys_of incoming) ->
  consolidate (consolidate existing incoming) incoming
  = consolidate existing incoming.
Proof.
  intros WF ND. unfold consolidate.
  set (m := fold_left add_incoming incoming (fold_left add_existing existing [])).
  assert (Hk : keyed m) by now apply merged_keyed.
  assert (Ha : absorbs m incoming) by now apply merged_absorbs.
  change (merge_events existing incoming) with (map snd m).
  unfold sort_events_desc at 2.
  rewrite <- (sorted_map sort_key snd m).
  set (m' := sorted (fun b => sort_key (snd b)) m).
  assert (P : Permutation m m') by apply sorted_perm.
  rewrite (merge_events_fixed m' incoming (keyed_perm m m' P Hk)
                              (absorbs_perm m m' incoming P Hk Ha)).
  subst m'. rewrite (sorted_map sort_key snd m).
  unfold sort_events_desc. apply sorted_again.
Qed.

(** X15. Running the consolidation of [main] again with the same incoming
    records leaves the store as it is: what [merge_events] and
    [sort_events_desc] made of the store and the records of one extraction
    pass is a fixed point of the two. *)
Theorem consolidate_again (existing incoming : list row) :
  Forall wf_row incoming -> NoDup (keys_of incoming) ->
  consolidate (consolidate existing incoming) incoming
  = consolidate existing incoming.
Proof.
  intros WF ND. apply consolidate_fixed; assumption.
Qed.

Lemma consolidate_again_witness :
  consolidate (consolidate [stored_5_10_f; stored_7_20] [fresh_5_10])
              [fresh_5_10]
  = consolidate [stored_5_10_f; stored_7_20] [fresh_5_10].
Proof.
  apply (consolidate_again [stored_5_10_f; stored_7_20] [fresh_5_10]).
  - constructor; [|constructor].
    unfold wf_row; apply nodupb_NoDup; reflexivity.
  - repeat constructor. intros [].
Defined.

(** ** The flattener and the run *)

Lemma for_each_inv {A S} (body : S -> A -> result S) (I : S -> Prop) :
  (forall st x st', body st x = Ok st' -> I st -> I st') ->
  forall l st st', for_each body st l = Ok st' -> I st -> I st'.
Proof.
  intros Hb. induction l as [|x l IH]; intros st st'; cbn [for_each].
  - now intros [= <-].
  - destruct (body st x) as [st1|] eqn:E; cbn [bind]; [|discriminate].
    intros H Hi. apply (IH st1 st' H). now apply (Hb st x).
Qed.

Lemma flatten_event_inv (bkk : Z -> option text) (l : text) (st st' : acc)
      (evv : value) :
  flatten_event bkk l st evv = Ok st' -> flat_inv st -> flat_inv st'.
Proof.
  destruct st as [rows seen]. unfold flatten_event.
  destruct (as_dict evv) as [ev|]; cbn [bind]; [|discriminate].
  destruct (as_int (get ev (str "id"))) as [i|] eqn:Ei; [|now intros [= <-]].
  destruct (as_int (get ev (str "dateline"))) as [e|] eqn:Ee;
    [|now intros [= <-]].
  destruct (existsb (eqkey (i, e)) seen) eqn:Ex; [now intros [= <-]|].
  destruct (impact_label _) as [impact|]; cbn [bind]; [|discriminate].
  destruct (parse_epoch_to_bkk_iso bkk e) as [dt|]; cbn [bind]; [|discriminate].
  intros [= <-] [Hk [Hn Hf]]. cbn [fst snd] in *.
  split; [|split]; cbn [fst snd].
  - rewrite !map_app, Hk. f_equal. cbn [map]. f_equal.
    unfold key_of.
    change (get (event_row _ _ _ _ _ _ _) (str "event_id"))
      with (get ev (str "id")).
    change (get (event_row _ _ _ _ _ _ _) (str "dateline_epoch"))
      with (get ev (str "dateline")).
    now rewrite Ei, Ee.
  - apply NoDup_app; [exact Hn | repeat constructor; intros [] |].
    intros k Ik [<- | []].
    assert (existsb (eqkey (i, e)) seen = true); [|congruence].
    apply existsb_exists. exists (i, e). split; [exact Ik | apply eqkey_refl].
  - apply Forall_app. split; [exact Hf|]. now constructor.
Qed.

Lemma flatten_day_inv (bkk : Z -> option text) (st st' : acc) (dayv : value) :
  flatten_day bkk st dayv = Ok st' -> flat_inv st -> flat_inv st'.
Proof.
  unfold flatten_day.
  destruct (as_dict dayv) as [day|]; cbn [bind]; [|discriminate].
  destruct (strip_html_tags _) as [label|]; cbn [bind]; [|discriminate].
  destruct (iterate _) as [events|]; cbn [bind]; [|discriminate].
  apply for_each_inv. intros s x s'. apply flatten_event_inv.
Qed.

Lemma keys_of_some (rows : list row) (ks : list key) :
  map key_of rows = map Some ks -> keys_of rows = ks.
Proof.
  revert ks. induction rows as [|r rows IH]; intros [|k ks]; try discriminate;
    [reflexivity|].
  cbn [map]. intros [= Hr Hm]. unfold keys_of. cbn [flat_map]. rewrite Hr.
  cbn [app]. f_equal. now apply IH.
Qed.

Lemma flatten_inv (bkk : Z -> option text) (data : value) (rows : list row) :
  flatten bkk data = Ok rows ->
  NoDup (keys_of rows) /\ Forall (fun r => map fst r = FIELDS) rows.
Proof.
  unfold flatten.
  destruct (as_dict data) as [d|]; cbn [bind]; [|discriminate].
  destruct (iterate _) as [days|]; cbn [bind]; [|discriminate].
  destruct (for_each (flatten_day bkk) ([], []) days) as [st|] eqn:E;
    cbn [bind]; [|discriminate].
  intros [= <-].
  assert (I : flat_inv st).
  { apply (for_each_inv (flatten_day bkk) flat_inv
                        (fun s x s' => flatten_day_inv bkk s s' x) days _ _ E).
    repeat split; constructor. }
  destruct I as [Hk [Hn Hf]]. rewrite (keys_of_some _ _ Hk). now split.
Qed.

Lemma fields_wf (r : row) : map fst r = FIELDS -> wf_row r.
Proof.
  intros E. unfold wf_row. rewrite E. apply nodupb_NoDup. reflexivity.
Qed.

(** X16. Every record that the flattener emits has the seventeen columns
    of [main], in their order and each once, and holds an identity pair in
    [event_id] and [dateline_epoch]. *)
Theorem flatten_rows_schema (bkk : Z -> option text) (data : value)
        (rows : list row) :
  flatten bkk data = Ok rows ->
  Forall (fun r => map fst r = FIELDS /\ wf_row r /\ key_of r <> None) rows.
Proof.
  intros H. destruct (flatten_inv bkk data rows H) as [Hn Hf].
  assert (Hk : exists ks, map key_of rows = map Some ks).
  { revert H. unfold flatten.
    destruct (as_dict data) as [d|]; cbn [bind]; [|discriminate].
    destruct (iterate _) as [days|]; cbn [bind]; [|discriminate].
    destruct (for_each (flatten_day bkk) ([], []) days) as [st|] eqn:E;
      cbn [bind]; [|discriminate].
    intros [= <-]. exists (snd st).
    assert (I : flat_inv st).
    { apply (for_each_inv (flatten_day bkk) flat_inv
                          (fun s x s' => flatten_day_inv bkk s s' x) days _ _ E).
      repeat split; constructor. }
    now destruct I as [I1 _]. }
  destruct Hk as [ks Hk].
  apply Forall_forall. intros r I.
  pose proof (proj1 (Forall_forall _ _) Hf r I) as Fr.
  split; [exact Fr|]. split; [now apply fields_wf|].
  assert (In (key_of r) (map Some ks)) as J
      by (rewrite <- Hk; now apply in_map).
  apply in_map_iff in J. destruct J as [k [<- _]]. discriminate.
Qed.

Lemma flatten_rows_schema_witness :
  Forall (fun r => map fst r = FIELDS /\ wf_row r /\ key_of r <> None)
         [event_row (str "Mon")
            [(str "id", VInt 101); (str "dateline", VInt 1700000000);
             (str "impactName", VStr (str "High"));
             (str "name", VStr (str "CPI"))]
            (VInt 101) (VInt 1700000000) (str "T") (str "high") 3;
          event_row (str "Mon")
            [(str "id", VInt 102); (str "dateline", VInt 1700000000)]
            (VInt 102) (VInt 1700000000) (str "T") [] 0].
Proof.
  apply (flatten_rows_schema demo_bkk demo_tree). reflexivity.
Defined.

Lemma sort_events_desc_desc (l : list row) :
  StronglySorted desc (sort_events_desc l).
Proof.
  pose proof (sorted_sorted sort_key l) as H. unfold sort_events_desc.
  induction H; constructor; auto.
  eapply Forall_impl; [|eassumption]. intros b. apply key_le_desc.
Qed.

Lemma load_written (rows : list row) :
  map dict_of (filter is_dict (map VDict rows)) = rows.
Proof.
  induction rows as [|r rows IH]; [reflexivity|].
  cbn [map filter is_dict dict_of]. now rewrite IH.
Qed.

Lemma consolidate_keys (existing incoming : list row) :
  Forall wf_row incoming ->
  NoDup (map key_of (consolidate existing incoming)) /\
  Forall (fun r => key_of r <> None) (consolidate existing incoming).
Proof.
  intros WF. unfold consolidate, sort_events_desc.
  pose proof (sorted_perm sort_key (merge_events existing incoming)) as P.
  split.
  - apply (Permutation_NoDup (Permutation_map key_of P)).
    now apply merge_events_keys_nodup.
  - apply (Permutation_Forall P). unfold merge_events.
    pose proof (merged_keyed existing incoming WF) as [_ F].
    apply Forall_forall. intros r I. apply in_map_iff in I.
    destruct I as [[k r'] [<- I]].
    rewrite (proj1 (Forall_forall _ _) F _ I). discriminate.
Qed.

Section RunMore.
Variable bkk : Z -> option text.
Variables json_dumps csv_text meta_text : list row -> text.
Variable traceback : exn -> text.

Lemma main_rows_some (fs : filesystem) (rows : list row) :
  main_rows bkk fs = Some rows ->
  main bkk json_dumps csv_text meta_text fs =
  (write_text
     (write_text (write_text fs OUT_EVENTS_JSON (json_dumps rows))
                 OUT_EVENTS_CSV (csv_text rows))
     OUT_META (meta_text rows), Ok tt).
Proof.
  unfold main_rows, main, consolidate. destruct (fs IN_HTML); [|discriminate].
  destruct (extract_object_literal _ _); [|discriminate].
  destruct (Json.loads _); [|discriminate].
  destruct (flatten _ _); [|discriminate].
  now intros [= <-].
Qed.

Lemma main_ok_rows (fs fs' : filesystem) :
  main bkk json_dumps csv_text meta_text fs = (fs', Ok tt) ->
  exists rows, main_rows bkk fs = Some rows.
Proof.
  unfold main_rows, main. destruct (fs IN_HTML); [|discriminate].
  destruct (extract_object_literal _ _); [|discriminate].
  destruct (Json.loads _); [|discriminate].
  destruct (flatten _ _); [|discriminate].
  intros _. eauto.
Qed.

Lemma main_rows_stored (fs : filesystem) (rows : list row) :
  main_rows bkk fs = Some rows ->
  StronglySorted desc rows /\ NoDup (map key_of rows) /\
  Forall (fun r => key_of r <> None) rows.
Proof.
  unfold main_rows. destruct (fs IN_HTML); [|discriminate].
  destruct (extract_object_literal _ _); [|discriminate].
  destruct (Json.loads _) as [data|]; [|discriminate].
  destruct (flatten bkk data) as [rows0|] eqn:F; [|discriminate].
  intros [= <-].
  destruct (flatten_inv bkk data rows0 F) as [_ Hf].
  assert (WF : Forall wf_row rows0).
  { eapply Forall_impl; [|exact Hf]. intros r. apply fields_wf. }
  split; [apply sort_events_desc_desc|]. now apply consolidate_keys.
Qed.

(** X17. A run of [main] that ends well has written the three output
    files from one record list and has touched no other file; the list is
    in the order of the store (epoch descending, then event_id
    descending), every record of it has its identity pair, and no two
    records share one. *)
Theorem main_success_store (fs fs' : filesystem) :
  main bkk json_dumps csv_text meta_text fs = (fs', Ok tt) ->
  exists rows,
    fs' OUT_EVENTS_JSON = Some (json_dumps rows) /\
    fs' OUT_EVENTS_CSV = Some (csv_text rows) /\
    fs' OUT_META = Some (meta_text rows) /\
    (forall p, p <> OUT_EVENTS_JSON -> p <> OUT_EVENTS_CSV -> p <> OUT_META ->
               fs' p = fs p) /\
    StronglySorted desc rows /\ NoDup (map key_of rows) /\
    Forall (fun r => key_of r <> None) rows.
Proof.
  intros H. destruct (main_ok_rows fs fs' H) as [rows R].
  rewrite (main_rows_some fs rows R) in H. injection H as <-.
  exists rows. split; [reflexivity|]. split; [reflexivity|].
  split; [reflexivity|]. split; [|now apply (main_rows_stored fs)].
  intros p N1 N2 N3. unfold write_text.
  apply eqt_neq in N1, N2, N3. now rewrite N1, N2, N3.
Qed.

(** X18. Running [main] again on the same snapshot leaves the stored
    records and their tabular mirror as the first run wrote them, when the
    decoder reads the stored text back as the list that was written. *)
Theorem main_again (fs : filesystem) (rows : list row) :
  main_rows bkk fs = Some rows ->
  Json.loads (json_dumps rows) = Some (VList (map VDict rows)) ->
  let fs1 := fst (main bkk json_dumps csv_text meta_text fs) in
  snd (main bkk json_dumps csv_text meta_text fs1) = Ok tt /\
  fst (main bkk json_dumps csv_text meta_text fs1) OUT_EVENTS_JSON
  = fs1 OUT_EVENTS_JSON /\
  fst (main bkk json_dumps csv_text meta_text fs1) OUT_EVENTS_CSV
  = fs1 OUT_EVENTS_CSV.
Proof.
  intros R L. rewrite (main_rows_some fs rows R). cbn [fst].
  set (fs1 := write_text _ OUT_META _).
  assert (R1 : main_rows bkk fs1 = Some rows).
  { revert R. unfold main_rows.
    change (fs1 IN_HTML) with (fs IN_HTML).
    destruct (fs IN_HTML); [|discriminate].
    destruct (extract_object_literal _ _); [|discriminate].
    destruct (Json.loads (js_object_to_json_text _)) as [data|]; [|discriminate].
    destruct (flatten bkk data) as [rows0|] eqn:F; [|discriminate].
    intros [= <-]. f_equal.
    assert (E : load_existing_events fs1 OUT_EVENTS_JSON
                = consolidate (load_existing_events fs OUT_EVENTS_JSON) rows0).
    { unfold load_existing_events at 1.
      change (fs1 OUT_EVENTS_JSON)
        with (Some (json_dumps
                      (consolidate (load_existing_events fs OUT_EVENTS_JSON)
                                   rows0))).
      cbv iota. rewrite L. apply load_written. }
    rewrite E. destruct (flatten_inv bkk data rows0 F) as [Hn Hf].
    apply consolidate_fixed; [|exact Hn].
    eapply Forall_impl; [|exact Hf]. intros r. apply fields_wf. }
  rewrite (main_rows_some fs1 rows R1). cbn [fst snd].
  repeat split.
Qed.

End RunMore.

Lemma main_success_store_witness :
  exists rows,
    fst (main demo_bkk demo_dumps demo_text demo_text demo_fs) OUT_EVENTS_JSON
    = Some (demo_dumps rows) /\
    fst (main demo_bkk demo_dumps demo_text demo_text demo_fs) OUT_EVENTS_CSV
    = Some (demo_text rows) /\
    fst (main demo_bkk demo_dumps demo_text demo_text demo_fs) OUT_META
    = Some (demo_text rows) /\
    (forall p, p <> OUT_EVENTS_JSON -> p <> OUT_EVENTS_CSV -> p <> OUT_META ->
               fst (main demo_bkk demo_dumps demo_text demo_text demo_fs) p
               = demo_fs p) /\
    StronglySorted desc rows /\ NoDup (map key_of rows) /\
    Forall (fun r => key_of r <> None) rows.
Proof.
  apply (main_success_store demo_bkk demo_dumps demo_text demo_text demo_fs).
  vm_compute. reflexivity.
Defined.

Lemma main_again_witness :
  let fs1 := fst (main demo_bkk demo_dumps demo_text demo_text demo_fs) in
  snd (main demo_bkk demo_dumps demo_text demo_text fs1) = Ok tt /\
  fst (main demo_bkk demo_dumps demo_text demo_text fs1) OUT_EVENTS_JSON
  = fs1 OUT_EVENTS_JSON /\
  fst (main demo_bkk demo_dumps demo_text demo_text fs1) OUT_EVENTS_CSV
  = fs1 OUT_EVENTS_CSV.
Proof.
  apply (main_again demo_bkk demo_dumps demo_text demo_text demo_fs
                    (consolidate [] [event_row (str "Mon")
                       [(str "id", VInt 7); (str "dateline", VInt 20);
                        (str "impactName", VStr (str "High"));
                        (str "name", VStr (str "CPI"))]
                       (VInt 7) (VInt 20) (str "T") (str "high") 3;
                     event_row (str "Mon")
                       [(str "id", VInt 5); (str "dateline", VInt 10);
                        (str "actual", VStr (str "1.3"))]
                       (VInt 5) (VInt 10) (str "T") [] 0])).
  - vm_compute. reflexivity.
  - vm_compute. reflexivity.
Defined.


(** ** The tabular mirror *)

Lemma comma_not_dq : eqc "," DQ = false.
Proof. reflexivity. Qed.

Lemma field_end_no_dq (t t' : text) : field_end t -> t <> DQ :: t'.
Proof.
  intros [-> | [r ->]]; [discriminate|]. intros E. inversion E.
Qed.

Lemma plain_split (s : text) :
  forall s' t t',
    existsb (eqc ",") s = false -> existsb (eqc ",") s' = false ->
    field_end t -> field_end t' ->
    s ++ t = s' ++ t' -> s = s' /\ t = t'.
Proof.
  assert (K : forall c r t t',
             existsb (eqc ",") (c :: r) = false -> field_end t ->
             t <> (c :: r) ++ t').
  { intros c r t t' N [-> | [x ->]]; [discriminate|]. intros E.
    inversion E; subst. cbn [existsb] in N. now rewrite eqc_refl in N. }
  induction s as [|c s IH]; intros s' t t' N N' F F' E.
  - destruct s' as [|c' s']; [now split|]. exfalso.
    exact (K c' s' t t' N' F E).
  - destruct s' as [|c' s'].
    + exfalso. exact (K c s t' t N F' (eq_sym E)).
    + inversion E; subst. cbn [existsb] in N, N'.
      apply orb_false_iff in N, N'.
      destruct (IH s' t t' (proj2 N) (proj2 N') F F' H1) as [-> ->].
      now split.
Qed.

Lemma double_quotes_split (s : text) :
  forall s' t t',
    field_end t -> field_end t' ->
    double_quotes s ++ DQ :: t = double_quotes s' ++ DQ :: t' ->
    s = s' /\ t = t'.
Proof.
  induction s as [|c s IH]; intros s' t t' F F'; unfold double_quotes in *.
  - destruct s' as [|c' s']; cbn [flat_map app].
    + intros [= ->]. now split.
    + destruct (eqc c' DQ) eqn:E; cbn [app]; intros H.
      * injection H as Ht. exfalso. exact (field_end_no_dq _ _ F Ht).
      * injection H as Hc _. subst c'. now rewrite eqc_refl in E.
  - destruct s' as [|c' s']; cbn [flat_map app].
    + destruct (eqc c DQ) eqn:E; cbn [app]; intros H.
      * injection H as Ht. exfalso. exact (field_end_no_dq _ _ F' (eq_sym Ht)).
      * injection H as Hc _. subst c. now rewrite eqc_refl in E.
    + destruct (eqc c DQ) eqn:E, (eqc c' DQ) eqn:E'; cbn [app]; intros H.
      * injection H as H2. apply eqc_eq in E, E'. subst.
        destruct (IH s' t t' F F' H2) as [-> ->]. now split.
      * injection H as Hc _. subst c'. now rewrite eqc_refl in E'.
      * injection H as Hc _. subst c. now rewrite eqc_refl in E.
      * injection H as Hc H2. subst c'.
        destruct (IH s' t t' F F' H2) as [-> ->]. now split.
Qed.

(** A written field ends where the next comma outside quotes stands: two
    fields that start two equal texts are the same field. *)
Lemma quote_csv_split (s s' t t' : text) :
  field_end t -> field_end t' ->
  quote_csv s ++ t = quote_csv s' ++ t' -> s = s' /\ t = t'.
Proof.
  intros F F'. unfold quote_csv. cbn [existsb].
  assert (M : forall a b u u',
             existsb (eqc ",") a || (existsb (eqc DQ) a
                                     || (existsb (eqc LF) a || false)) = false ->
             field_end u ->
             a ++ u <> ([DQ] ++ double_quotes b ++ [DQ]) ++ u').
  { intros a b u u' N Fu E. apply orb_false_iff in N. destruct N as [_ N].
    apply orb_false_iff in N. destruct N as [N _].
    destruct a as [|c a]; cbn [app] in E.
    - exact (field_end_no_dq _ _ Fu E).
    - inversion E; subst. cbn [existsb] in N. now rewrite eqc_refl in N. }
  destruct (existsb (eqc ",") s || _) eqn:Q;
    destruct (existsb (eqc ",") s' || _) eqn:Q'.
  - cbn [app]. rewrite <- !app_assoc. cbn [app]. intros [= H].
    now apply (double_quotes_split s s' t t').
  - intros E. exfalso. exact (M s' s t' t Q' F' (eq_sym E)).
  - intros E. exfalso. exact (M s s' t t' Q F E).
  - apply orb_false_iff in Q, Q'. apply plain_split; tauto.
Qed.

Lemma join_with_more (sep x y : text) (r : list text) :
  join_with sep (x :: y :: r) = x ++ sep ++ join_with sep (y :: r).
Proof. reflexivity. Qed.

Lemma join_quote_csv (xs : list text) :
  forall ys,
    length xs = length ys ->
    join_with [","%char] (map quote_csv xs)
    = join_with [","%char] (map quote_csv ys) ->
    xs = ys.
Proof.
  induction xs as [|x xs IH]; intros [|y ys] L; try discriminate L;
    [reflexivity|].
  injection L as L.
  destruct xs as [|x2 xs], ys as [|y2 ys]; try discriminate L.
  - cbn [map join_with]. intros E.
    assert (H : quote_csv x ++ [] = quote_csv y ++ [])
      by now rewrite !app_nil_r.
    destruct (quote_csv_split x y [] [] (or_introl eq_refl)
                              (or_introl eq_refl) H) as [-> _].
    reflexivity.
  - cbn [map].
    rewrite (join_with_more _ (quote_csv x)), (join_with_more _ (quote_csv y)).
    intros E.
    assert (F : forall u, field_end ([","%char] ++ u))
      by (intros u; right; exists u; reflexivity).
    destruct (quote_csv_split x y _ _ (F _) (F _) E) as [-> T].
    apply app_inv_head in T. f_equal. apply (IH (y2 :: ys) L). exact T.
Qed.

(** X20. A line of the tabular file is unambiguous: two records whose
    lines are equal have, column by column, the same text ([None] being
    written as the empty text), whatever commas, double quotes and line
    feeds the texts hold. *)
Theorem csv_line_unambiguous (py_str : value -> text) (headers : list text)
        (r r' : row) :
  csv_line py_str headers r = csv_line py_str headers r' ->
  map (fun h => cell py_str (get r h)) headers
  = map (fun h => cell py_str (get r' h)) headers.
Proof.
  unfold csv_line, esc_csv. intros E.
  apply join_quote_csv; [now rewrite !length_map|].
  now rewrite !map_map.
Qed.

Lemma csv_line_unambiguous_witness :
  map (fun h => cell (fun _ => []) (get [(str "a", VStr (qstr "x,`y`"));
                                         (str "b", VNull)] h))
      [str "a"; str "b"]
  = map (fun h => cell (fun _ => []) (get [(str "b", VStr []);
                                           (str "a", VStr (qstr "x,`y`"))] h))
        [str "a"; str "b"].
Proof.
  apply (csv_line_unambiguous (fun _ => []) [str "a"; str "b"]).
  reflexivity.
Defined.

(** ** The two scorings of the impact label *)

Lemma isspace_lower (c : ascii) : isspace (lower_char c) = isspace c.
Proof. ascii_cases c; reflexivity. Qed.

Lemma dropwhile_lower (s : text) :
  dropwhile isspace (map lower_char s) = map lower_char (dropwhile isspace s).
Proof.
  induction s as [|c s IH]; [reflexivity|].
  cbn [map dropwhile]. rewrite isspace_lower.
  destruct (isspace c); [exact IH | reflexivity].
Qed.

(** Lower-casing and stripping commute. *)
Lemma lower_strip (s : text) : lower (strip s) = strip (lower s).
Proof.
  unfold strip, lower.
  now rewrite dropwhile_lower, <- map_rev, dropwhile_lower, <- map_rev.
Qed.

(** X21. The scoring by containment of [god_project] agrees with the
    exact table of the extraction script wherever the table scores: when
    the lower-cased, stripped label has the table entry 3, 2 or 1, the
    scoring by containment gives the same number for the label. *)
Theorem impact_score_agrees_with_table (s label : text) (n : Z) :
  impact_label (VStr s) = Ok label ->
  impact_score_of label = n -> n <> 0%Z ->
  GodProject.impact_score (Some s) = Some n.
Proof.
  intros L S N.
  assert (E : label = lower (strip s)).
  { rewrite lower_strip. destruct s; now injection L as <-. }
  assert (Hs : s <> []).
  { intros ->. subst label. now subst n. }
  revert S. unfold impact_score_of, IMPACT_SCORE. cbn [dict_find].
  unfold GodProject.impact_score. destruct s as [|c s]; [congruence|].
  cbv zeta. rewrite <- E.
  destruct (eqt label (str "high")) eqn:E1.
  { apply eqt_eq in E1. rewrite E1. now intros <-. }
  destruct (eqt label (str "medium")) eqn:E2.
  { apply eqt_eq in E2. rewrite E2. now intros <-. }
  destruct (eqt label (str "low")) eqn:E3.
  { apply eqt_eq in E3. rewrite E3. now intros <-. }
  intros <-. contradiction.
Qed.

Lemma impact_score_agrees_with_table_witness :
  GodProject.impact_score (Some (str " Medium ")) = Some 2%Z.
Proof.
  apply (impact_score_agrees_with_table (str " Medium ") (str "medium") 2).
  - reflexivity.
  - reflexivity.
  - discriminate.
Defined.

(* ------------------------------------------------------------------ *)
(** * The refresh merge *)

Section RefreshFacts.
Variable int_of_str : text -> option Z.
Variable int_of_float : pyfloat -> option Z.
Variable float_eq : pyfloat -> pyfloat -> bool.
Variable float_eq_int : pyfloat -> Z -> bool.
Variable container_eq : value -> value -> bool.

Local Abbreviation pk := (Refresh.pk int_of_str int_of_float).
Local Abbreviation py_eq := (Refresh.py_eq float_eq float_eq_int container_eq).
Local Abbreviation refresh_field :=
  (Refresh.refresh_field float_eq float_eq_int container_eq).
Local Abbreviation index_before := (Refresh.index_before int_of_str int_of_float).
Local Abbreviation merge_after :=
  (Refresh.merge_after int_of_str int_of_float float_eq float_eq_int
                       container_eq).
Local Abbreviation refresh_key := (Refresh.sort_key int_of_str int_of_float).
Local Abbreviation keyed_rows := (Refresh.keyed_rows int_of_str int_of_float).
Local Abbreviation refresh_merge :=
  (Refresh.merge_events int_of_str int_of_float float_eq float_eq_int
                        container_eq).

(** A value that is not blank differs from a blank one. *)
Lemma py_eq_blank (av bv : value) :
  is_blank bv = true -> is_blank av = false -> py_eq av bv = false.
Proof.
  destruct bv as [| | | |y| |]; try discriminate; intros Hb Ha.
  - destruct av; try reflexivity. discriminate Ha.
  - destruct av as [| | | |x| |]; try reflexivity.
    cbn [Refresh.py_eq]. destruct (eqt x y) eqn:E; [|reflexivity].
    apply eqt_eq in E. subst. cbn [is_blank] in *. congruence.
Qed.

(** The fields after [actual] leave the counter of [actual] alone, and
    the flag [changed] is never taken back. *)
Lemma refresh_fold_rest (a : row) (fields : list text) :
  forall b ch u,
    ~ In (str "actual") fields ->
    snd (fold_left (refresh_field a) fields (b, ch, u)) = u /\
    (ch = true -> snd (fst (fold_left (refresh_field a) fields (b, ch, u))) = true).
Proof.
  induction fields as [|f fields IH]; intros b ch u N; [now split|].
  cbn [fold_left].
  assert (Nf : eqt f (str "actual") = false).
  { apply eqt_neq. intros ->. apply N. now left. }
  assert (N' : ~ In (str "actual") fields) by (intros I; apply N; now right).
  assert (S : refresh_field a (b, ch, u) f = (b, ch, u) \/
              refresh_field a (b, ch, u) f
              = (dict_set eqt b f (get a f), true, u)).
  { unfold Refresh.refresh_field. destruct (dict_mem eqt a f); [|now left].
    destruct (negb _ && negb _); [|now left]. rewrite Nf. now right. }
  destruct S as [-> | ->]; [now apply IH|].
  destruct (IH (dict_set eqt b f (get a f)) true u N') as [H1 H2].
  split; [exact H1 | intros _; now apply H2].
Qed.

(** What the loop over the fields does to the counters. *)
Lemma refresh_fold_counts (a b : row) (u : nat) :
  let r := fold_left (refresh_field a) Refresh.REFRESH_FIELDS (b, false, u) in
  (snd r = u \/ (snd r = u + 1 /\ snd (fst r) = true)) /\
  (is_blank (get b (str "actual")) && negb (is_blank (get a (str "actual")))
   = true -> snd r = u + 1).
Proof.
  cbv zeta.
  change Refresh.REFRESH_FIELDS
    with (str "actual" :: tl Refresh.REFRESH_FIELDS).
  cbn [fold_left].
  assert (N : ~ In (str "actual") (tl Refresh.REFRESH_FIELDS)).
  { intros I. cbn in I.
    repeat (destruct I as [I | I]; [discriminate I|]). exact I. }
  assert (S : refresh_field a (b, false, u) (str "actual") =
              if dict_mem eqt a (str "actual") then
                if negb (py_eq (get a (str "actual")) (get b (str "actual")))
                   && negb (is_blank (get a (str "actual"))
                            && is_blank (get b (str "actual")))
                then (dict_set eqt b (str "actual") (get a (str "actual")),
                      true, u + 1)
                else (b, false, u)
              else (b, false, u)) by reflexivity.
  rewrite S. clear S.
  destruct (dict_mem eqt a (str "actual")) eqn:M.
  - destruct (negb (py_eq (get a (str "actual")) (get b (str "actual")))
              && negb (is_blank (get a (str "actual"))
                       && is_blank (get b (str "actual")))) eqn:C.
    + destruct (refresh_fold_rest a (tl Refresh.REFRESH_FIELDS)
                  (dict_set eqt b (str "actual") (get a (str "actual")))
                  true (u + 1) N) as [H1 H2].
      split; [right; split; [exact H1 | now apply H2] | intros _; exact H1].
    + destruct (refresh_fold_rest a (tl Refresh.REFRESH_FIELDS) b false u N)
        as [H1 _].
      split; [now left|]. intros B. exfalso.
      apply andb_true_iff in B. destruct B as [Bb Ba].
      apply negb_true_iff in Ba.
      rewrite (py_eq_blank _ _ Bb Ba), Ba in C. discriminate C.
  - destruct (refresh_fold_rest a (tl Refresh.REFRESH_FIELDS) b false u N)
      as [H1 _].
    split; [now left|]. intros B. exfalso.
    apply andb_true_iff in B. destruct B as [_ Ba].
    apply negb_true_iff in Ba. unfold dict_mem in M. unfold get in Ba.
    destruct (dict_find eqt a (str "actual")); discriminate.
Qed.

Lemma update_at_length (rows : list row) :
  forall i b, length (Refresh.update_at rows i b) = length rows.
Proof.
  induction rows as [|r rows IH]; intros [|i] b; cbn [Refresh.update_at length];
    auto.
Qed.

Lemma keyed_rows_rows (rows : list row) (krs : list (Z * Z * row)) :
  keyed_rows rows = Some krs ->
  map snd krs = rows /\
  Forall (fun kr => refresh_key (snd kr) = Some (fst kr)) krs.
Proof.
  revert krs. induction rows as [|r rows IH]; intros krs; cbn [Refresh.keyed_rows].
  - intros [= <-]. split; constructor.
  - destruct (refresh_key r) as [k|] eqn:K; [|discriminate].
    destruct (keyed_rows rows) as [krs'|]; [|discriminate].
    intros [= <-]. destruct (IH krs' eq_refl) as [E F].
    cbn [map snd]. rewrite E. split; [reflexivity|]. now constructor.
Qed.

(** The counters after one incoming record. *)
Lemma merge_after_counts (rows : list row) (m : list (key * nat))
      (s : Refresh.stats) (a : row) :
  let '(rows', _, s') := merge_after (rows, m, s) a in
  Refresh.matched s' + Refresh.added s'
  = Refresh.matched s + Refresh.added s
    + match pk a with Some _ => 1 | None => 0 end /\
  length rows' + Refresh.added s = length rows + Refresh.added s' /\
  (Refresh.newly_released s <= Refresh.updated_actual s ->
   Refresh.updated_actual s <= Refresh.updated_any s ->
   Refresh.updated_any s <= Refresh.matched s ->
   Refresh.newly_released s' <= Refresh.updated_actual s' /\
   Refresh.updated_actual s' <= Refresh.updated_any s' /\
   Refresh.updated_any s' <= Refresh.matched s').
Proof.
  unfold Refresh.merge_after. destruct (pk a) as [k|]; [|repeat split; auto; lia].
  destruct (dict_find eqkey m k) as [i|].
  - pose proof (refresh_fold_counts a (nth i rows []) (Refresh.updated_actual s))
      as C. cbv zeta in C.
    destruct (fold_left (refresh_field a) Refresh.REFRESH_FIELDS
                        (nth i rows [], false, Refresh.updated_actual s))
      as [[b' ch] upd].
    cbn [fst snd] in C. destruct C as [C1 C2].
    cbn [Refresh.matched Refresh.added Refresh.updated_any
         Refresh.updated_actual Refresh.newly_released].
    rewrite update_at_length. split; [lia|]. split; [lia|].
    intros H1 H2 H3.
    destruct (is_blank _ && negb _).
    + specialize (C2 eq_refl). destruct C1 as [C1 | [_ C1]]; [lia|].
      subst ch. lia.
    + destruct C1 as [-> | [-> ->]]; [destruct ch|]; lia.
  - cbn [Refresh.matched Refresh.added Refresh.updated_any
         Refresh.updated_actual Refresh.newly_released].
    rewrite length_app. cbn [length]. repeat split; lia.
Qed.

Lemma fold_merge_after_counts (after : list row) :
  forall rows m s,
    let '(rows', _, s') := fold_left merge_after after (rows, m, s) in
    Refresh.matched s' + Refresh.added s'
    = Refresh.matched s + Refresh.added s
      + length (filter (fun a => match pk a with Some _ => true | None => false end) after) /\
    length rows' + Refresh.added s = length rows + Refresh.added s' /\
    (Refresh.newly_released s <= Refresh.updated_actual s ->
     Refresh.updated_actual s <= Refresh.updated_any s ->
     Refresh.updated_any s <= Refresh.matched s ->
     Refresh.newly_released s' <= Refresh.updated_actual s' /\
     Refresh.updated_actual s' <= Refresh.updated_any s' /\
     Refresh.updated_any s' <= Refresh.matched s').
Proof.
  induction after as [|a after IH]; intros rows m s.
  - cbn [fold_left filter length]. repeat split; auto; lia.
  - cbn [fold_left filter].
    pose proof (merge_after_counts rows m s a) as A.
    destruct (merge_after (rows, m, s) a) as [[rows1 m1] s1].
    specialize (IH rows1 m1 s1).
    destruct (fold_left merge_after after (rows1, m1, s1)) as [[rows2 m2] s2].
    destruct A as [A1 [A2 A3]], IH as [I1 [I2 I3]].
    split; [|split].
    + destruct (pk a); cbn [length]; lia.
    + lia.
    + intros H1 H2 H3. destruct (A3 H1 H2 H3) as [B1 [B2 B3]]. now apply I3.
Qed.

(** X22. The counters of the refresh merge fit the lists: every incoming
    record that has a key is either matched or added, the merged list has
    the stored records and the added ones, and a newly released actual is
    an updated actual, which is an updated record, which is a matched
    one. *)
Theorem refresh_merge_counts (before after rows : list row)
        (s : Refresh.stats) :
  refresh_merge before after = Some (rows, s) ->
  Refresh.matched s + Refresh.added s
  = length (filter (fun a => match pk a with Some _ => true | None => false end) after) /\
  length rows = length before + Refresh.added s /\
  Refresh.newly_released s <= Refresh.updated_actual s /\
  Refresh.updated_actual s <= Refresh.updated_any s /\
  Refresh.updated_any s <= Refresh.matched s.
Proof.
  unfold Refresh.merge_events.
  pose proof (fold_merge_after_counts after before
                (fst (fold_left index_before before ([], 0)))
                (Refresh.Stats 0 0 0 0 0)) as C.
  destruct (fold_left merge_after after _) as [[rows1 m1] s1].
  destruct (keyed_rows rows1) as [krs|] eqn:K; [|discriminate].
  intros [= <- <-]. destruct (keyed_rows_rows rows1 krs K) as [E _].
  cbn [Refresh.matched Refresh.added Refresh.updated_any
       Refresh.updated_actual Refresh.newly_released] in C.
  destruct C as [C1 [C2 C3]]. split; [lia|]. split.
  - rewrite length_map.
    rewrite <- (Permutation_length (sorted_perm fst krs)).
    rewrite <- E in C2. rewrite length_map in C2. lia.
  - apply C3; lia.
Qed.

Lemma keyed_rows_keys (l : list (Z * Z * row)) :
  Forall (fun kr => refresh_key (snd kr) = Some (fst kr)) l ->
  map refresh_key (map snd l) = map Some (map fst l).
Proof.
  induction 1 as [|kr l H F IH]; [reflexivity|].
  cbn [map]. now rewrite H, IH.
Qed.

Lemma sorted_fst_keys (l : list (Z * Z * row)) :
  StronglySorted (key_le fst) l ->
  StronglySorted (fun x y => pair_leb x y = true) (map fst l).
Proof.
  induction 1 as [|kr l S IH F]; cbn [map]; constructor; [exact IH|].
  apply Forall_map. exact F.
Qed.

(** X23. The list that the refresh merge returns is in ascending order of
    the pair (epoch, event_id), each read with [int] and a missing field
    counting as 0. *)
Theorem refresh_merge_sorted (before after rows : list row)
        (s : Refresh.stats) :
  refresh_merge before after = Some (rows, s) ->
  exists ks,
    map refresh_key rows = map Some ks /\
    StronglySorted (fun x y => pair_leb x y = true) ks.
Proof.
  unfold Refresh.merge_events.
  destruct (fold_left merge_after after _) as [[rows1 m1] s1].
  destruct (keyed_rows rows1) as [krs|] eqn:K; [|discriminate].
  intros [= <- <-]. destruct (keyed_rows_rows rows1 krs K) as [_ F].
  exists (map fst (sorted fst krs)). split.
  - apply keyed_rows_keys.
    exact (Permutation_Forall (sorted_perm fst krs) F).
  - apply sorted_fst_keys, sorted_sorted.
Qed.

(** A record that has a key has a sort key: the same two integers. *)
Lemma pk_refresh_key (r : row) (i e : Z) :
  pk r = Some (i, e) -> refresh_key r = Some (e, i).
Proof.
  unfold Refresh.pk, Refresh.sort_key, get_default.
  destruct (dict_find eqt r (str "event_id")) as [a|]; [|discriminate].
  destruct (Refresh.py_int int_of_str int_of_float a) as [i'|]; [|discriminate].
  destruct (dict_find eqt r (str "dateline_epoch")) as [b|]; [|discriminate].
  destruct (Refresh.py_int int_of_str int_of_float b) as [e'|]; [|discriminate].
  now intros [= -> ->].
Qed.

(** The loop over the fields writes the refresh fields only. *)
Lemma refresh_fold_other (a : row) (g : text) (fields : list text) :
  forall b ch u,
    ~ In g fields ->
    dict_find eqt (fst (fst (fold_left (refresh_field a) fields (b, ch, u)))) g
    = dict_find eqt b g.
Proof.
  induction fields as [|f fields IH]; intros b ch u N; [reflexivity|].
  cbn [fold_left].
  assert (Nf : g <> f) by (intros ->; apply N; now left).
  assert (N' : ~ In g fields) by (intros I; apply N; now right).
  assert (S : exists b1 ch1 u1,
             refresh_field a (b, ch, u) f = (b1, ch1, u1) /\
             dict_find eqt b1 g = dict_find eqt b g).
  { unfold Refresh.refresh_field. destruct (dict_mem eqt a f); [|eauto].
    destruct (negb _ && negb _); [|eauto].
    eexists _, _, _. split; [reflexivity|].
    now apply dict_find_set_other; [apply eqt_eq|]. }
  destruct S as [b1 [ch1 [u1 [-> E]]]]. now rewrite IH.
Qed.

Lemma refresh_fold_pk (a b : row) (u : nat) :
  pk (fst (fst (fold_left (refresh_field a) Refresh.REFRESH_FIELDS
                          (b, false, u)))) = pk b.
Proof.
  unfold Refresh.pk.
  rewrite !refresh_fold_other; [reflexivity| |];
    intros I; cbn in I;
    repeat (destruct I as [I | I]; [discriminate I|]); exact I.
Qed.

Lemma update_at_same (rows : list row) :
  forall i b b',
    nth_error rows i = Some b ->
    nth_error (Refresh.update_at rows i b') i = Some b'.
Proof.
  induction rows as [|r rows IH]; intros [|i] b b'; cbn; try discriminate; eauto.
Qed.

Lemma update_at_other (rows : list row) :
  forall i j b',
    i <> j -> nth_error (Refresh.update_at rows i b') j = nth_error rows j.
Proof.
  induction rows as [|r rows IH]; intros [|i] [|j] b' N; cbn;
    try reflexivity; try contradiction.
  apply IH. congruence.
Qed.

Lemma update_at_in (rows : list row) :
  forall i b' r, In r (Refresh.update_at rows i b') -> r = b' \/ In r rows.
Proof.
  induction rows as [|x rows IH]; intros [|i] b' r; cbn; try tauto.
  - intros [<- | I]; auto.
  - intros [<- | I]; auto. destruct (IH i b' r I); auto.
Qed.

Lemma update_at_keeps (rows : list row) :
  forall i b b' r,
    In r rows -> nth_error rows i = Some b -> r <> b ->
    In r (Refresh.update_at rows i b').
Proof.
  induction rows as [|x rows IH]; intros [|i] b b' r; cbn; try tauto.
  - intros [<- | I] [= <-] N; [contradiction | now right].
  - intros [<- | I] E N; [now left | right; eauto].
Qed.

(** After the first loop, [before_map] sends a key to a record of
    [before] that has the key. *)
Lemma index_before_points (l : list row) :
  forall pre m,
    (forall k i, dict_find eqkey m k = Some i ->
                 exists b, nth_error (pre ++ l) i = Some b /\ pk b = Some k) ->
    forall k i,
      dict_find eqkey (fst (fold_left index_before l (m, length pre))) k
      = Some i ->
      exists b, nth_error (pre ++ l) i = Some b /\ pk b = Some k.
Proof.
  induction l as [|e l IH]; intros pre m H k i; [apply H|].
  cbn [fold_left]. unfold Refresh.index_before at 2.
  replace (S (length pre)) with (length (pre ++ [e]))
    by (rewrite length_app; simpl; lia).
  replace (pre ++ e :: l) with ((pre ++ [e]) ++ l) in *
    by (now rewrite <- app_assoc).
  destruct (pk e) as [k0|] eqn:K; apply IH; [|exact H].
  intros k1 i1. destruct (eqkey k1 k0) eqn:E.
  - apply eqkey_eq in E. subst k1.
    rewrite (dict_find_set_same eqkey eqkey_eq). intros [= <-].
    exists e. split; [|exact K].
    rewrite <- app_assoc. cbn [app]. rewrite nth_error_app2 by lia.
    now rewrite Nat.sub_diag.
  - rewrite (dict_find_set_other eqkey eqkey_eq).
    + apply H.
    + intros ->. now rewrite eqkey_refl in E.
Qed.

(** One incoming record: [before_map] still points to records with the
    key, a record without key stays, and what is new has a key. *)
Lemma merge_after_inv (rows : list row) (m : list (key * nat))
      (s : Refresh.stats) (a : row) :
  (forall k i, dict_find eqkey m k = Some i ->
               exists b, nth_error rows i = Some b /\ pk b = Some k) ->
  let '(rows', m', _) := merge_after (rows, m, s) a in
  (forall k i, dict_find eqkey m' k = Some i ->
               exists b, nth_error rows' i = Some b /\ pk b = Some k) /\
  (forall r, In r rows' -> pk r <> None \/ In r rows) /\
  (forall r, In r rows -> pk r = None -> In r rows').
Proof.
  intros P. unfold Refresh.merge_after.
  destruct (pk a) as [k|] eqn:K; [|repeat split; auto].
  destruct (dict_find eqkey m k) as [i|] eqn:F.
  - destruct (P k i F) as [b [Nb Kb]].
    rewrite (nth_error_nth rows i [] Nb).
    pose proof (refresh_fold_pk a b (Refresh.updated_actual s)) as Kb'.
    destruct (fold_left (refresh_field a) Refresh.REFRESH_FIELDS
                        (b, false, Refresh.updated_actual s))
      as [[b' ch] upd].
    cbn [fst] in Kb'. rewrite Kb in Kb'. split; [|split].
    + intros k1 i1 F1. destruct (Nat.eq_dec i i1) as [<- | Ni].
      * exists b'. split; [now apply (update_at_same rows i b)|].
        destruct (P k1 i F1) as [b1 [Nb1 Kb1]]. congruence.
      * rewrite update_at_other by exact Ni. now apply P.
    + intros r I. destruct (update_at_in rows i b' r I) as [-> | I'];
        [left; congruence | now right].
    + intros r I N. apply (update_at_keeps rows i b b' r I Nb). congruence.
  - split; [|split].
    + intros k1 i1. destruct (eqkey k1 k) eqn:E.
      * apply eqkey_eq in E. subst k1.
        rewrite (dict_find_set_same eqkey eqkey_eq). intros [= <-].
        exists a. split; [|exact K].
        rewrite nth_error_app2 by lia. now rewrite Nat.sub_diag.
      * rewrite (dict_find_set_other eqkey eqkey_eq)
          by (intros ->; now rewrite eqkey_refl in E).
        intros F1. destruct (P k1 i1 F1) as [b [Nb Kb]].
        exists b. split; [|exact Kb].
        rewrite nth_error_app1; [exact Nb|]. apply nth_error_Some. congruence.
    + intros r I. apply in_app_or in I. destruct I as [I | [<- | []]];
        [now right | left; congruence].
    + intros r I _. apply in_or_app. now left.
Qed.

Lemma fold_merge_after_inv (after : list row) :
  forall rows m s,
    (forall k i, dict_find eqkey m k = Some i ->
                 exists b, nth_error rows i = Some b /\ pk b = Some k) ->
    let '(rows', _, _) := fold_left merge_after after (rows, m, s) in
    (forall r, In r rows' -> pk r <> None \/ In r rows) /\
    (forall r, In r rows -> pk r = None -> In r rows').
Proof.
  induction after as [|a after IH]; intros rows m s P; [cbn; auto|].
  cbn [fold_left]. pose proof (merge_after_inv rows m s a P) as A.
  destruct (merge_after (rows, m, s) a) as [[rows1 m1] s1].
  destruct A as [P1 [O1 K1]]. specialize (IH rows1 m1 s1 P1).
  destruct (fold_left merge_after after (rows1, m1, s1)) as [[rows2 m2] s2].
  destruct IH as [O2 K2]. split.
  - intros r I. destruct (O2 r I) as [N | I1]; [now left | now apply O1].
  - intros r I N. apply K2; auto.
Qed.

Lemma keyed_rows_none (rows : list row) :
  keyed_rows rows = None <-> exists r, In r rows /\ refresh_key r = None.
Proof.
  induction rows as [|r rows IH]; cbn [Refresh.keyed_rows].
  - split; [discriminate | intros [r [[] _]]].
  - destruct (refresh_key r) as [k|] eqn:K.
    + destruct (keyed_rows rows) as [krs|].
      * split; [discriminate|]. intros [x [[<- | I] N]]; [congruence|].
        assert (H : Some krs = None) by (apply (proj2 IH); eauto).
        discriminate H.
      * split; [|reflexivity]. intros _.
        destruct (proj1 IH eq_refl) as [x [I N]]. exists x. split; [now right | exact N].
    + split; [|reflexivity]. intros _. exists r. split; [now left | exact K].
Qed.

(** X24. The refresh merge raises exactly when a stored record has no
    sort key, that is when [int] raises on its epoch or on its event_id:
    the incoming records never make it raise, and a stored record that was
    left out of the key map for want of a key still goes through the
    sort. *)
Theorem refresh_merge_raises (before after : list row) :
  refresh_merge before after = None <->
  exists r, In r before /\ refresh_key r = None.
Proof.
  unfold Refresh.merge_events.
  pose proof (fold_merge_after_inv after before
                (fst (fold_left index_before before ([], 0)))
                (Refresh.Stats 0 0 0 0 0)) as I.
  assert (P : forall k i,
             dict_find eqkey (fst (fold_left index_before before ([], 0))) k
             = Some i ->
             exists b, nth_error before i = Some b /\ pk b = Some k).
  { apply (index_before_points before [] []). intros k i. discriminate. }
  specialize (I P).
  destruct (fold_left merge_after after _) as [[rows1 m1] s1].
  destruct I as [O K].
  assert (E : keyed_rows rows1 = None <->
              exists r, In r before /\ refresh_key r = None).
  { rewrite keyed_rows_none. split; intros [r [I N]]; exists r.
    - split; [|exact N]. destruct (O r I) as [H | H]; [|exact H].
      exfalso. destruct (pk r) as [[i e]|] eqn:Kr; [|now apply H].
      rewrite (pk_refresh_key r i e Kr) in N. discriminate.
    - split; [|exact N]. apply K; [exact I|].
      destruct (pk r) as [[i e]|] eqn:Kr; [|reflexivity].
      rewrite (pk_refresh_key r i e Kr) in N. discriminate. }
  destruct (keyed_rows rows1) as [krs|].
  - split; [discriminate|]. intros H. apply E in H. discriminate.
  - split; [intros _; now apply E | reflexivity].
Qed.

Lemma py_eq_blank_left (av bv : value) :
  is_blank av = true -> is_blank bv = false -> py_eq av bv = false.
Proof.
  destruct av as [| | | |x| |]; try discriminate; intros Ha Hb.
  - destruct bv; try reflexivity. discriminate Hb.
  - destruct bv as [| | | |y| |]; try reflexivity.
    cbn [Refresh.py_eq]. destruct (eqt x y) eqn:E; [|reflexivity].
    apply eqt_eq in E. subst. cbn [is_blank] in *. congruence.
Qed.

(** What the loop over the fields leaves in a refresh field. *)
Lemma refresh_fold_field (a : row) (f : text) (fields : list text) :
  forall b ch u,
    NoDup fields -> In f fields ->
    get (fst (fst (fold_left (refresh_field a) fields (b, ch, u)))) f
    = if dict_mem eqt a f
         && (negb (py_eq (get a f) (get b f))
             && negb (is_blank (get a f) && is_blank (get b f)))
      then get a f else get b f.
Proof.
  induction fields as [|f0 fields IH]; intros b ch u ND I; [contradiction|].
  inversion ND as [|? ? N0 ND']; subst. cbn [fold_left].
  destruct I as [-> | I].
  - assert (S : exists b1 ch1 u1,
               refresh_field a (b, ch, u) f = (b1, ch1, u1) /\
               get b1 f
               = if dict_mem eqt a f
                    && (negb (py_eq (get a f) (get b f))
                        && negb (is_blank (get a f) && is_blank (get b f)))
                 then get a f else get b f).
    { unfold Refresh.refresh_field. destruct (dict_mem eqt a f); [|eauto].
      destruct (negb _ && negb _); [|eauto].
      eexists _, _, _. split; [reflexivity|]. cbn [andb]. unfold get at 1.
      now rewrite (dict_find_set_same eqt eqt_eq). }
    destruct S as [b1 [ch1 [u1 [-> E]]]]. rewrite <- E.
    unfold get at 1 2. now rewrite refresh_fold_other by exact N0.
  - assert (Nf : f <> f0) by (intros ->; contradiction).
    assert (S : exists b1 ch1 u1,
               refresh_field a (b, ch, u) f0 = (b1, ch1, u1) /\
               get b1 f = get b f).
    { unfold Refresh.refresh_field. destruct (dict_mem eqt a f0); [|eauto].
      destruct (negb _ && negb _); [|eauto].
      eexists _, _, _. split; [reflexivity|]. unfold get.
      now rewrite (dict_find_set_other eqt eqt_eq). }
    destruct S as [b1 [ch1 [u1 [-> E]]]].
    rewrite (IH b1 ch1 u1 ND' I). now rewrite E.
Qed.

Lemma fold_index_snd (l : list row) :
  forall m n, snd (fold_left index_before l (m, n)) = n + length l.
Proof.
  induction l as [|e l IH]; intros m n; cbn [fold_left length snd]; [lia|].
  unfold Refresh.index_before at 2. destruct (pk e); rewrite IH; lia.
Qed.

Lemma fold_index_other (k : key) (l : list row) :
  forall m n,
    Forall (fun x => pk x <> Some k) l ->
    dict_find eqkey (fst (fold_left index_before l (m, n))) k
    = dict_find eqkey m k.
Proof.
  induction l as [|e l IH]; intros m n F; [reflexivity|].
  inversion F as [|? ? Ne F']; subst. cbn [fold_left].
  unfold Refresh.index_before at 2. destruct (pk e) as [k0|] eqn:K.
  - rewrite IH by exact F'. apply (dict_find_set_other eqkey eqkey_eq).
    congruence.
  - now apply IH.
Qed.

(** After the first loop a key points to the last stored record that has
    it. *)
Lemma index_before_last (pre post : list row) (b : row) (k : key) :
  pk b = Some k -> Forall (fun x => pk x <> Some k) post ->
  dict_find eqkey (fst (fold_left index_before (pre ++ b :: post) ([], 0))) k
  = Some (length pre).
Proof.
  intros K F. rewrite fold_left_app. cbn [fold_left].
  pose proof (fold_index_snd pre [] 0) as L.
  destruct (fold_left index_before pre ([], 0)) as [m1 n1].
  cbn [snd] in L. subst n1. unfold Refresh.index_before at 2. rewrite K.
  rewrite fold_index_other by exact F.
  apply (dict_find_set_same eqkey eqkey_eq).
Qed.

Lemma update_at_middle (pre post : list row) (b b' : row) :
  Refresh.update_at (pre ++ b :: post) (length pre) b' = pre ++ b' :: post.
Proof.
  induction pre as [|x pre IH]; [reflexivity|].
  cbn [app length Refresh.update_at]. now rewrite IH.
Qed.

(** X25. In the refresh merge a blank incoming value takes the place of a
    stored value that is not blank: when an incoming record meets the
    stored record with its key and holds [None] or a whitespace-only
    string in a refresh field, the merged list holds, for this key, a
    record whose field has the blank value. *)
Theorem refresh_merge_blank_erases
        (pre post : list row) (b a : row) (k : key) (f : text) (av : value)
        (rows : list row) (s : Refresh.stats) :
  pk b = Some k -> Forall (fun x => pk x <> Some k) post -> pk a = Some k ->
  In f Refresh.REFRESH_FIELDS -> dict_find eqt a f = Some av ->
  is_blank av = true -> is_blank (get b f) = false ->
  refresh_merge (pre ++ b :: post) [a] = Some (rows, s) ->
  exists b', In b' rows /\ pk b' = Some k /\ get b' f = av.
Proof.
  intros Kb Fp Ka If Fa Ba Bb. unfold Refresh.merge_events.
  cbn [fold_left]. unfold Refresh.merge_after.
  rewrite Ka, (index_before_last pre post b k Kb Fp).
  assert (Nb : nth (length pre) (pre ++ b :: post) [] = b).
  { rewrite app_nth2 by lia. now rewrite Nat.sub_diag. }
  rewrite Nb.
  pose proof (refresh_fold_pk a b (Refresh.updated_actual
                                     (Refresh.Stats 0 0 0 0 0))) as Kb'.
  assert (ND : NoDup Refresh.REFRESH_FIELDS).
  { apply nodupb_NoDup. reflexivity. }
  pose proof (refresh_fold_field a f Refresh.REFRESH_FIELDS b false
                (Refresh.updated_actual (Refresh.Stats 0 0 0 0 0)) ND If)
    as Gf.
  destruct (fold_left (refresh_field a) Refresh.REFRESH_FIELDS _)
    as [[b' ch] upd].
  cbn [fst] in Kb', Gf. rewrite update_at_middle.
  destruct (keyed_rows (pre ++ b' :: post)) as [krs|] eqn:K; [|discriminate].
  intros [= <- _]. destruct (keyed_rows_rows _ krs K) as [E _].
  exists b'. split; [|split].
  - apply (Permutation_in _ (Permutation_map snd (sorted_perm fst krs))).
    rewrite E. apply in_elt.
  - congruence.
  - rewrite Gf.
    assert (Ga : get a f = av) by (unfold get; now rewrite Fa).
    unfold dict_mem. rewrite Ga, Fa.
    rewrite (py_eq_blank_left av (get b f) Ba Bb), Ba, Bb. reflexivity.
Qed.
End RefreshFacts.

Lemma refresh_merge_counts_witness :
  1 + 1 = length (filter (fun a => match Refresh.pk (fun _ => None)
                                                    (fun _ => None) a with
                                   | Some _ => true
                                   | None => false
                                   end)
                         [fresh_5_10; row_epoch_m5; row_no_epoch]) /\
  length [row_epoch_m5; fresh_5_10] = length [stored_5_10_f] + 1 /\
  1 <= 1 /\ 1 <= 1 /\ 1 <= 1.
Proof.
  apply (refresh_merge_counts (fun _ => None) (fun _ => None)
           (fun _ _ => false) (fun _ _ => false) (fun _ _ => false)
           [stored_5_10_f] [fresh_5_10; row_epoch_m5; row_no_epoch]
           [row_epoch_m5; fresh_5_10] (Refresh.Stats 1 1 1 1 1)).
  reflexivity.
Defined.

Lemma refresh_merge_sorted_witness :
  exists ks,
    map (Refresh.sort_key (fun _ => None) (fun _ => None))
        [row_epoch_m5; fresh_5_10] = map Some ks /\
    StronglySorted (fun x y => pair_leb x y = true) ks.
Proof.
  apply (refresh_merge_sorted (fun _ => None) (fun _ => None)
           (fun _ _ => false) (fun _ _ => false) (fun _ _ => false)
           [stored_5_10_f] [fresh_5_10; row_epoch_m5; row_no_epoch]
           [row_epoch_m5; fresh_5_10] (Refresh.Stats 1 1 1 1 1)).
  reflexivity.
Defined.

Lemma refresh_merge_blank_erases_witness :
  exists b',
    In b' [fresh_5_10] /\
    Refresh.pk (fun _ => None) (fun _ => None) b' = Some (5, 10)%Z /\
    get b' (str "forecast") = VNull.
Proof.
  apply (refresh_merge_blank_erases (fun _ => None) (fun _ => None)
           (fun _ _ => false) (fun _ _ => false) (fun _ _ => false)
           [] [] stored_5_10_f fresh_5_10 (5, 10)%Z (str "forecast") VNull
           [fresh_5_10] (Refresh.Stats 1 0 1 1 1)).
  - reflexivity.
  - constructor.
  - reflexivity.
  - cbn. tauto.
  - reflexivity.
  - reflexivity.
  - reflexivity.
  - reflexivity.
Defined.

(* ------------------------------------------------------------------ *)
(** * The locator, once more *)

(** The first opening brace of a text, with what comes before it. *)
Lemma find_at_brace_split (s : text) :
  forall pos n,
    find_at (str "{") s pos = Some n ->
    exists mid rest,
      s = mid ++ "{"%char :: rest /\ n = pos + length mid /\
      no_brace mid = true.
Proof.
  change (str "{") with ["{"%char].
  induction s as [|c s IH]; intros pos n; cbn [find_at startswith];
    [discriminate|].
  rewrite eqc_sym. destruct (eqc c "{") eqn:E; cbn [andb].
  - intros [= <-]. apply eqc_eq in E. subst c.
    exists [], s. repeat split. simpl. lia.
  - intros H. destruct (IH _ _ H) as [mid [rest [-> [-> B]]]].
    exists (c :: mid), rest. split; [reflexivity|]. split; [simpl; lia|].
    cbn [no_brace forallb]. now rewrite E.
Qed.

(** X26. For a marker that holds no brace, the literal that the locator
    returns starts at the first opening brace that comes after the first
    occurrence of the marker: between the marker and the literal there is
    no opening brace. *)
Theorem extract_after_plain_marker (html marker lit : text) :
  no_brace marker = true ->
  extract_object_literal html marker = Ok lit ->
  exists pre mid rest,
    html = pre ++ marker ++ mid ++ lit ++ rest /\
    (forall pre' post',
        html = pre' ++ marker ++ post' -> length pre <= length pre') /\
    no_brace mid = true /\
    exists body, lit = "{"%char :: body ++ ["}"%char].
Proof.
  intros Hm. unfold extract_object_literal.
  destruct (find html marker 0) as [i|] eqn:Fi; [|discriminate].
  rewrite (find_brace_after_marker html marker i Hm Fi).
  unfold find in Fi. cbn [Nat.leb skipn] in Fi.
  destruct (find_at_some _ _ _ _ Fi) as [pre [post [E Ei]]].
  cbn [Nat.add] in Ei. subst i.
  pose proof (find_at_first _ _ _ _ Fi) as First. cbn [Nat.add] in First.
  assert (Es : skipn (length pre + length marker) html = post).
  { rewrite E, app_assoc, <- length_app. apply skipn_app_length. }
  unfold find. rewrite Es.
  destruct (length pre + length marker <=? length html); [|discriminate].
  destruct (find_at (str "{") post (length pre + length marker)) as [j|] eqn:Fj;
    [|discriminate].
  destruct (find_at_brace_split _ _ _ Fj) as [mid [rest [Ep [Ej B]]]].
  assert (Ej' : skipn j html = "{"%char :: rest).
  { rewrite E, Ep, Ej.
    replace (pre ++ marker ++ mid ++ "{"%char :: rest)
      with ((pre ++ marker ++ mid) ++ "{"%char :: rest)
      by (now rewrite <- !app_assoc).
    replace (length pre + length marker + length mid)
      with (length (pre ++ marker ++ mid))
      by (rewrite !length_app; lia).
    apply skipn_app_length. }
  rewrite Ej'.
  destruct (scan_braces false false None 0 j ("{"%char :: rest)) as [k|] eqn:Sk;
    [|discriminate].
  intros [= <-].
  destruct (scan_braces_slice j k rest Sk) as [body [rest' [Er F]]].
  exists pre, mid, rest'. unfold slice. rewrite Ej', F.
  split; [|split; [exact First | split; [exact B | eauto]]].
  rewrite E, Ep, Er. cbn [app]. now rewrite <- !app_assoc.
Qed.

Lemma extract_after_plain_marker_witness :
  exists pre mid rest,
    qstr "x m = (1) {`a`: {}} {" =
    pre ++ str "m =" ++ mid ++ qstr "{`a`: {}}" ++ rest /\
    (forall pre' post',
        qstr "x m = (1) {`a`: {}} {" = pre' ++ str "m =" ++ post' ->
        length pre <= length pre') /\
    no_brace mid = true /\
    exists body, qstr "{`a`: {}}" = "{"%char :: body ++ ["}"%char].
Proof.
  apply (extract_after_plain_marker (qstr "x m = (1) {`a`: {}} {") (str "m =")).
  - reflexivity.
  - reflexivity.
Defined.

Lemma scan_braces_shift (s : text) (n : nat) :
  forall in_str esc quote depth k r,
    scan_braces in_str esc quote depth (n + k) s = Some (n + r) ->
    scan_braces in_str esc quote depth k s = Some r.
Proof.
  induction s as [|ch s IH]; intros in_str esc quote depth k r;
    cbn [scan_braces]; [discriminate|].
  replace (S (n + k)) with (n + S k) by lia.
  repeat match goal with
         | |- context [if ?b then _ else _] => destruct b
         end; try apply IH.
  intros [= H]. f_equal. lia.
Qed.

Lemma scan_braces_prefix (s t : text) :
  forall in_str esc quote depth k r,
    scan_braces in_str esc quote depth k (s ++ t) = Some r ->
    r < k + length s ->
    scan_braces in_str esc quote depth k s = Some r.
Proof.
  induction s as [|ch s IH]; intros in_str esc quote depth k r H L.
  - destruct (scan_braces_found _ _ _ _ _ _ _ H) as [Lk _]. simpl in L. lia.
  - revert H. cbn [scan_braces app]. cbn [length] in L.
    repeat match goal with
           | |- context [if ?b then _ else _] => destruct b
           end; auto; intros H; apply IH; auto; lia.
Qed.

(** X27. The literal that the locator returns is closed: read alone, from
    its first character, its brace depth comes back to zero at its last
    character and not before; so the locator, run on the literal with an
    empty marker, returns the literal. *)
Theorem extract_literal_closed (html marker lit : text) :
  extract_object_literal html marker = Ok lit ->
  scan_braces false false None 0 0 lit = Some (length lit - 1) /\
  extract_object_literal lit [] = Ok lit.
Proof.
  unfold extract_object_literal at 1.
  destruct (find html marker 0) as [i|]; [|discriminate].
  destruct (find html (str "{") i) as [j|] eqn:Fj; [|discriminate].
  destruct (scan_braces false false None 0 j (skipn j html)) as [k|] eqn:Sk;
    [|discriminate].
  intros [= <-].
  destruct (find_split _ _ _ _ Fj) as [pre [post [E [Lp _]]]].
  change (str "{") with ["{"%char] in E. cbn [app] in E.
  assert (Es : skipn j html = "{"%char :: post).
  { rewrite E, <- Lp. apply skipn_app_length. }
  rewrite Es in Sk.
  destruct (scan_braces_slice j k post Sk) as [body [rest [Ep F]]].
  destruct (scan_braces_found _ _ _ _ _ _ _ Sk) as [Lk _].
  unfold slice. rewrite Es, F.
  set (lit := "{"%char :: body ++ ["}"%char]).
  assert (Ll : length lit = k + 1 - j).
  { unfold lit. rewrite <- F, length_firstn.
    destruct (scan_braces_found _ _ _ _ _ _ _ Sk) as [_ N].
    assert (k - j < length ("{"%char :: post))
      by (apply nth_error_Some; congruence).
    lia. }
  assert (S0 : scan_braces false false None 0 0 lit = Some (length lit - 1)).
  { apply (scan_braces_prefix lit rest); [|lia].
    apply (scan_braces_shift _ j).
    replace (j + 0) with j by lia.
    replace (j + (length lit - 1)) with k by lia.
    replace (lit ++ rest) with ("{"%char :: post); [exact Sk|].
    subst lit. rewrite Ep. cbn [app]. now rewrite <- app_assoc. }
  split; [exact S0|].
  unfold extract_object_literal, find. cbn [Nat.leb skipn].
  assert (F0 : find_at [] lit 0 = Some 0) by reflexivity.
  rewrite F0. cbn [Nat.leb skipn].
  assert (F1 : find_at (str "{") lit 0 = Some 0) by reflexivity.
  rewrite F1. cbn [skipn]. rewrite S0. f_equal.
  unfold slice. cbn [skipn].
  replace (length lit - 1 + 1 - 0) with (length lit) by lia.
  apply firstn_all.
Qed.

Lemma extract_literal_closed_witness :
  scan_braces false false None 0 0 (qstr "{`a`: `}`}")
  = Some (length (qstr "{`a`: `}`}") - 1) /\
  extract_object_literal (qstr "{`a`: `}`}") [] = Ok (qstr "{`a`: `}`}").
Proof.
  apply (extract_literal_closed (qstr "m = {`a`: `}`} }") (str "m =")).
  reflexivity.
Defined.

(* ------------------------------------------------------------------ *)
(** * The order of the store *)

Lemma pair_leb_antisym (x y : Z * Z) :
  pair_leb x y = true -> pair_leb y x = true -> x = y.
Proof.
  unfold pair_leb. destruct x as [x1 x2], y as [y1 y2]; simpl.
  rewrite !orb_true_iff, !andb_true_iff, !Z.ltb_lt, !Z.eqb_eq, !Z.leb_le.
  intros H1 H2. f_equal; lia.
Qed.

Section SortUnique.
Context {A : Type} (keyf : A -> Z * Z).

(** Two sorted lists of the same elements are one list, when no two
    elements have the same key. *)
Lemma sorted_unique (a : list A) :
  forall b,
    StronglySorted (key_le keyf) a -> StronglySorted (key_le keyf) b ->
    Permutation a b -> NoDup (map keyf a) -> a = b.
Proof.
  induction a as [|x a IH]; intros b Sa Sb P ND.
  - apply Permutation_nil in P. now subst.
  - destruct b as [|y b].
    { apply Permutation_sym, Permutation_nil in P. discriminate. }
    inversion Sa as [|? ? Sa' Fa]; subst.
    inversion Sb as [|? ? Sb' Fb]; subst.
    inversion ND as [|? ? Nx ND']; subst.
    assert (E : x = y).
    { assert (Iy : In y (x :: a))
        by (apply (Permutation_in _ (Permutation_sym P)); now left).
      destruct Iy as [E | Iy]; [exact E|].
      assert (Ix : In x (y :: b)) by (apply (Permutation_in _ P); now left).
      destruct Ix as [E | Ix]; [now symmetry|].
      exfalso. apply Nx.
      pose proof (proj1 (Forall_forall _ _) Fa y Iy) as L1.
      pose proof (proj1 (Forall_forall _ _) Fb x Ix) as L2.
      unfold key_le in L1, L2. rewrite (pair_leb_antisym _ _ L1 L2).
      now apply in_map. }
    subst y. f_equal. apply IH; auto.
    now apply Permutation_cons_inv in P.
Qed.
End SortUnique.

Lemma sort_key_of_key (r : row) (i e : Z) :
  key_of r = Some (i, e) -> sort_key r = ((- e)%Z, (- i)%Z).
Proof.
  unfold key_of, sort_key.
  destruct (as_int (get r (str "event_id"))) as [i'|]; [|discriminate].
  destruct (as_int (get r (str "dateline_epoch"))) as [e'|]; [|discriminate].
  now intros [= -> ->].
Qed.

Lemma sort_keys_nodup (l : list row) :
  NoDup (map key_of l) -> Forall (fun r => key_of r <> None) l ->
  NoDup (map sort_key l).
Proof.
  induction l as [|r l IH]; intros ND F; [constructor|].
  inversion ND as [|? ? N ND']; subst. inversion F as [|? ? Kr F']; subst.
  cbn [map]. constructor; [|now apply IH].
  intros I. apply N. apply in_map_iff in I. destruct I as [r' [E I]].
  pose proof (proj1 (Forall_forall _ _) F' r' I) as Kr'.
  destruct (key_of r) as [[i e]|] eqn:K; [|contradiction].
  destruct (key_of r') as [[i' e']|] eqn:K'; [|contradiction].
  rewrite (sort_key_of_key r i e K), (sort_key_of_key r' i' e' K') in E.
  apply in_map_iff. exists r'. split; [|exact I].
  rewrite K'. injection E as E1 E2. f_equal. f_equal; lia.
Qed.

(** X28. The order of the stored records does not depend on the order in
    which they came: two lists of the same records, each with an identity
    pair of its own, are sorted into the same list. *)
Theorem sort_events_desc_order_independent (l1 l2 : list row) :
  Permutation l1 l2 ->
  NoDup (map key_of l1) -> Forall (fun r => key_of r <> None) l1 ->
  sort_events_desc l1 = sort_events_desc l2.
Proof.
  intros P ND F. unfold sort_events_desc.
  apply (sorted_unique sort_key).
  - apply sorted_sorted.
  - apply sorted_sorted.
  - rewrite <- (sorted_perm sort_key l1), <- (sorted_perm sort_key l2).
    exact P.
  - apply (Permutation_NoDup
             (Permutation_map sort_key (sorted_perm sort_key l1))).
    now apply sort_keys_nodup.
Qed.

Lemma sort_events_desc_order_independent_witness :
  sort_events_desc [stored_5_10; stored_7_20]
  = sort_events_desc [stored_7_20; stored_5_10].
Proof.
  apply (sort_events_desc_order_independent [stored_5_10; stored_7_20]
                                            [stored_7_20; stored_5_10]).
  - apply perm_swap.
  - constructor; [|constructor; [intros [] | constructor]].
    intros [H | []]. vm_compute in H. discriminate H.
  - constructor; [|constructor; [|constructor]]; vm_compute; discriminate.
Defined.
